(** * tpu-mlir debugger: device context, container export, operation diff

    A shallow embedding of [python/debugger/context.py] and
    [python/tools/bmodel_dis.py], together with the parts of CPython's
    [difflib] and [functools] that those two files call.

    Part I holds the embedding, Part II the properties. *)

From Stdlib Require Import ZArith List String Ascii Lia Bool Sorted.
From stdpp Require Import base tactics option list list_numbers numbers.
From stdpp Require Import strings pretty gmap.

Open Scope Z_scope.

(* ===================================================================== *)
(** * Part I.  The embedding                                              *)
(* ===================================================================== *)

(** ** Python values, exceptions and results *)

(** [class Device(Enum)], context.py:21. *)
Inductive Device := BM1684X | BM1684.

Global Instance Device_eq_dec : EqDecision Device.
Proof. solve_decision. Defined.

(** The member values, in definition order. *)
Definition Device_value (d : Device) : string :=
  match d with
  | BM1684X => "BM1684X"
  | BM1684 => "BM1684"
  end.

Definition Device_members : list Device := [BM1684X; BM1684].

(** What a caller may hand to [Context(...)]: the tool passes strings
    ([device.upper()], the container's chip tag); a [Device] member is what
    the annotation asks for; anything else is some other Python object. *)
Inductive pyval :=
| PyStr (s : string)
| PyInt (z : Z)
| PyNone
| PyDevice (d : Device).

(** Exceptions are kept apart by where they are raised. *)
Inductive exn :=
| ValueError_not_a_valid_Device (v : pyval)  (* Enum lookup, [Device(device)] *)
| ValueError_unknown_device (v : pyval)      (* context.py:45 *)
| ValueError_not_supported (d : Device)      (* context.py:81 *)
| AssertionError (msg : option string)       (* [assert] *)
| DTypeError (code : Z)                      (* raised inside op_support.DType *)
| ZeroDivisionError
| KeyError (key : string)
| IndexError
| OSError (path : string).                   (* [open(path, "wb")], [f.write] *)

Inductive result (A : Type) :=
| Ok (a : A)
| Raise (e : exn).
Global Arguments Ok {A} a.
Global Arguments Raise {A} e.

Global Instance result_ret : MRet result := @Ok.
Global Instance result_bind : MBind result := λ A B f r,
  match r with
  | Ok a => f a
  | Raise e => Raise e
  end.

(** [assert cond, msg] *)
Definition py_assert (cond : bool) (msg : option string) : result unit :=
  if cond then Ok tt else Raise (AssertionError msg).

(** [l[0]] *)
Definition getitem0 {A} (l : list A) : result A :=
  match l with
  | x :: _ => Ok x
  | [] => Raise IndexError
  end.

(** ** The device context (context.py) *)

(** The four modules [Context.__init__] imports. *)
Inductive OpdefModule := opdef_1684x | opdef_1684.
Inductive OpparamModule := opparam_1684x | opparam_1684.

Global Instance OpdefModule_eq_dec : EqDecision OpdefModule.
Proof. solve_decision. Defined.
Global Instance OpparamModule_eq_dec : EqDecision OpparamModule.
Proof. solve_decision. Defined.

(** [module.name]: an attribute of one of the operand-layout modules. *)
Record ModuleAttr := mkModuleAttr { attr_module : OpparamModule; attr_name : string }.

(** [Device(device)]: a member is returned as it is, a value is looked up
    among the members' values, everything else is a [ValueError]. *)
Definition Device_call (v : pyval) : result Device :=
  match v with
  | PyDevice d => Ok d
  | PyStr s =>
      match find (λ d, String.eqb (Device_value d) s) Device_members with
      | Some d => Ok d
      | None => Raise (ValueError_not_a_valid_Device v)
      end
  | _ => Raise (ValueError_not_a_valid_Device v)
  end.

(** The three slots of a [Context]. *)
Record Slots := mkSlots {
  device : Device;
  opdef : OpdefModule;
  opparam : OpparamModule
}.

(** [Context.__init__], context.py:29-45.  The [if]/[elif]/[else] chain is
    kept as three tests, so that the last branch is part of the model. *)
Definition Context_init (v : pyval) : result Slots :=
  d ← Device_call v;
  if decide (d = BM1684X) then
    Ok (mkSlots d opdef_1684x opparam_1684x)
  else if decide (d = BM1684) then
    Ok (mkSlots d opdef_1684 opparam_1684)
  else
    Raise (ValueError_unknown_device v).

(** A [Context] object: its address and its slots. *)
Record Context := mkContext { self : nat; slots : Slots }.

Definition MemRef (c : Context) : ModuleAttr :=
  mkModuleAttr (opparam (slots c)) "MemRef".

(** *** op_support, as far as [tensor2memref] uses it

    [op_support] is imported, not defined, by context.py: its element
    types, their byte size, the contiguous-stride helper and the [*] of
    whatever that helper returns are taken as an interface. *)
Class OpSupport := {
  DTypeT : Type;
  DType : Z → result DTypeT;
  itemsize : DTypeT → Z;
  StrideT : Type;
  get_continuous_stride : list Z → StrideT;
  stride_mul : StrideT → Z → StrideT
}.

(** [op_support.Layout]: the one member context.py names. *)
Inductive Layout := continuous_XN.

(** A container tensor descriptor, with the fields [tensor2memref] reads. *)
Record Tensor := mkTensor {
  pad_h : Z;
  dtype : Z;
  st_mode : Z;
  shape : list (list Z);
  device_addr : Z
}.

(** Modelled from the spec: the memory reference built by
    [self.MemRef(address, shape, dtype, stride=..., layout=...)]; the class
    lives in the operand-layout modules, the spec's data model gives its
    fields.  [mr_class] records which module's class was instantiated. *)
Record MemRefT `{OpSupport} := mkMemRef {
  mr_class : ModuleAttr;
  mr_address : Z;
  mr_shape : list Z;
  mr_dtype : DTypeT;
  mr_stride : StrideT;
  mr_layout : option Layout
}.

(** [x in (1, 2)] *)
Definition in_1_2 (x : Z) : bool := (x =? 1) || (x =? 2).

(** [4 // dtype.itemsize] *)
Definition floordiv (x y : Z) : result Z :=
  if y =? 0 then Raise ZeroDivisionError else Ok (x `div` y).

(** [Context.tensor2memref], context.py:102-120. *)
Definition tensor2memref `{OpSupport} (c : Context) (tensor : Tensor)
  : result MemRefT :=
  _ ← py_assert (pad_h tensor =? 0) (Some "Not supports pad_h.");
  dt ← DType (dtype tensor);
  '(stride, layout) ←
    (if in_1_2 (st_mode tensor) then
       _ ← py_assert (bool_decide (device (slots c) = BM1684)) None;
       xn ← floordiv 4 (itemsize dt);
       shape0 ← getitem0 (shape tensor);
       Ok (stride_mul (get_continuous_stride shape0) xn, Some continuous_XN)
     else
       shape0 ← getitem0 (shape tensor);
       Ok (get_continuous_stride shape0, None));
  shape0 ← getitem0 (shape tensor);
  Ok (mkMemRef _ (MemRef c) (device_addr tensor) shape0 dt stride layout).

(** *** An instance of the interface, for the examples

    Three element types of 4, 2 and 1 bytes; strides are row-major element
    counts, and [*] scales every entry. *)
Inductive example_dtype := f32 | f16 | i8.

Fixpoint row_major (shape : list Z) : list Z :=
  match shape with
  | [] => []
  | _ :: rest => foldr Z.mul 1 rest :: row_major rest
  end.

Definition example_op_support : OpSupport := {|
  DTypeT := example_dtype;
  DType := λ code,
    if code =? 0 then Ok f32
    else if code =? 1 then Ok f16
    else if code =? 2 then Ok i8
    else Raise (DTypeError code);
  itemsize := λ dt, match dt with f32 => 4 | f16 => 2 | i8 => 1 end;
  StrideT := list Z;
  get_continuous_stride := row_major;
  stride_mul := λ stride xn, (λ s, s * xn) <$> stride
|}.

Definition example_context_1684 : Context :=
  mkContext 0 (mkSlots BM1684 opdef_1684 opparam_1684).
Definition example_context_1684x : Context :=
  mkContext 1 (mkSlots BM1684X opdef_1684x opparam_1684x).

(** A 4N-packed int8 tensor of shape 4x3x2x2, one in plain storage, and
    one with height padding. *)
Definition example_tensor_4N : Tensor := mkTensor 0 2 2 [[4; 3; 2; 2]] 4096.
Definition example_tensor_1N : Tensor := mkTensor 0 0 0 [[4; 3; 2; 2]] 4096.
Definition example_tensor_pad : Tensor := mkTensor 1 0 0 [[4; 3; 2; 2]] 4096.

(** ** Objects, class attributes and files: the process state

    Class objects (the instruction classes and the [MemRef] classes) are
    created when their module is imported and live for the whole process;
    they are named by an identity.  Everything that context.py creates at
    run time (contexts, decoders, simulators, memories) gets a fresh
    address. *)
Definition ClassObj := positive.

(** The class tables of the imported modules: [opdef.tiu_cls] and
    [opdef.dma_cls] are dictionaries from a category name to a collection
    of instruction classes, [opparam.MemRef] is a class.  The modules are
    not part of context.py, so their content is an interface. *)
Class ClassTables := {
  tiu_cls : OpdefModule → list (string * list ClassObj);
  dma_cls : OpdefModule → list (string * list ClassObj);
  MemRef_cls : OpparamModule → ClassObj
}.

(** What [__bind_resource] stores with [setattr]: closures over the
    simulator, and a property over the simulator's memory. *)
Inductive AttrValue :=
| compute_tiu (cmodel : nat)     (* [lambda c: cmodel.tiu_compute(c.cmd)] *)
| compute_dma (cmodel : nat)     (* [lambda c: cmodel.dma_compute(c.cmd)] *)
| data_property (memory : nat).  (* [data] getter and setter over [memory] *)

Global Instance AttrValue_eq_dec : EqDecision AttrValue.
Proof. solve_decision. Defined.

Record World := mkWorld {
  next_addr : nat;
    (* the next fresh object address *)
  decoder_cache : list (nat * nat);
    (* the store of [functools.lru_cache()] around [Context.decoder]:
       context address and decoder address, most recently used first *)
  decoders : gmap nat nat;
    (* the [Decoder] objects built so far: address, and the address of the
       context each was built with *)
  class_attrs : gmap (ClassObj * string) AttrValue;
    (* attributes put on class objects by [setattr] *)
  files : gmap string (list Byte.byte)
    (* the file system, by path *)
}.

Definition initial_world : World := mkWorld 0 [] ∅ ∅ ∅.

(** Allocation of one object. *)
Definition alloc (w : World) : nat * World :=
  (next_addr w,
   mkWorld (S (next_addr w)) (decoder_cache w) (decoders w)
           (class_attrs w) (files w)).

(** [setattr(cls, name, v)] *)
Definition setattr (cls : ClassObj) (name : string) (v : AttrValue)
    (w : World) : World :=
  mkWorld (next_addr w) (decoder_cache w) (decoders w)
          (<[(cls, name) := v]> (class_attrs w)) (files w).

(** The file at [path] holds [data]. *)
Definition put_file (path : string) (data : list Byte.byte)
    (w : World) : World :=
  mkWorld (next_addr w) (decoder_cache w) (decoders w)
          (class_attrs w) (<[path := data]> (files w)).

(** The file system, as far as writing a file can fail.  [fs_open path fs]
    tells whether [open(path, "wb")] succeeds when the files are [fs]: it
    does not for a name that is too long, a directory that is missing or
    not writable, a file that may not be written.  [fs_write path data fs]
    is [None] when [f.write(data)] and the closing of the file succeed, and
    otherwise what the file, which [open] has created or emptied, is left
    with (a full disk).  Both fail with an [OSError]. *)
Class FileSystem := {
  fs_open : string → gmap string (list Byte.byte) → bool;
  fs_write : string → list Byte.byte → gmap string (list Byte.byte)
             → option (list Byte.byte)
}.

(** [Context(device)]: the object is kept only if [__init__] returns. *)
Definition Context_new (v : pyval) (w : World) : result Context * World :=
  match Context_init v with
  | Ok s => let '(a, w') := alloc w in (Ok (mkContext a s), w')
  | Raise e => (Raise e, w)
  end.

(** *** [functools.lru_cache()]

    Called without arguments the decorator has [maxsize=128].  The store is
    one per decorated function, so one for all contexts; its key is the
    argument tuple, here the context itself, compared by identity since
    [Context] defines no [__eq__]. *)
Definition lru_maxsize : nat := 128.

Definition lru_get (key : nat) (cache : list (nat * nat)) : option nat :=
  snd <$> find (λ kv, bool_decide (kv.1 = key)) cache.

Definition lru_remove (key : nat) (cache : list (nat * nat))
  : list (nat * nat) :=
  filter (λ kv, kv.1 ≠ key) cache.

(** A hit moves the entry to the most recent place. *)
Definition lru_touch (key val : nat) (cache : list (nat * nat))
  : list (nat * nat) :=
  (key, val) :: lru_remove key cache.

(** A miss stores the new entry as most recent; a full store drops its
    least recently used entry. *)
Definition lru_store (key val : nat) (cache : list (nat * nat))
  : list (nat * nat) :=
  take lru_maxsize ((key, val) :: cache).

(** [Context.decoder], context.py:94-97.  [disassembler.Decoder(self)]
    builds a new object bound to the context. *)
Definition decoder (c : Context) (w : World) : nat * World :=
  match lru_get (self c) (decoder_cache w) with
  | Some d =>
      (d, mkWorld (next_addr w) (lru_touch (self c) d (decoder_cache w))
                  (decoders w) (class_attrs w) (files w))
  | None =>
      let d := next_addr w in
      (d, mkWorld (S (next_addr w)) (lru_store (self c) d (decoder_cache w))
                  (<[d := self c]> (decoders w)) (class_attrs w) (files w))
  end.

(** *** The simulator binding *)

(** [Context.__bind_resource], context.py:47-68. *)
Definition bind_resource `{ClassTables} (c : Context) (cmodel : nat)
    (w : World) : World :=
  let w :=
    foldl (λ w kv, foldl (λ w op, setattr op "compute" (compute_tiu cmodel) w)
                         w kv.2)
          w (tiu_cls (opdef (slots c))) in
  let w :=
    foldl (λ w kv, foldl (λ w op, setattr op "compute" (compute_dma cmodel) w)
                         w kv.2)
          w (dma_cls (opdef (slots c))) in
  let '(memory, w) := alloc w in
  setattr (MemRef_cls (opparam (slots c))) "data" (data_property memory) w.

(** [Context.get_runner], context.py:70-84.  [cmodel.BM1684X(memory_size)]
    and [cmodel.BM1684(memory_size)] each build a simulator object. *)
Definition get_runner `{ClassTables} (c : Context) (memory_size : Z)
    (w : World) : result nat * World :=
  if decide (device (slots c) = BM1684X) then
    let '(_cmodel, w) := alloc w in
    (Ok _cmodel, bind_resource c _cmodel w)
  else if decide (device (slots c) = BM1684) then
    let '(_cmodel, w) := alloc w in
    (Ok _cmodel, bind_resource c _cmodel w)
  else
    (Raise (ValueError_not_supported (device (slots c))), w).

(** ** The parsed container

    The container parser is not part of the two files; what they read from
    its result is [nets["Chip"]], [nets["Net"]], and below a net
    ["Parameter"], ["SubNet"], ["Id"], ["CmdGroup"], [tiu_cmd], [dma_cmd]. *)
Record cmd_group := mkCmdGroup {
  tiu_cmd : list Byte.byte;
  dma_cmd : list Byte.byte
}.
Record subnet := mkSubNet { Id : list Z; CmdGroup : list cmd_group }.
Record parameter := mkParameter { SubNet : list subnet }.
Record net := mkNet { Parameter_ : list parameter }.
Record bmodel := mkBModel { Chip : list pyval; Net : list net }.

(** Statements that change the world and may raise. *)
Definition stmt := World → result unit * World.

(** [for x in xs: body], stopping at the first exception. *)
Fixpoint for_each {X} (xs : list X) (body : X → stmt) : stmt := λ w,
  match xs with
  | [] => (Ok tt, w)
  | x :: xs' =>
      match body x w with
      | (Ok _, w') => for_each xs' body w'
      | (Raise e, w') => (Raise e, w')
      end
  end.

(** [bmodel_file + f".{_id}.tiu.bin"] and its DMA twin. *)
Definition tiu_bin (bmodel_file : string) (_id : Z) : string :=
  bmodel_file +:+ "." +:+ pretty _id +:+ ".tiu.bin".
Definition dma_bin (bmodel_file : string) (_id : Z) : string :=
  bmodel_file +:+ "." +:+ pretty _id +:+ ".dma.bin".

(** [with open(path, "wb") as f: f.write(data)] *)
Definition write_file `{FileSystem} (path : string) (data : list Byte.byte)
  : stmt := λ w,
  if fs_open path (files w) then
    match fs_write path data (files w) with
    | None => (Ok tt, put_file path data w)
    | Some rest => (Raise (OSError path), put_file path rest w)
    end
  else (Raise (OSError path), w).

(** [BModel2Bin], bmodel_dis.py:46-56. *)
Definition BModel2Bin `{FileSystem} (bmodel_file : string) (b : bmodel) : stmt :=
  for_each (Net b) (λ net,
    for_each (Parameter_ net) (λ param,
      for_each (SubNet param) (λ subnet w,
        match getitem0 (Id subnet) with
        | Raise e => (Raise e, w)
        | Ok _id =>
            for_each (CmdGroup subnet) (λ _net w,
              match write_file (tiu_bin bmodel_file _id) (tiu_cmd _net) w with
              | (Raise e, w) => (Raise e, w)
              | (Ok _, w) =>
                  write_file (dma_bin bmodel_file _id) (dma_cmd _net) w
              end) w
        end))).

(** The world part of [bmodel_dis.BModel2MLIR] and of the first step of the
    generator [bmodel_dis.BModel2Reg]: take the chip tag, build a context,
    fetch its decoder.  What the decoder then computes from the container
    is outside the two files. *)
Definition open_decoder (b : bmodel) (w : World) : result nat * World :=
  match getitem0 (Chip b) with
  | Raise e => (Raise e, w)
  | Ok chip =>
      match Context_new chip w with
      | (Raise e, w) => (Raise e, w)
      | (Ok context, w) => let '(d, w) := decoder context w in (Ok d, w)
      end
  end.

(** The operations a client can run, and their effect on the world. *)
Inductive Op :=
| Op_Context (v : pyval)
| Op_decoder (c : Context)
| Op_tensor2memref (c : Context) (t : Tensor)
| Op_Context_BModel2MLIR (c : Context) (b : bmodel)
| Op_BModel2MLIR (b : bmodel)
| Op_BModel2Reg (b : bmodel)
| Op_BModel2Bin (bmodel_file : string) (b : bmodel)
| Op_get_runner (c : Context) (memory_size : Z).

Definition exec `{ClassTables} `{FileSystem} (op : Op) (w : World) : World :=
  match op with
  | Op_Context v => (Context_new v w).2
  | Op_decoder c => (decoder c w).2
  | Op_tensor2memref c t => w
  | Op_Context_BModel2MLIR c b => (decoder c w).2
  | Op_BModel2MLIR b => (open_decoder b w).2
  | Op_BModel2Reg b => (open_decoder b w).2
  | Op_BModel2Bin bmodel_file b => (BModel2Bin bmodel_file b w).2
  | Op_get_runner c memory_size => (get_runner c memory_size w).2
  end.

Definition is_get_runner (op : Op) : bool :=
  match op with
  | Op_get_runner _ _ => true
  | _ => false
  end.


(** *** Worlds for the examples *)


(** Class tables in which each module has classes of its own. *)
Definition example_tables : ClassTables := {|
  tiu_cls := λ m,
    match m with
    | opdef_1684x => [("conv", [1; 2]); ("pool", [3])]
    | opdef_1684 => [("conv", [11]); ("pool", [12])]
    end%positive;
  dma_cls := λ m,
    match m with
    | opdef_1684x => [("tensor", [4])]
    | opdef_1684 => [("tensor", [13])]
    end%positive;
  MemRef_cls := λ m,
    match m with
    | opparam_1684x => 5
    | opparam_1684 => 14
    end%positive
|}.

(** The keys [__bind_resource] writes for a context. *)
Definition binding_targets `{ClassTables} (c : Context)
  : list (ClassObj * string) :=
  ((λ op, (op, "compute")) <$>
     (concat (snd <$> tiu_cls (opdef (slots c))) ++
      concat (snd <$> dma_cls (opdef (slots c)))))
  ++ [(MemRef_cls (opparam (slots c)), "data")].

(** The store is consistent with the heap: a cached decoder is one that was
    built for its key, and every built decoder has an address already
    handed out. *)
Definition cache_ok (w : World) : Prop :=
  (∀ k d, (k, d) ∈ decoder_cache w → decoders w !! d = Some k) ∧
  (∀ d k, decoders w !! d = Some k → (d < next_addr w)%nat).


(** The value [__bind_resource] leaves at a key it writes: the [data]
    property on the [MemRef] class, and a [compute] closure on each
    instruction class, the DMA one where a class is in both tables, since
    the DMA loop runs second. *)
Definition installed `{ClassTables} (c : Context) (cmodel memory : nat)
    (key : ClassObj * string) : AttrValue :=
  if decide (key = (MemRef_cls (opparam (slots c)), "data")) then
    data_property memory
  else if decide (key ∈ (λ op, (op, "compute")) <$>
                          concat (snd <$> dma_cls (opdef (slots c)))) then
    compute_dma cmodel
  else
    compute_tiu cmodel.

(** *** Invariants used in Part II *)


(** Two worlds that differ at most in their files. *)
Definition same_heap (w w' : World) : Prop :=
  next_addr w' = next_addr w ∧
  decoder_cache w' = decoder_cache w ∧
  decoders w' = decoders w ∧
  class_attrs w' = class_attrs w.

Definition example_world : World := mkWorld 2 [] ∅ ∅ ∅.

(** *** The container as the export sees it *)

(** The SubNets of a container, in traversal order. *)
Definition all_subnets (b : bmodel) : list subnet :=
  concat ((λ net, concat (SubNet <$> Parameter_ net)) <$> Net b).

(** The two writes of a CmdGroup, and the writes of a SubNet whose id is
    [_id]. *)
Definition group_writes (bmodel_file : string) (_id : Z) (g : cmd_group)
  : list (string * list Byte.byte) :=
  [(tiu_bin bmodel_file _id, tiu_cmd g); (dma_bin bmodel_file _id, dma_cmd g)].

Definition subnet_writes (bmodel_file : string) (sn : subnet)
  : list (string * list Byte.byte) :=
  match Id sn with
  | _id :: _ => concat (group_writes bmodel_file _id <$> CmdGroup sn)
  | [] => []
  end.

(** A container with two nets; the second net has two parameter sets. *)
Definition example_bmodel : bmodel :=
  mkBModel [PyStr "BM1684X"]
    [ mkNet [ mkParameter
                [ mkSubNet [0] [mkCmdGroup [Byte.x01; Byte.x02] [Byte.x0a]];
                  mkSubNet [1] [mkCmdGroup [Byte.x03] []] ] ];
      mkNet [ mkParameter [ mkSubNet [2] [mkCmdGroup [] [Byte.x0b; Byte.x0c]] ];
              mkParameter [ mkSubNet [3] [mkCmdGroup [Byte.x04] [Byte.x0d]] ] ] ].


(** Two nets whose SubNets are both numbered from 0. *)
Definition example_bmodel_two_nets : bmodel :=
  mkBModel [PyStr "BM1684X"]
    [ mkNet [ mkParameter [ mkSubNet [0] [mkCmdGroup [Byte.x01] [Byte.x0a]] ] ];
      mkNet [ mkParameter [ mkSubNet [0] [mkCmdGroup [Byte.x02] [Byte.x0b]] ] ] ].

(** A list of writes that were all carried out, in order. *)
Definition do_writes (l : list (string * list Byte.byte)) (w : World) : World :=
  foldl (λ w pd, put_file pd.1 pd.2 w) w l.

(** A list of writes, attempted in order up to the first that fails. *)
Definition run_writes `{FileSystem} (l : list (string * list Byte.byte)) : stmt :=
  for_each l (λ pd, write_file pd.1 pd.2).

(** The file system accepts a list of writes, one after the other. *)
Fixpoint accepts `{FileSystem} (l : list (string * list Byte.byte)) (w : World)
  : bool :=
  match l with
  | [] => true
  | (path, data) :: l' =>
      fs_open path (files w)
      && bool_decide (fs_write path data (files w) = None)
      && accepts l' (put_file path data w)
  end.

(** A file system whose answers do not depend on what the files hold. *)
Definition fs_stable `{FileSystem} : Prop :=
  ∀ path data fs fs',
    fs_open path fs = fs_open path fs' ∧ fs_write path data fs = fs_write path data fs'.

(** File systems for the examples: one that accepts every write; one that
    refuses names of more than 255 characters; and one with room for one
    byte in a file. *)
Definition example_fs : FileSystem := {|
  fs_open := λ _ _, true;
  fs_write := λ _ _ _, None
|}.
Definition example_fs_names : FileSystem := {|
  fs_open := λ path _, (String.length path <=? 255)%nat;
  fs_write := λ _ _ _, None
|}.
Definition example_fs_full : FileSystem := {|
  fs_open := λ _ _, true;
  fs_write := λ _ data _,
    if (length data <=? 1)%nat then None else Some (take 1 data)
|}.

(** A path of 250 characters. *)
Definition example_long_path : string :=
  string_of_list_ascii (repeat "a"%char 250).


(** ** [difflib.SequenceMatcher(None, a, b)]

    [unified_diff] hands its two operation lists to CPython's
    [difflib.SequenceMatcher] and reads [get_grouped_opcodes(n)] back.  The
    matcher is embedded from [Lib/difflib.py] with the arguments it gets
    here: [isjunk] is [None] and [autojunk] keeps its default [True].
    Indices and sizes are Python integers, so [Z]; the elements are hashed
    and compared, so their type is countable. *)

(** [l[i]]; [None] stands for [IndexError]. *)
Definition getitem {A} (l : list A) (i : Z) : option A :=
  let i := if i <? 0 then i + Z.of_nat (length l) else i in
  if i <? 0 then None else l !! Z.to_nat i.

(** [l[i1:i2]] *)
Definition slice_bound (len i : Z) : Z :=
  if i <? 0 then Z.max 0 (len + i) else Z.min i len.
Definition slice {A} (l : list A) (i1 i2 : Z) : list A :=
  let lo := slice_bound (Z.of_nat (length l)) i1 in
  let hi := slice_bound (Z.of_nat (length l)) i2 in
  take (Z.to_nat (hi - lo)) (drop (Z.to_nat lo) l).

(** [enumerate(l)] *)
Definition enumerate {A} (l : list A) : list (Z * A) :=
  zip (seqZ 0 (Z.of_nat (length l))) l.

Inductive tag := tag_replace | tag_delete | tag_insert | tag_equal.

Global Instance tag_eq_dec : EqDecision tag.
Proof. solve_decision. Defined.

(** A matching block [(i, j, k)], a queue entry [(alo, ahi, blo, bhi)] and
    an opcode [(tag, i1, i2, j1, j2)]. *)
Definition Match : Type := Z * Z * Z.
Definition span : Type := Z * Z * Z * Z.
Definition opcode : Type := tag * Z * Z * Z * Z.

Section SequenceMatcher.
Context {A : Type} `{Countable A}.

(** The members the methods below read. *)
Record SequenceMatcher := mkSequenceMatcher {
  sm_a : list A;
  sm_b : list A;
  b2j : gmap A (list Z);
  bjunk : list A
}.

(** [__chain_b]: [b2j] maps an element of [b] to the indices where it
    occurs; with at least 200 elements, those occurring more than
    [n // 100 + 1] times are purged.  No element is junk. *)
Definition chain_b (b : list A) : gmap A (list Z) * list A :=
  let b2j :=
    foldl (λ (b2j : gmap A (list Z)) ie,
             <[ie.2 := default [] (b2j !! ie.2) ++ [ie.1]]> b2j)
          ∅ (enumerate b) in
  let junk := [] in
  let n := Z.of_nat (length b) in
  if 200 <=? n then
    let ntest := n `div` 100 + 1 in
    (filter (λ kv, ¬ (ntest < Z.of_nat (length kv.2))) b2j, junk)
  else
    (b2j, junk).

(** [SequenceMatcher(None, a, b)] *)
Definition new_SequenceMatcher (a b : list A) : SequenceMatcher :=
  let '(b2j, junk) := chain_b b in
  mkSequenceMatcher a b b2j junk.

Definition isbjunk (m : SequenceMatcher) (x : A) : bool :=
  bool_decide (x ∈ bjunk m).

(** The inner loop of [find_longest_match], over the indices [js] of
    [a[i]] in [b]: [continue] below [blo], [break] from [bhi] on. *)
Fixpoint scan_row (i blo bhi : Z) (j2len : gmap Z Z) (js : list Z)
    (best : Match) (newj2len : gmap Z Z) : Match * gmap Z Z :=
  match js with
  | [] => (best, newj2len)
  | j :: js' =>
      if j <? blo then scan_row i blo bhi j2len js' best newj2len
      else if bhi <=? j then (best, newj2len)
      else
        let k := default 0 (j2len !! (j - 1)) + 1 in
        let newj2len := <[j := k]> newj2len in
        let best := if best.2 <? k then (i - k + 1, j - k + 1, k) else best in
        scan_row i blo bhi j2len js' best newj2len
  end.

(** The outer loop, [for i in range(alo, ahi)], and its body. *)
Definition scan_step (m : SequenceMatcher) (blo bhi : Z)
    (acc : option (Match * gmap Z Z)) (i : Z) : option (Match * gmap Z Z) :=
  '(best, j2len) ← acc;
  ai ← getitem (sm_a m) i;
  Some (scan_row i blo bhi j2len (default [] (b2j m !! ai)) best ∅).

Definition scan_rows (m : SequenceMatcher) (alo ahi blo bhi : Z)
  : option (Match * gmap Z Z) :=
  foldl (scan_step m blo bhi) (Some ((alo, blo, 0), ∅)) (seqZ alo (ahi - alo)).

(** The four [while] loops that extend the best block: to the left or to
    the right, over elements that are junk ([junk = true]) or not.  Each
    turn moves one end by one, so the distance to the end of the range
    bounds the number of turns. *)
Fixpoint extend_left (turns : nat) (m : SequenceMatcher) (junk : bool)
    (alo blo : Z) (best : Match) : option Match :=
  match turns with
  | O => Some best
  | S turns' =>
      let '(besti, bestj, bestsize) := best in
      if (alo <? besti) && (blo <? bestj) then
        bj ← getitem (sm_b m) (bestj - 1);
        if bool_decide (isbjunk m bj = junk) then
          ai ← getitem (sm_a m) (besti - 1);
          if bool_decide (ai = bj) then
            extend_left turns' m junk alo blo (besti - 1, bestj - 1, bestsize + 1)
          else Some best
        else Some best
      else Some best
  end.

Fixpoint extend_right (turns : nat) (m : SequenceMatcher) (junk : bool)
    (ahi bhi : Z) (best : Match) : option Match :=
  match turns with
  | O => Some best
  | S turns' =>
      let '(besti, bestj, bestsize) := best in
      if (besti + bestsize <? ahi) && (bestj + bestsize <? bhi) then
        bj ← getitem (sm_b m) (bestj + bestsize);
        if bool_decide (isbjunk m bj = junk) then
          ai ← getitem (sm_a m) (besti + bestsize);
          if bool_decide (ai = bj) then
            extend_right turns' m junk ahi bhi (besti, bestj, bestsize + 1)
          else Some best
        else Some best
      else Some best
  end.

(** [find_longest_match(alo, ahi, blo, bhi)] *)
Definition find_longest_match (m : SequenceMatcher) (alo ahi blo bhi : Z)
  : option Match :=
  '(best, _) ← scan_rows m alo ahi blo bhi;
  best ← extend_left (Z.to_nat (best.1.1 - alo)) m false alo blo best;
  best ← extend_right (Z.to_nat (ahi - (best.1.1 + best.2))) m false ahi bhi best;
  best ← extend_left (Z.to_nat (best.1.1 - alo)) m true alo blo best;
  extend_right (Z.to_nat (ahi - (best.1.1 + best.2))) m true ahi bhi best.

(** The [while queue:] loop of [get_matching_blocks].  The head of [queue]
    is the entry [queue.pop()] takes.  Every turn takes one span from the
    queue and puts back spans that are shorter by the block just found, so
    [turns] is taken from the length of [a]; [None] is an [IndexError] or
    a loop cut short. *)
Fixpoint matching_loop (turns : nat) (m : SequenceMatcher)
    (queue : list span) (matching_blocks : list Match) : option (list Match) :=
  match queue with
  | [] => Some matching_blocks
  | (alo, ahi, blo, bhi) :: queue =>
      match turns with
      | O => None
      | S turns' =>
          x ← find_longest_match m alo ahi blo bhi;
          let '(i, j, k) := x in
          if k =? 0 then matching_loop turns' m queue matching_blocks
          else
            let matching_blocks := matching_blocks ++ [x] in
            let queue :=
              if (alo <? i) && (blo <? j) then (alo, i, blo, j) :: queue
              else queue in
            let queue :=
              if (i + k <? ahi) && (j + k <? bhi) then (i + k, ahi, j + k, bhi) :: queue
              else queue in
            matching_loop turns' m queue matching_blocks
      end
  end.

(** [matching_blocks.sort()]: tuples compare lexicographically. *)
Definition Match_leb (x y : Match) : bool :=
  let '(i1, j1, k1) := x in
  let '(i2, j2, k2) := y in
  (i1 <? i2) || ((i1 =? i2) && ((j1 <? j2) || ((j1 =? j2) && (k1 <=? k2)))).

Fixpoint insert_sorted (x : Match) (l : list Match) : list Match :=
  match l with
  | [] => [x]
  | y :: l' => if Match_leb x y then x :: l else y :: insert_sorted x l'
  end.

Definition sort (l : list Match) : list Match := foldr insert_sorted [] l.

(** The loop that merges adjacent blocks. *)
Definition collapse (matching_blocks : list Match) : list Match :=
  let '(i1, j1, k1, non_adjacent) :=
    foldl (λ '(i1, j1, k1, non_adjacent) '(i2, j2, k2),
             if (i1 + k1 =? i2) && (j1 + k1 =? j2) then
               (i1, j1, k1 + k2, non_adjacent)
             else
               (i2, j2, k2,
                if k1 =? 0 then non_adjacent else non_adjacent ++ [(i1, j1, k1)]))
          (0, 0, 0, []) matching_blocks in
  if k1 =? 0 then non_adjacent else non_adjacent ++ [(i1, j1, k1)].

(** [get_matching_blocks()] *)
Definition get_matching_blocks (m : SequenceMatcher) : option (list Match) :=
  let la := Z.of_nat (length (sm_a m)) in
  let lb := Z.of_nat (length (sm_b m)) in
  matching_blocks ←
    matching_loop (2 * length (sm_a m) + 1) m [(0, la, 0, lb)] [];
  Some (collapse (sort matching_blocks) ++ [(la, lb, 0)]).

(** [get_opcodes()] *)
Definition opcodes_of (matching_blocks : list Match) : list opcode :=
  (foldl (λ '(i, j, answer) '(ai, bj, size),
            let answer :=
              if (i <? ai) && (j <? bj) then answer ++ [(tag_replace, i, ai, j, bj)]
              else if i <? ai then answer ++ [(tag_delete, i, ai, j, bj)]
              else if j <? bj then answer ++ [(tag_insert, i, ai, j, bj)]
              else answer in
            let i' := ai + size in
            let j' := bj + size in
            (i', j',
             if size =? 0 then answer
             else answer ++ [(tag_equal, ai, i', bj, j')]))
         (0, 0, []) matching_blocks).2.

Definition get_opcodes (m : SequenceMatcher) : option (list opcode) :=
  opcodes_of <$> get_matching_blocks m.

End SequenceMatcher.

Global Arguments SequenceMatcher A {_ _}.

(** [get_grouped_opcodes(n)], as the list of the groups it yields. *)
Definition is_equal (c : opcode) : bool := bool_decide (c.1.1.1.1 = tag_equal).

Definition fix_first (n : Z) (codes : list opcode) : list opcode :=
  match codes with
  | (tag_equal, i1, i2, j1, j2) :: rest =>
      (tag_equal, Z.max i1 (i2 - n), i2, Z.max j1 (j2 - n), j2) :: rest
  | _ => codes
  end.

Definition fix_last (n : Z) (codes : list opcode) : list opcode :=
  match last codes with
  | Some (tag_equal, i1, i2, j1, j2) =>
      <[pred (length codes) := (tag_equal, i1, Z.min i2 (i1 + n), j1, Z.min j2 (j1 + n))]>
        codes
  | _ => codes
  end.

(** One turn of [for tag, i1, i2, j1, j2 in codes]: the groups yielded so
    far and the group being filled. *)
Definition group_step (n : Z) (st : list (list opcode) * list opcode) (c : opcode)
  : list (list opcode) * list opcode :=
  let '(groups, group) := st in
  let '(tag, i1, i2, j1, j2) := c in
  let nn := n + n in
  if bool_decide (tag = tag_equal) && (nn <? i2 - i1) then
    (groups ++ [group ++ [(tag, i1, Z.min i2 (i1 + n), j1, Z.min j2 (j1 + n))]],
     [(tag, Z.max i1 (i2 - n), i2, Z.max j1 (j2 - n), j2)])
  else
    (groups, group ++ [(tag, i1, i2, j1, j2)]).

Definition grouped_opcodes (n : Z) (codes : list opcode) : list (list opcode) :=
  let codes := if bool_decide (codes = []) then [(tag_equal, 0, 1, 0, 1)] else codes in
  let codes := fix_first n codes in
  let codes := fix_last n codes in
  let '(groups, group) := foldl (group_step n) ([], []) codes in
  match group with
  | [] => groups
  | [c] => if is_equal c then groups else groups ++ [group]
  | _ => groups ++ [group]
  end.

Definition get_grouped_opcodes {A} `{Countable A} (m : SequenceMatcher A) (n : Z)
  : option (list (list opcode)) :=
  grouped_opcodes n <$> get_opcodes m.

(** ** [unified_diff] and the two-file comparison (bmodel_dis.py) *)

(** The line feed and the double quote. *)
Definition LF : string := String "010"%char "".
Definition DQ : string := String "034"%char "".

(** ["".join(l)] *)
Definition join (l : list string) : string := foldr String.append "" l.

(** [difflib._format_range_unified] *)
Definition format_range_unified (start stop : Z) : string :=
  let beginning := start + 1 in
  let length := stop - start in
  if length =? 1 then pretty beginning
  else
    let beginning := if length =? 0 then beginning - 1 else beginning in
    pretty beginning +:+ "," +:+ pretty length.

(** A decoded operation, as far as the diff looks at it: it is hashed and
    compared by the matcher, and printed by one of the three formatters
    ([str(op)], [str(op.attr)], and the [str] of each element of [op.cmd]).
    The operation classes belong to the decoder. *)
Class Operation (A : Type) `{Countable A} := {
  op_str : A → string;
  op_attr_str : A → string;
  op_cmd_strs : A → list string
}.

(** What a generator did before it stopped: the values it yielded, and the
    exception that ended it, if one did. *)
Record generated := mkGenerated { yielded : list string; raised : option exn }.

Section unified_diff.
Context {A : Type} `{Operation A}.

(** The dictionary [fmt_op]; [None] is the [KeyError] of [fmt_op[format]]. *)
Definition fmt_op (format : string) : option (A → string) :=
  if String.eqb format "raw" then Some op_attr_str
  else if String.eqb format "mlir" then Some op_str
  else if String.eqb format "bits" then Some (λ op, join (op_cmd_strs op))
  else None.

(** The lines of one opcode, [for tag, i1, i2, j1, j2 in group]. *)
Definition opcode_lines (fmt : A → string) (a b : list A) (c : opcode)
  : list string :=
  let '(tag, i1, i2, j1, j2) := c in
  if bool_decide (tag = tag_equal) then
    (λ line, "    " +:+ fmt line) <$> slice a i1 i2
  else
    (if bool_decide (tag = tag_replace ∨ tag = tag_delete)
     then (λ line, "-   " +:+ fmt line) <$> slice a i1 i2 else [])
    ++
    (if bool_decide (tag = tag_replace ∨ tag = tag_insert)
     then (λ line, "+   " +:+ fmt line) <$> slice b j1 j2 else []).

(** One turn of [for group in ...get_grouped_opcodes(n)]. *)
Definition group_lines (fmt : A → string) (a b : list A)
    (fromfile tofile : string) (started : bool) (group : list opcode)
  : generated :=
  let header :=
    if started then [] else ["--- " +:+ fromfile; "+++ " +:+ tofile] in
  match head group, last group with
  | Some first, Some last =>
      let file1_range := format_range_unified first.1.1.1.2 last.1.1.2 in
      let file2_range := format_range_unified first.1.2 last.2 in
      mkGenerated
        (header
         ++ ["@@ -" +:+ file1_range +:+ " +" +:+ file2_range +:+ " @@" +:+ LF]
         ++ concat (opcode_lines fmt a b <$> group)
         ++ [""])
        None
  | _, _ => mkGenerated header (Some IndexError)
  end.

(** The loop over the groups: [started], and what was generated so far. *)
Definition diff_step (fmt : A → string) (a b : list A) (fromfile tofile : string)
    (st : bool * generated) (group : list opcode) : bool * generated :=
  let '(started, gen) := st in
  match raised gen with
  | Some _ => (started, gen)
  | None =>
      let g := group_lines fmt a b fromfile tofile started group in
      (true, mkGenerated (yielded gen ++ yielded g) (raised g))
  end.

(** [unified_diff], bmodel_dis.py:59-100. *)
Definition unified_diff (a b : list A) (fromfile tofile : string) (n : Z)
    (format : string) : generated :=
  match fmt_op format with
  | None => mkGenerated [] (Some (KeyError format))
  | Some fmt =>
      match get_grouped_opcodes (new_SequenceMatcher a b) n with
      | None => mkGenerated [] (Some IndexError)
      | Some groups =>
          (foldl (diff_step fmt a b fromfile tofile)
                 (false, mkGenerated [] None) groups).2
      end
  end.

(** How the process ends: [exit(code)], or an exception nobody caught. *)
Record outcome := mkOutcome { stdout : list string; status : result Z }.

(** ["graph" + "".join((str(x) for x in idx))] *)
Definition fun_name (idx : list Z) : string := "graph" +:+ join (pretty <$> idx).

(** The text printed for a pair whose [fmt_cmd] is not empty. *)
Definition func_block (idx : list Z) (fmt_cmd : list string) : string :=
  let fmt_cmd := join (slice fmt_cmd 0 (-1)) +:+ LF in
  "func.func @" +:+ fun_name idx +:+ "() {" +:+ fmt_cmd +:+ "}".

Definition same_message (bmodels0 bmodels1 : string) : string :=
  DQ +:+ bmodels0 +:+ DQ +:+ " and " +:+ DQ +:+ bmodels1 +:+ DQ
  +:+ " are the same!".

(** The branch [len(args.bmodels) == 2] of [__main], bmodel_dis.py:152-177.
    [cmd_a] and [cmd_b] are [tpu_cmd_a.cmd] and [tpu_cmd_b.cmd], the decoded
    streams of the two containers: pairs of an index path and the
    operations ([.all]) of a subgraph. *)
Definition compare_step (bmodels0 bmodels1 : string) (N : Z) (format : string)
    (st : list string * bool * option exn)
    (pair : (list Z * list A) * (list Z * list A))
  : list string * bool * option exn :=
  let '(out, is_same, exc) := st in
  match exc with
  | Some _ => st
  | None =>
      let '((idx, ops_a), (_, ops_b)) := pair in
      let gen := unified_diff ops_a ops_b bmodels0 bmodels1 N format in
      match raised gen with
      | Some e => (out, is_same, Some e)
      | None =>
          let fmt_cmd := (λ x, LF +:+ x) <$> yielded gen in
          if bool_decide (fmt_cmd ≠ []) then
            (out ++ [func_block idx fmt_cmd], false, None)
          else (out, is_same, None)
      end
  end.

Definition main_compare (bmodels0 bmodels1 : string) (N : Z) (format : string)
    (cmd_a cmd_b : list (list Z * list A)) : outcome :=
  let '(out, is_same, exc) :=
    foldl (compare_step bmodels0 bmodels1 N format) ([], true, None)
          (zip cmd_a cmd_b) in
  match exc with
  | Some e => mkOutcome out (Raise e)
  | None =>
      if is_same then mkOutcome (out ++ [same_message bmodels0 bmodels1]) (Ok 0)
      else mkOutcome out (Ok 1)
  end.

End unified_diff.

(** *** Operations for the examples: integers, printed in decimal *)
Global Instance example_operation : Operation Z := {|
  op_str := pretty;
  op_attr_str := pretty;
  op_cmd_strs := λ z, [pretty z]
|}.

(** The characters of a string, for the examples of difflib's own
    documentation. *)
Definition chars (s : string) : list ascii := list_ascii_of_string s.

(** The lists of the [get_grouped_opcodes] example: 1 to 39, and the same
    after an insertion, a replacement, a deletion and another
    replacement. *)
Definition doc_a : list Z := seqZ 1 39.
Definition doc_b : list Z :=
  seqZ 1 8 ++ [100] ++ seqZ 9 11 ++ [120] ++ seqZ 21 2 ++ seqZ 28 7 ++ [135]
  ++ seqZ 36 4.

(** *** Notions for the matcher's proofs *)

(** The indices, counted from [k], at which [x] occurs in [l]. *)
Fixpoint occurrences {A} `{EqDecision A} (k : Z) (x : A) (l : list A) : list Z :=
  match l with
  | [] => []
  | y :: l' => (if decide (y = x) then [k] else []) ++ occurrences (k + 1) x l'
  end.

(** [a[j]] is a key of [b2j]. *)
Definition keyed {A} `{Countable A} (m : SequenceMatcher A) (j : Z) : bool :=
  match getitem (sm_a m) j with
  | Some x => bool_decide (is_Some (b2j m !! x))
  | None => false
  end.

(** The length of the run of keyed positions that ends at [i] and does not
    reach below [lo]. *)
Fixpoint run_from {A} `{Countable A} (m : SequenceMatcher A) (lo : Z) (k : nat) : Z :=
  match k with
  | O => 0
  | S k' => if keyed m (lo + Z.of_nat k') then run_from m lo k' + 1 else 0
  end.
Definition run {A} `{Countable A} (m : SequenceMatcher A) (lo i : Z) : Z :=
  run_from m lo (Z.to_nat (i - lo + 1)).

(** A span inside the two sequences. *)
Definition valid_span {A} `{Countable A} (m : SequenceMatcher A) (s : span) : Prop :=
  let '(alo, ahi, blo, bhi) := s in
  0 ≤ alo ≤ ahi ∧ ahi ≤ Z.of_nat (length (sm_a m)) ∧
  0 ≤ blo ≤ bhi ∧ bhi ≤ Z.of_nat (length (sm_b m)).

(** A block inside a span. *)
Definition block_in (x : Match) (s : span) : Prop :=
  let '(i, j, k) := x in
  let '(alo, ahi, blo, bhi) := s in
  0 ≤ k ∧ alo ≤ i ∧ i + k ≤ ahi ∧ blo ≤ j ∧ j + k ≤ bhi.

(** What bounds the turns of the queue loop. *)
Definition queue_weight (queue : list span) : Z :=
  foldr (λ '(alo, ahi, _, _) acc, 2 * (ahi - alo) + 1 + acc) 0 queue.

(** The table [j2len] after row [r] of a matcher comparing a sequence with
    itself: no entry is longer than the run ending at [r], nor, on and
    below the diagonal, than the run ending at its own column; the entry
    on the diagonal is the run ending at [r]. *)
Definition row_ok {A} `{Countable A} (m : SequenceMatcher A) (lo r : Z)
    (j2len : gmap Z Z) : Prop :=
  (∀ j v, j2len !! j = Some v → v ≤ run m lo r ∧ (j ≤ r → v ≤ run m lo j)) ∧
  default 0 (j2len !! r) = run m lo r.

(** The best block after row [r]: on the diagonal, inside the rows seen,
    and at least as long as every run that ends at or before [r]. *)
Definition best_ok {A} `{Countable A} (m : SequenceMatcher A) (lo r : Z)
    (best : Match) : Prop :=
  ∃ bi bs, best = (bi, bi, bs) ∧ lo ≤ bi ∧ 0 ≤ bs ∧ bi + bs ≤ r + 1 ∧
           ∀ i', lo ≤ i' ≤ r → run m lo i' ≤ bs.

(** The entries of [j2len] after row [r], for any two sequences: a match
    that ends at row [r] and column [j] starts inside the span. *)
Definition table_in (alo blo r : Z) (j2len : gmap Z Z) : Prop :=
  ∀ j v, j2len !! j = Some v → v ≤ r - alo + 1 ∧ v ≤ j - blo + 1.

(** The blocks printed for a list of subgraph pairs: one for each pair
    whose diff is not empty, in order, under the index path of the pair's
    first subgraph. *)
Definition diff_blocks {A} `{Operation A} (bmodels0 bmodels1 : string) (N : Z)
    (format : string) (pairs : list ((list Z * list A) * (list Z * list A)))
  : list string :=
  omap (λ pair,
          let gen := unified_diff pair.1.2 pair.2.2 bmodels0 bmodels1 N format in
          let fmt_cmd := (λ x, LF +:+ x) <$> yielded gen in
          if bool_decide (fmt_cmd ≠ []) then Some (func_block pair.1.1 fmt_cmd)
          else None)
       pairs.

(** Two decoded streams for the examples: the first subgraph differs in
    one operation, the second is the same; and a third subgraph. *)
Definition example_stream_a : list (list Z * list Z) :=
  [([0], [1; 2; 3; 4; 5]); ([1], [7; 8])].
Definition example_stream_b : list (list Z * list Z) :=
  [([0], [1; 2; 9; 4; 5]); ([1], [7; 8])].
Definition example_surplus : list (list Z * list Z) := [([2], [6])].

(** The CmdGroups exported under the id [_id], in traversal order. *)
Definition groups_of_id (b : bmodel) (_id : Z) : list cmd_group :=
  concat (CmdGroup <$> filter (λ sn, head (Id sn) = Some _id) (all_subnets b)).

(** The writes of the export on a container: those of its SubNets up to the
    first one without an id. *)
Fixpoint export_writes (bmodel_file : string) (sns : list subnet)
  : list (string * list Byte.byte) :=
  match sns with
  | [] => []
  | sn :: sns' =>
      match Id sn with
      | [] => []
      | _ :: _ => subnet_writes bmodel_file sn ++ export_writes bmodel_file sns'
      end
  end.

(** A SubNet without an id, after one with two CmdGroups. *)
Definition example_bmodel_no_id : bmodel :=
  mkBModel [PyStr "BM1684X"]
    [ mkNet [ mkParameter
                [ mkSubNet [7] [mkCmdGroup [Byte.x01] [Byte.x0a];
                                mkCmdGroup [Byte.x02] [Byte.x0b]];
                  mkSubNet [] [mkCmdGroup [Byte.x03] [Byte.x0c]];
                  mkSubNet [8] [mkCmdGroup [Byte.x04] [Byte.x0d]] ] ] ].
(** ** The register listing (bmodel_dis.py)

    [decoder.decode_bmodel_cmd(_net, _id)] and the attributes [tiu], [dma]
    and [reg] of what it returns belong to the disassembler, which is not
    part of the two files: they are an interface.  [tiu_regs ops] stands
    for [[x.reg for x in ops.tiu]], [dma_regs ops] for
    [[x.reg for x in ops.dma]]. *)
Class DecoderMethods := {
  DecodedCmd : Type;
  Reg : Type;
  decode_bmodel_cmd : nat → cmd_group → Z → result DecodedCmd;
  tiu_regs : DecodedCmd → list Reg;
  dma_regs : DecodedCmd → list Reg
}.

(** A generator run to its end: what it yielded, and the exception that
    ended it, if one did. *)
Record gen (X : Type) := mkGen { gen_yielded : list X; gen_raised : option exn }.
Global Arguments mkGen {X} _ _.
Global Arguments gen_yielded {X} _.
Global Arguments gen_raised {X} _.

(** [for x in xs: body], in a generator. *)
Fixpoint gen_for {X Y} (xs : list X) (body : X → gen Y) : gen Y :=
  match xs with
  | [] => mkGen [] None
  | x :: xs' =>
      let r := body x in
      match gen_raised r with
      | Some _ => r
      | None =>
          let r' := gen_for xs' body in
          mkGen (gen_yielded r ++ gen_yielded r') (gen_raised r')
      end
  end.

(** The body of the innermost loop: [yield _id, decoder.decode_bmodel_cmd(_net, _id)]. *)
Definition reg_yield `{DecoderMethods} (decoder : nat) (_id : Z) (_net : cmd_group)
  : gen (Z * DecodedCmd) :=
  match decode_bmodel_cmd decoder _net _id with
  | Raise e => mkGen [] (Some e)
  | Ok ops => mkGen [(_id, ops)] None
  end.

(** The body of the loop over the SubNets. *)
Definition reg_subnet `{DecoderMethods} (decoder : nat) (subnet : subnet)
  : gen (Z * DecodedCmd) :=
  match getitem0 (Id subnet) with
  | Raise e => mkGen [] (Some e)
  | Ok _id => gen_for (CmdGroup subnet) (reg_yield decoder _id)
  end.

(** [BModel2Reg], bmodel_dis.py:33-43: the generator, run to its end. *)
Definition BModel2Reg `{DecoderMethods} (b : bmodel) (w : World)
  : gen (Z * DecodedCmd) * World :=
  match open_decoder b w with
  | (Raise e, w) => (mkGen [] (Some e), w)
  | (Ok decoder, w) =>
      (gen_for (Net b) (λ net,
         gen_for (Parameter_ net) (λ param,
           gen_for (SubNet param) (reg_subnet decoder))), w)
  end.

(** [d[k] = v] on a dictionary, kept as the list of its items in insertion
    order: a key that is there keeps its place and gets the new value, a
    new key goes to the end. *)
Definition dict_setitem {K V} `{EqDecision K} (k : K) (v : V) (d : list (K * V))
  : list (K * V) :=
  if decide (k ∈ d.*1)
  then (λ kv, if decide (kv.1 = k) then (k, v) else kv) <$> d
  else d ++ [(k, v)].

(** [{"tiu": [x.reg for x in ops.tiu], "dma": [x.reg for x in ops.dma]}] *)
Definition reg_entry `{DecoderMethods} (ops : DecodedCmd) : list Reg * list Reg :=
  (tiu_regs ops, dma_regs ops).

(** The dictionary comprehension [{_id: {...} for _id, ops in module}]. *)
Definition reg_outs `{DecoderMethods} (module : list (Z * DecodedCmd))
  : list (Z * (list Reg * list Reg)) :=
  foldl (λ outs item, dict_setitem item.1 (reg_entry item.2) outs) [] module.

(** The branch [args.format == "reg"] of [__main], bmodel_dis.py:132-143,
    up to the dictionary [outs] that is printed as JSON. *)
Definition main_reg `{DecoderMethods} (b : bmodel) (w : World)
  : result (list (Z * (list Reg * list Reg))) * World :=
  let '(module, w) := BModel2Reg b w in
  match gen_raised module with
  | Some e => (Raise e, w)
  | None => (Ok (reg_outs (gen_yielded module)), w)
  end.

(** A decoder for the examples: it splits nothing and keeps the bytes; it
    rejects a CmdGroup without TIU bytes. *)
Definition example_decoder_methods : DecoderMethods := {|
  DecodedCmd := list Byte.byte * list Byte.byte;
  Reg := Byte.byte;
  decode_bmodel_cmd := λ _ g _,
    match tiu_cmd g with
    | [] => Raise (KeyError "tiu")
    | _ => Ok (tiu_cmd g, dma_cmd g)
    end;
  tiu_regs := fst;
  dma_regs := snd
|}.

(** The commands [BModel2Reg] has to decode: each CmdGroup with the id of
    its SubNet, in traversal order. *)
Definition reg_jobs (b : bmodel) : list (Z * cmd_group) :=
  concat ((λ sn, match Id sn with
                 | _id :: _ => (λ g, (_id, g)) <$> CmdGroup sn
                 | [] => []
                 end) <$> all_subnets b).

(** The decodings of a list of jobs by [decoder]. *)
Definition decoded `{DecoderMethods} (decoder : nat) (jobs : list (Z * cmd_group))
    (items : list (Z * DecodedCmd)) : Prop :=
  Forall2 (λ job item,
             item.1 = job.1 ∧ decode_bmodel_cmd decoder job.2 job.1 = Ok item.2)
          jobs items.

(** A SubNet with two CmdGroups, and two SubNets with the same id. *)
Definition example_bmodel_groups : bmodel :=
  mkBModel [PyStr "BM1684"]
    [ mkNet [ mkParameter
                [ mkSubNet [0] [mkCmdGroup [Byte.x01] [Byte.x0a];
                                mkCmdGroup [Byte.x02] [Byte.x0b]];
                  mkSubNet [1] [mkCmdGroup [Byte.x03] [Byte.x0c]] ] ];
      mkNet [ mkParameter [ mkSubNet [0] [mkCmdGroup [Byte.x04] [Byte.x0d]] ] ] ].

(** Every context of the store is an object that exists. *)
Definition keys_allocated (w : World) : Prop :=
  ∀ k, k ∈ (decoder_cache w).*1 → (k < next_addr w)%nat.

(** ** Decoding a command file (bmodel_dis.py)

    [dis.read_file_to_bits] and the decoder's methods [decode_tiu_bits] and
    [decode_dma_bits] belong to the disassembler: an interface.  Reading
    depends on the path and on the files. *)
Class BitsDecoder := {
  Bits : Type;
  Decoded : Type;
  read_file_to_bits : string → gmap string (list Byte.byte) → result Bits;
  decode_tiu_bits : nat → Bits → result Decoded;
  decode_dma_bits : nat → Bits → result Decoded
}.

(** [device.upper()].  [str.upper] follows Unicode.  On a string in ASCII
    the letters [a] to [z] become [A] to [Z] and every other character
    stays: that is [ascii_upper].  Characters outside ASCII may change as
    well, and one character may become several; what [str.upper] does to a
    string that has such characters, here a string with a character of
    code 128 or more, is left to an interface, which agrees with
    [ascii_upper] on the strings in ASCII. *)
Definition upper_ascii (c : ascii) : ascii :=
  let n := nat_of_ascii c in
  if (97 <=? n)%nat && (n <=? 122)%nat then ascii_of_nat (n - 32) else c.

Fixpoint ascii_upper (s : string) : string :=
  match s with
  | EmptyString => EmptyString
  | String c s' => String (upper_ascii c) (ascii_upper s')
  end.

Fixpoint is_ascii (s : string) : bool :=
  match s with
  | EmptyString => true
  | String c s' => (nat_of_ascii c <? 128)%nat && is_ascii s'
  end.

Class StrUpper := {
  str_upper : string → string;
  str_upper_ascii : ∀ s, is_ascii s = true → str_upper s = ascii_upper s
}.

(** [decode_tiu_file], bmodel_dis.py:14-17. *)
Definition decode_tiu_file `{BitsDecoder} `{StrUpper} (tiu_file device : string)
    (w : World)
  : result Decoded * World :=
  match read_file_to_bits tiu_file (files w) with
  | Raise e => (Raise e, w)
  | Ok tiu =>
      match Context_new (PyStr (str_upper device)) w with
      | (Raise e, w) => (Raise e, w)
      | (Ok context, w) =>
          let '(d, w) := decoder context w in (decode_tiu_bits d tiu, w)
      end
  end.

(** [decode_dma_file], bmodel_dis.py:20-23. *)
Definition decode_dma_file `{BitsDecoder} `{StrUpper} (dma_file device : string)
    (w : World)
  : result Decoded * World :=
  match read_file_to_bits dma_file (files w) with
  | Raise e => (Raise e, w)
  | Ok dma =>
      match Context_new (PyStr (str_upper device)) w with
      | (Raise e, w) => (Raise e, w)
      | (Ok context, w) =>
          let '(d, w) := decoder context w in (decode_dma_bits d dma, w)
      end
  end.

(** A reader and a decoder for the examples: the bits are the bytes of the
    file, a missing file is a [KeyError], and decoding pairs the bytes with
    the decoder that was asked. *)
Definition example_bits_decoder : BitsDecoder := {|
  Bits := list Byte.byte;
  Decoded := nat * list Byte.byte;
  read_file_to_bits := λ path fs,
    match fs !! path with
    | Some bytes => Ok bytes
    | None => Raise (KeyError path)
    end;
  decode_tiu_bits := λ d bits, Ok (d, bits);
  decode_dma_bits := λ d bits, Ok (d, bits)
|}.

(** An upper-casing for the examples: on ASCII it is [ascii_upper], and the
    two bytes of a sharp s in UTF-8 become [SS], as [str.upper] has it. *)
Fixpoint example_upper (s : string) : string :=
  match s with
  | EmptyString => EmptyString
  | String c t =>
      match t with
      | String c' s' =>
          if (nat_of_ascii c =? 195)%nat && (nat_of_ascii c' =? 159)%nat
          then String "S" (String "S" (example_upper s'))
          else String (upper_ascii c) (example_upper t)
      | EmptyString => String (upper_ascii c) EmptyString
      end
  end.

Definition example_str_upper : StrUpper.
Proof.
  refine {| str_upper := example_upper; str_upper_ascii := _ |}.
  induction s as [|c t IH]; [done|].
  cbn [is_ascii]. intros [Hc Ht]%andb_true_iff. apply Nat.ltb_lt in Hc.
  cbn [example_upper ascii_upper]. destruct t as [|c' s']; [done|].
  assert ((nat_of_ascii c =? 195)%nat = false) as -> by (apply Nat.eqb_neq; lia).
  cbn [andb]. by rewrite IH.
Defined.

Definition example_world_files : World :=
  mkWorld 0 [] ∅ ∅ {[ "cmd.tiu.bin" := [Byte.x01; Byte.x02] ]}.

(** *** Notions for the correctness of the diff *)

(** [a[i + t] == b[j + t]] for every [t] below [k], inside both lists. *)
Definition equal_at {A} (a b : list A) (i j k : Z) : Prop :=
  ∀ t, 0 ≤ t < k →
    ∃ x, a !! Z.to_nat (i + t) = Some x ∧ b !! Z.to_nat (j + t) = Some x.

(** A matching block that is one: inside the two lists, over equal
    elements. *)
Definition sound_block {A} (a b : list A) (x : Match) : Prop :=
  block_in x (0, Z.of_nat (length a), 0, Z.of_nat (length b)) ∧
  equal_at a b x.1.1 x.1.2 x.2.

(** The rectangle of a block, and rectangles one after the other in both
    lists. *)
Definition rect_of (x : Match) : span :=
  let '(i, j, k) := x in (i, i + k, j, j + k).
Definition rect_before (r s : span) : Prop :=
  r.1.1.2 ≤ s.1.1.1 ∧ r.2 ≤ s.1.2.
Definition apart (r s : span) : Prop := rect_before r s ∨ rect_before s r.
Definition inside (r s : span) : Prop :=
  s.1.1.1 ≤ r.1.1.1 ∧ r.1.1.2 ≤ s.1.1.2 ∧ s.1.2 ≤ r.1.2 ∧ r.2 ≤ s.2.
Definition before (x y : Match) : Prop := rect_before (rect_of x) (rect_of y).

(** The table [j2len] after row [r]: an entry [v] at column [j] is a match
    of length [v], at least one, that ends at row [r] and column [j]. *)
Definition table_sound {A} (a b : list A) (r : Z) (j2len : gmap Z Z) : Prop :=
  ∀ j v, j2len !! j = Some v → 1 ≤ v ∧ equal_at a b (r - v + 1) (j - v + 1) v.

(** Opcodes that lead from [(i, j)] to [(ie, je)]: each starts where the
    one before it ends, and its tag says what it spans. *)
Fixpoint tiling {A} (a b : list A) (i j ie je : Z) (codes : list opcode) : Prop :=
  match codes with
  | [] => i = ie ∧ j = je
  | (tag, i1, i2, j1, j2) :: rest =>
      i1 = i ∧ j1 = j ∧ i1 ≤ i2 ∧ j1 ≤ j2 ∧
      match tag with
      | tag_equal => i2 - i1 = j2 - j1 ∧ equal_at a b i1 j1 (i2 - i1)
      | tag_replace => i1 < i2 ∧ j1 < j2
      | tag_delete => i1 < i2 ∧ j1 = j2
      | tag_insert => i1 = i2 ∧ j1 < j2
      end ∧
      tiling a b i2 j2 ie je rest
  end.

(** What a group spans: [first[1], last[2], first[3], last[4]], the
    numbers of the hunk header. *)
Definition hunk_range (group : list opcode) : option (Z * Z * Z * Z) :=
  match head group, last group with
  | Some first, Some last => Some (first.1.1.1.2, last.1.1.2, first.1.2, last.2)
  | _, _ => None
  end.

(** A stretch over which the two lists are equal, from [(i, j)] to
    [(i', j')]. *)
Definition gap {A} (a b : list A) (i j i' j' : Z) : Prop :=
  i ≤ i' ∧ i' - i = j' - j ∧ equal_at a b i j (i' - i).

(** Groups that lead from [(i, j)] to [(ie, je)]: before, between and
    after the groups the two lists are equal. *)
Fixpoint covers {A} (a b : list A) (i j ie je : Z) (groups : list (list opcode))
  : Prop :=
  match groups with
  | [] => gap a b i j ie je
  | group :: rest =>
      ∃ gi gi' gj gj',
        hunk_range group = Some (gi, gi', gj, gj') ∧
        gap a b i j gi gj ∧
        tiling a b gi gj gi' gj' group ∧
        covers a b gi' gj' ie je rest
  end.

(** The elements a group shows for the first list (context, replaced and
    deleted ones) and for the second (context, replacing and inserted
    ones). *)
Definition a_side {A} (a : list A) (group : list opcode) : list A :=
  concat ((λ c : opcode,
             let '(tag, i1, i2, j1, j2) := c in
             match tag with
             | tag_insert => []
             | _ => slice a i1 i2
             end) <$> group).
Definition b_side {A} (a b : list A) (group : list opcode) : list A :=
  concat ((λ c : opcode,
             let '(tag, i1, i2, j1, j2) := c in
             match tag with
             | tag_equal => slice a i1 i2
             | tag_delete => []
             | _ => slice b j1 j2
             end) <$> group).

(** The first list patched with the groups: what lies before, between and
    after them is kept, what they span is replaced by their second
    side. *)
Fixpoint patch {A} (a b : list A) (cursor : Z) (groups : list (list opcode))
  : list A :=
  match groups with
  | [] => drop (Z.to_nat cursor) a
  | group :: rest =>
      match hunk_range group with
      | Some (i1, i2, _, _) =>
          slice a cursor i1 ++ b_side a b group ++ patch a b i2 rest
      | None => []
      end
  end.

(** The lines of a hunk, by their first character, without the four
    characters in front of the operation. *)
Definition starts_with (c : ascii) (s : string) : bool :=
  match s with
  | String c' _ => bool_decide (c' = c)
  | EmptyString => false
  end.
Definition strip (s : string) : string :=
  match s with
  | String _ (String _ (String _ (String _ s'))) => s'
  | _ => s
  end.
Definition old_lines (lines : list string) : list string :=
  strip <$> filter (λ s, starts_with "+" s = false) lines.
Definition new_lines (lines : list string) : list string :=
  strip <$> filter (λ s, starts_with "-" s = false) lines.

(** The hunk of a group: its header, its lines, and the closing empty
    string. *)
Definition hunk_header (group : list opcode) : string :=
  match hunk_range group with
  | Some (i1, i2, j1, j2) =>
      "@@ -" +:+ format_range_unified i1 i2 +:+ " +" +:+ format_range_unified j1 j2
      +:+ " @@" +:+ LF
  | None => ""
  end.
Definition hunk_lines {A} `{Operation A} (fmt : A → string) (a b : list A)
    (group : list opcode) : list string :=
  concat (opcode_lines fmt a b <$> group).
Definition hunk {A} `{Operation A} (fmt : A → string) (a b : list A)
    (group : list opcode) : list string :=
  [hunk_header group] ++ hunk_lines fmt a b group ++ [""].

(** ** Context lines: what the groups look like *)

(** Neighbours in a list are related. *)
Fixpoint chain {X} (R : X → X → Prop) (l : list X) : Prop :=
  match l with
  | [] => True
  | x :: l' => match l' with [] => True | y :: _ => R x y end ∧ chain R l'
  end.

(** Two blocks of which the second starts where the first ends. *)
Definition adjacent (x y : Match) : Prop :=
  x.1.1 + x.2 = y.1.1 ∧ x.1.2 + x.2 = y.1.2.

(** Of two opcodes, one is [equal] and the other is a change. *)
Definition alternate (c d : opcode) : Prop := is_equal c ≠ is_equal d.

(** The elements of the first list an opcode spans, [i2 - i1]. *)
Definition span_of (c : opcode) : Z := c.1.1.2 - c.1.1.1.2.

(** At most [n] elements of context at both ends of a group, and at most
    [2 n] between two changes. *)
Definition bounded (n : Z) (group : list opcode) : Prop :=
  (∀ c, c ∈ group → is_equal c = true → span_of c ≤ n + n) ∧
  (∀ c, head group = Some c → is_equal c = true → span_of c ≤ n) ∧
  (∀ c, last group = Some c → is_equal c = true → span_of c ≤ n).

(** The lines of a group: context and changes take turns, there is a
    change, a change prints a line, and the context is bounded by [n]. *)
Definition context_ok {A} `{Operation A} (fmt : A → string) (a b : list A) (n : Z)
    (group : list opcode) : Prop :=
  chain alternate group ∧
  (∃ c, c ∈ group ∧ is_equal c = false) ∧
  (∀ c, c ∈ group → is_equal c = false → opcode_lines fmt a b c ≠ []) ∧
  (∀ c, c ∈ group → is_equal c = true →
        Z.of_nat (length (opcode_lines fmt a b c)) ≤ n + n) ∧
  (∀ c, head group = Some c → is_equal c = true →
        Z.of_nat (length (opcode_lines fmt a b c)) ≤ n) ∧
  (∀ c, last group = Some c → is_equal c = true →
        Z.of_nat (length (opcode_lines fmt a b c)) ≤ n).

(** ** The command line (bmodel_dis.py)

    [dis.BModelReader] and [disassembler.BModel2MLIR], the text of a module
    ([print(module)]), its attribute [cmd] and [json.dumps] belong to the
    disassembler and to the standard library: an interface.  Reading
    depends on the path and on the files; [module_cmd m] stands for
    [m.cmd], with [.all] taken of the second component of each pair. *)
Class Disassembler (A : Type) `{Operation A} `{DecoderMethods} := {
  MlirModule : Type;
  BModelReader : string → gmap string (list Byte.byte) → result bmodel;
  disassembler_BModel2MLIR : bmodel → nat → result MlirModule;
  module_str : MlirModule → string;
  module_cmd : MlirModule → list (list Z * list A);
  json_dumps : list (Z * (list Reg * list Reg)) → string
}.

(** [BModel2MLIR], bmodel_dis.py:26-30, with [Context.BModel2MLIR],
    context.py:99-100. *)
Definition BModel2MLIR {A} `{Disassembler A} (bmodel_file : string) (w : World)
  : result MlirModule * World :=
  match BModelReader bmodel_file (files w) with
  | Raise e => (Raise e, w)
  | Ok bmodel =>
      match open_decoder bmodel w with
      | (Raise e, w) => (Raise e, w)
      | (Ok decoder, w) => (disassembler_BModel2MLIR bmodel decoder, w)
      end
  end.

(** What [parser.parse_args()] returns. *)
Record Args := mkArgs {
  args_bmodels : list string;
  args_format : string;
  args_N : Z
}.

(** How [__main] ends: [exit(code)], where [parser.error] is an exit with
    status 2 after a message on the standard error; an exception of the
    code it calls; or its own [NotImplementedError]. *)
Inductive ending :=
| Exit (code : Z)
| Uncaught (e : exn)
| NotImplementedError (msg : string).

(** [__main] after [parse_args], bmodel_dis.py:128-178: what it prints on
    the standard output, and how it ends. *)
Definition main {A} `{Disassembler A} `{FileSystem} (args : Args) (w : World)
  : (list string * ending) * World :=
  match args_bmodels args with
  | [bmodel_file] =>
      if String.eqb (args_format args) "mlir" then
        match BModel2MLIR bmodel_file w with
        | (Raise e, w) => (([], Uncaught e), w)
        | (Ok module, w) => (([module_str module], Exit 0), w)
        end
      else if String.eqb (args_format args) "reg" then
        match BModelReader bmodel_file (files w) with
        | Raise e => (([], Uncaught e), w)
        | Ok bmodel =>
            match main_reg bmodel w with
            | (Raise e, w) => (([], Uncaught e), w)
            | (Ok outs, w) => (([json_dumps outs], Exit 0), w)
            end
        end
      else if String.eqb (args_format args) "bin" then
        match BModelReader bmodel_file (files w) with
        | Raise e => (([], Uncaught e), w)
        | Ok bmodel =>
            match BModel2Bin bmodel_file bmodel w with
            | (Raise e, w) => (([], Uncaught e), w)
            | (Ok _, w) => (([], Exit 0), w)
            end
        end
      else (([], NotImplementedError "Not supports bits mode."), w)
  | [bmodels0; bmodels1] =>
      match BModel2MLIR bmodels0 w with
      | (Raise e, w) => (([], Uncaught e), w)
      | (Ok tpu_cmd_a, w) =>
          match BModel2MLIR bmodels1 w with
          | (Raise e, w) => (([], Uncaught e), w)
          | (Ok tpu_cmd_b, w) =>
              let o := main_compare bmodels0 bmodels1 (args_N args) (args_format args)
                         (module_cmd tpu_cmd_a) (module_cmd tpu_cmd_b) in
              ((stdout o,
                match status o with
                | Ok code => Exit code
                | Raise e => Uncaught e
                end), w)
          end
      end
  | _ => (([], Exit 2), w)
  end.

(** A disassembler for the examples: a container file holds the TIU bytes
    of one CmdGroup of a BM1684X container, a missing file is a [KeyError],
    and the operations of its one subgraph are the bytes as numbers. *)
Definition example_disassembler
  : @Disassembler Z _ _ example_operation example_decoder_methods := {|
  MlirModule := list (list Z * list Z);
  BModelReader := λ path fs,
    match fs !! path with
    | Some bytes =>
        Ok (mkBModel [PyStr "BM1684X"]
              [mkNet [mkParameter [mkSubNet [0] [mkCmdGroup bytes []]]]])
    | None => Raise (KeyError path)
    end;
  disassembler_BModel2MLIR := λ b _,
    Ok ((λ sn, (Id sn, (λ x, Z.of_N (Byte.to_N x))
                         <$> concat (tiu_cmd <$> CmdGroup sn)))
          <$> all_subnets b);
  module_str := λ m, join ((λ p, join (pretty <$> p.2) +:+ LF) <$> m);
  module_cmd := λ m, m;
  json_dumps := λ outs, join ((λ kv, pretty kv.1 +:+ LF) <$> outs)
|}.

Definition example_world_bmodels : World :=
  mkWorld 0 [] ∅ ∅ {[ "a.bmodel" := [Byte.x01; Byte.x02];
                      "b.bmodel" := [Byte.x01; Byte.x03] ]}.

(** [__main] with the disassembler of the examples, on a file system that
    accepts every write. *)
Definition example_main : Args → World → (list string * ending) * World :=
  @main Z _ _ example_operation example_decoder_methods example_disassembler
        example_fs.

(* ===================================================================== *)
(** * Part II.  Properties                                                *)
(* ===================================================================== *)

(** ** Context construction *)

Lemma Device_call_value (d : Device) : Device_call (PyStr (Device_value d)) = Ok d.
Proof. by destruct d. Qed.

Lemma Device_call_Ok (v : pyval) (d : Device) :
  Device_call v = Ok d ↔ v = PyStr (Device_value d) ∨ v = PyDevice d.
Proof.
  split.
  - destruct v as [s| | |d']; try done.
    + unfold Device_call, Device_members, find. cbn [Device_value].
      destruct (String.eqb_spec "BM1684X" s) as [<-|?].
      { intros [= <-]. by left. }
      destruct (String.eqb_spec "BM1684" s) as [<-|?]; [|done].
      intros [= <-]. by left.
    + intros [= ->]. by right.
  - intros [->| ->]; [apply Device_call_value|done].
Qed.

Lemma Device_call_Raise (v : pyval) (e : exn) :
  Device_call v = Raise e → e = ValueError_not_a_valid_Device v.
Proof.
  destruct v as [s| | |d']; unfold Device_call; try congruence.
  case_match; congruence.
Qed.

Lemma Context_init_Ok (v : pyval) (d : Device) :
  Device_call v = Ok d →
  Context_init v =
    Ok (match d with
        | BM1684X => mkSlots BM1684X opdef_1684x opparam_1684x
        | BM1684 => mkSlots BM1684 opdef_1684 opparam_1684
        end).
Proof. unfold Context_init. intros ->. by destruct d. Qed.

Lemma Context_init_Raise (v : pyval) (e : exn) :
  Device_call v = Raise e → Context_init v = Raise e.
Proof. unfold Context_init. by intros ->. Qed.



(** C10.  The [else] branch of [Context.__init__] is never taken: an
    argument that [Device(device)] rejects fails there, with that
    exception; an argument it accepts is served by one of the two device
    branches; so no argument makes [__init__] raise the "Unknown device"
    error. *)
Theorem unknown_device_unreachable (v : pyval) :
  (∀ e, Device_call v = Raise e → Context_init v = Raise e) ∧
  (∀ d, Device_call v = Ok d →
     Context_init v = Ok (mkSlots BM1684X opdef_1684x opparam_1684x) ∨
     Context_init v = Ok (mkSlots BM1684 opdef_1684 opparam_1684)) ∧
  (∀ v', Context_init v ≠ Raise (ValueError_unknown_device v')).
Proof.
  split; [apply Context_init_Raise|]. split.
  - intros d Hd. rewrite (Context_init_Ok _ _ Hd). destruct d; auto.
  - intros v'. destruct (Device_call v) as [d|e] eqn:Hcall.
    + rewrite (Context_init_Ok _ _ Hcall). by destruct d.
    + rewrite (Context_init_Raise _ _ Hcall).
      rewrite (Device_call_Raise _ _ Hcall). discriminate.
Qed.

Lemma unknown_device_unreachable_witness :
  Context_init (PyInt 7) = Raise (ValueError_not_a_valid_Device (PyInt 7)) ∧
  (Context_init (PyDevice BM1684X) = Ok (mkSlots BM1684X opdef_1684x opparam_1684x) ∨
   Context_init (PyDevice BM1684X) = Ok (mkSlots BM1684 opdef_1684 opparam_1684)).
Proof.
  split.
  - apply (unknown_device_unreachable (PyInt 7)). reflexivity.
  - apply (unknown_device_unreachable (PyDevice BM1684X)) with BM1684X.
    reflexivity.
Defined.

(** ** [tensor2memref] *)

(** C7.  Whatever the device, a descriptor with nonzero height padding
    makes [tensor2memref] raise the assertion error of its first line; no
    memory reference is returned. *)
Theorem tensor2memref_pad_h `{OpSupport} (c : Context) (t : Tensor) :
  pad_h t ≠ 0 →
  tensor2memref c t = Raise (AssertionError (Some "Not supports pad_h.")).
Proof.
  intros Hpad. unfold tensor2memref.
  by destruct (Z.eqb_spec (pad_h t) 0).
Qed.

Lemma tensor2memref_pad_h_witness :
  @tensor2memref example_op_support example_context_1684x example_tensor_pad
  = Raise (AssertionError (Some "Not supports pad_h.")).
Proof.
  apply (@tensor2memref_pad_h example_op_support example_context_1684x
           example_tensor_pad).
  simpl. lia.
Defined.

Lemma in_1_2_spec (x : Z) : in_1_2 x = true ↔ x = 1 ∨ x = 2.
Proof. unfold in_1_2. rewrite orb_true_iff, !Z.eqb_eq. tauto. Qed.

(** C3.  For a descriptor without height padding.  In a packed storage
    mode (1 or 2) a result is returned only on [BM1684], and on [BM1684] it
    is the memory reference with stride
    [get_continuous_stride(shape[0]) * (4 // itemsize)] and layout
    [continuous_XN]; on another device the call raises.  In every other
    storage mode the result has the plain contiguous stride and no layout.
    ("Returns" is for a descriptor whose element type code [DType] accepts,
    with a nonzero byte size where it is divided by, and with a first
    shape.) *)
Theorem tensor2memref_storage_mode `{OpSupport} (c : Context) (t : Tensor) :
  pad_h t = 0 →
  (st_mode t = 1 ∨ st_mode t = 2 →
     (device (slots c) ≠ BM1684 → ∃ e, tensor2memref c t = Raise e) ∧
     (∀ m, tensor2memref c t = Ok m →
        device (slots c) = BM1684 ∧
        (∃ shape0, getitem0 (shape t) = Ok shape0 ∧
           mr_stride m = stride_mul (get_continuous_stride shape0)
                                    (4 `div` itemsize (mr_dtype m))) ∧
        mr_layout m = Some continuous_XN) ∧
     (device (slots c) = BM1684 →
      ∀ dt shape0 rest,
        DType (dtype t) = Ok dt → itemsize dt ≠ 0 → shape t = shape0 :: rest →
        tensor2memref c t =
          Ok (mkMemRef _ (MemRef c) (device_addr t) shape0 dt
                (stride_mul (get_continuous_stride shape0) (4 `div` itemsize dt))
                (Some continuous_XN)))) ∧
  (st_mode t ≠ 1 ∧ st_mode t ≠ 2 →
     ∀ dt shape0 rest,
       DType (dtype t) = Ok dt → shape t = shape0 :: rest →
       tensor2memref c t =
         Ok (mkMemRef _ (MemRef c) (device_addr t) shape0 dt
               (get_continuous_stride shape0) None)).
Proof.
  intros Hpad. unfold tensor2memref. rewrite Hpad. simpl.
  split.
  - intros Hmode. apply in_1_2_spec in Hmode. rewrite Hmode.
    split; [|split].
    + intros Hdev. rewrite bool_decide_eq_false_2 by done.
      destruct (DType (dtype t)); simpl; eauto.
    + intros m. destruct (DType (dtype t)) as [dt|]; simpl; [|done].
      case_bool_decide as Hdev; simpl; [|done].
      unfold floordiv. destruct (Z.eqb_spec (itemsize dt) 0); simpl; [done|].
      destruct (shape t) as [|shape0 rest]; simpl; [done|].
      intros [= <-]. simpl. eauto.
    + intros Hdev dt shape0 rest -> Hsize ->. simpl.
      rewrite bool_decide_eq_true_2 by done. simpl.
      unfold floordiv. by destruct (Z.eqb_spec (itemsize dt) 0).
  - intros [H1 H2] dt shape0 rest -> ->.
    assert (in_1_2 (st_mode t) = false) as ->.
    { apply not_true_is_false. rewrite in_1_2_spec. tauto. }
    done.
Qed.

Lemma tensor2memref_storage_mode_witness :
  (∃ e, @tensor2memref example_op_support example_context_1684x
          example_tensor_4N = Raise e) ∧
  @tensor2memref example_op_support example_context_1684 example_tensor_4N
    = Ok (@mkMemRef example_op_support (mkModuleAttr opparam_1684 "MemRef")
            4096 [4; 3; 2; 2] i8 [48; 16; 8; 4] (Some continuous_XN)) ∧
  @tensor2memref example_op_support example_context_1684x example_tensor_1N
    = Ok (@mkMemRef example_op_support (mkModuleAttr opparam_1684x "MemRef")
            4096 [4; 3; 2; 2] f32 [12; 4; 2; 1] None).
Proof.
  split; [|split].
  - apply (@tensor2memref_storage_mode example_op_support
             example_context_1684x example_tensor_4N);
      [reflexivity|right; reflexivity|discriminate].
  - apply (@tensor2memref_storage_mode example_op_support
             example_context_1684 example_tensor_4N eq_refl)
      with (rest := []);
      [right; reflexivity|reflexivity|reflexivity|simpl; lia|reflexivity].
  - apply (@tensor2memref_storage_mode example_op_support
             example_context_1684x example_tensor_1N eq_refl)
      with (rest := []);
      [simpl; lia|reflexivity|reflexivity].
Defined.

(** ** The decoder store *)

Lemma lru_get_touch key val cache : lru_get key (lru_touch key val cache) = Some val.
Proof. unfold lru_get, lru_touch. simpl. by rewrite bool_decide_eq_true_2. Qed.

Lemma lru_get_store key val cache : lru_get key (lru_store key val cache) = Some val.
Proof. unfold lru_get, lru_store. simpl. by rewrite bool_decide_eq_true_2. Qed.

(** Two accesses in a row. *)
Lemma decoder_twice (c : Context) (w : World) :
  (decoder c (decoder c w).2).1 = (decoder c w).1.
Proof.
  unfold decoder at 2 3.
  destruct (lru_get (self c) (decoder_cache w)) as [d|] eqn:Hget; simpl.
  - unfold decoder. simpl. by rewrite lru_get_touch.
  - unfold decoder. simpl. by rewrite lru_get_store.
Qed.

Lemma lru_get_Some key val cache :
  lru_get key cache = Some val → (key, val) ∈ cache.
Proof.
  unfold lru_get. induction cache as [|[k v] cache IH]; simpl; [done|].
  case_bool_decide; simpl in *; subst.
  - intros [= ->]. left.
  - intros. right. auto.
Qed.











(** Invariants of the store. *)

Lemma cache_ok_initial : cache_ok initial_world.
Proof.
  split.
  - intros k d Hin. by apply elem_of_nil in Hin.
  - intros d k Hd. simpl in Hd. by rewrite lookup_empty in Hd.
Qed.



(** ** What each operation leaves alone *)

Lemma for_each_inv {X} (P : World → Prop) (xs : list X) (body : X → stmt) :
  (∀ x w, P w → P (body x w).2) →
  ∀ w, P w → P (for_each xs body w).2.
Proof.
  intros Hbody. induction xs as [|x xs IH]; intros w Hw; simpl; [done|].
  specialize (Hbody x w Hw).
  destruct (body x w) as [[[]|e] w']; simpl in *; auto.
Qed.

(** A write, done or refused, changes files only. *)
Lemma write_file_same_heap `{FileSystem} (path : string) (data : list Byte.byte)
    (w0 w : World) :
  same_heap w0 w → same_heap w0 (write_file path data w).2.
Proof.
  intros Hw. unfold write_file. destruct (fs_open path (files w)); [|done].
  by destruct (fs_write path data (files w)).
Qed.

Lemma BModel2Bin_same_heap `{FileSystem} (bmodel_file : string) (b : bmodel)
    (w : World) :
  same_heap w (BModel2Bin bmodel_file b w).2.
Proof.
  unfold BModel2Bin.
  apply (for_each_inv (same_heap w)); [|done].
  intros net w1 H1. apply (for_each_inv (same_heap w)); [|done].
  intros param w2 H2. apply (for_each_inv (same_heap w)); [|done].
  intros sn w3 H3. destruct (getitem0 (Id sn)) as [_id|e]; [|done].
  apply (for_each_inv (same_heap w)); [|done].
  intros g w4 H4.
  pose proof (write_file_same_heap (tiu_bin bmodel_file _id) (tiu_cmd g) w w4 H4)
    as Htiu.
  destruct (write_file (tiu_bin bmodel_file _id) (tiu_cmd g) w4) as [[[]|e] w5];
    [|done].
  by apply write_file_same_heap.
Qed.

Lemma Context_new_frame (v : pyval) (w : World) :
  decoder_cache (Context_new v w).2 = decoder_cache w ∧
  decoders (Context_new v w).2 = decoders w ∧
  class_attrs (Context_new v w).2 = class_attrs w ∧
  files (Context_new v w).2 = files w ∧
  (next_addr w ≤ next_addr (Context_new v w).2)%nat.
Proof.
  unfold Context_new. destruct (Context_init v); simpl; auto with lia.
Qed.

Lemma decoder_frame (c : Context) (w : World) :
  class_attrs (decoder c w).2 = class_attrs w ∧
  files (decoder c w).2 = files w.
Proof. unfold decoder. by destruct (lru_get _ _). Qed.

Lemma open_decoder_frame (b : bmodel) (w : World) :
  class_attrs (open_decoder b w).2 = class_attrs w ∧
  files (open_decoder b w).2 = files w.
Proof.
  unfold open_decoder. destruct (getitem0 (Chip b)) as [chip|]; [|done].
  destruct (Context_new_frame chip w) as (_ & _ & Hattrs & Hfiles & _).
  destruct (Context_new chip w) as [[context|] w']; simpl in *; [|done].
  destruct (decoder_frame context w') as [Hattrs' Hfiles'].
  destruct (decoder context w') as [d w'']; simpl in *.
  split; congruence.
Qed.


(** The binding loops. *)
Section tables.
Context `{ClassTables}.

Lemma setattr_loop_frame (v : AttrValue) (table : list (string * list ClassObj)) :
  ∀ w,
    let w' := foldl (λ w kv, foldl (λ w op, setattr op "compute" v w) w kv.2)
                    w table in
    next_addr w' = next_addr w ∧ decoder_cache w' = decoder_cache w ∧
    decoders w' = decoders w ∧ files w' = files w.
Proof.
  induction table as [|[name ops] table IH]; intros w; simpl; [done|].
  match goal with |- context [foldl _ ?w0 table] => specialize (IH w0) end.
  simpl in IH. destruct IH as (-> & -> & -> & ->).
  clear. revert w. induction ops as [|op ops IH]; intros w; simpl; [done|].
  destruct (IH (setattr op "compute" v w)) as (-> & -> & -> & ->). done.
Qed.

Lemma setattr_ops_attrs (v : AttrValue) (ops : list ClassObj) :
  ∀ w key,
    class_attrs (foldl (λ w op, setattr op "compute" v w) w ops) !! key =
      if decide (key ∈ (λ op, (op, "compute")) <$> ops)
      then Some v else class_attrs w !! key.
Proof.
  induction ops as [|op ops IH]; intros w key.
  - rewrite decide_False; [done|]. apply not_elem_of_nil.
  - rewrite fmap_cons. cbn [foldl]. rewrite IH. simpl.
    destruct (decide (key ∈ (λ op, (op, "compute")) <$> ops)) as [Hin|Hnin].
    + rewrite decide_True; [done|]. by right.
    + destruct (decide (key = (op, "compute"))) as [->|Hne].
      * rewrite decide_True by left. apply lookup_insert_eq.
      * rewrite decide_False.
        { by rewrite lookup_insert_ne. }
        intros Hin. apply elem_of_cons in Hin as [?|?]; done.
Qed.

Lemma setattr_loop_attrs (v : AttrValue) (table : list (string * list ClassObj)) :
  ∀ w key,
    class_attrs (foldl (λ w kv, foldl (λ w op, setattr op "compute" v w) w kv.2)
                       w table) !! key =
      if decide (key ∈ (λ op, (op, "compute")) <$> concat (snd <$> table))
      then Some v else class_attrs w !! key.
Proof.
  induction table as [|[name ops] table IH]; intros w key.
  - rewrite decide_False; [done|]. apply not_elem_of_nil.
  - rewrite fmap_cons. cbn [foldl concat snd].
    rewrite IH, setattr_ops_attrs. rewrite fmap_app.
    repeat case_decide; try done; exfalso;
      repeat match goal with
             | H : context [_ ∈ _ ++ _] |- _ => rewrite elem_of_app in H
             end; tauto.
Qed.
End tables.

Section runner.
Context `{ClassTables} `{FileSystem}.

Lemma get_runner_spec (c : Context) (memory_size : Z) (w : World) :
  ∃ w', get_runner c memory_size w = (Ok (next_addr w), w') ∧
    next_addr w' = S (S (next_addr w)) ∧
    decoder_cache w' = decoder_cache w ∧
    decoders w' = decoders w ∧
    files w' = files w ∧
    ∀ key, class_attrs w' !! key =
      if decide (key ∈ binding_targets c)
      then Some (installed c (next_addr w) (S (next_addr w)) key)
      else class_attrs w !! key.
Proof.
  assert (∃ w', (let '(_cmodel, w0) := alloc w in
                 (Ok _cmodel, bind_resource c _cmodel w0)) = (Ok (next_addr w), w') ∧
    next_addr w' = S (S (next_addr w)) ∧
    decoder_cache w' = decoder_cache w ∧
    decoders w' = decoders w ∧
    files w' = files w ∧
    ∀ key, class_attrs w' !! key =
      if decide (key ∈ binding_targets c)
      then Some (installed c (next_addr w) (S (next_addr w)) key)
      else class_attrs w !! key) as Hbody.
  { unfold alloc, bind_resource. eexists. split; [reflexivity|].
    set (w0 := mkWorld (S (next_addr w)) _ _ _ _).
    set (w1 := foldl _ w0 (tiu_cls _)).
    set (w2 := foldl _ w1 (dma_cls _)).
    destruct (setattr_loop_frame (compute_tiu (next_addr w))
                (tiu_cls (opdef (slots c))) w0) as (Hn1 & Hc1 & Hd1 & Hf1).
    destruct (setattr_loop_frame (compute_dma (next_addr w))
                (dma_cls (opdef (slots c))) w1) as (Hn2 & Hc2 & Hd2 & Hf2).
    fold w1 in Hn1, Hc1, Hd1, Hf1. fold w2 in Hn2, Hc2, Hd2, Hf2.
    unfold alloc. simpl.
    rewrite Hn2, Hn1, Hc2, Hc1, Hd2, Hd1, Hf2, Hf1. simpl.
    do 4 (split; [done|]).
    intros key. unfold installed, binding_targets.
    destruct (decide (key = (MemRef_cls (opparam (slots c)), "data"))) as [->|Hne].
    - rewrite lookup_insert_eq. rewrite decide_True; [done|].
      apply elem_of_app. right. left.
    - rewrite lookup_insert_ne by done.
      unfold w2. rewrite setattr_loop_attrs. fold w1.
      unfold w1. rewrite setattr_loop_attrs. simpl.
      rewrite fmap_app.
      repeat case_decide; try done; exfalso;
        repeat match goal with
               | H : context [_ ∈ _ ++ _] |- _ => rewrite elem_of_app in H
               | H : context [_ ∈ [_]] |- _ => rewrite list_elem_of_singleton in H
               end; tauto. }
  unfold get_runner. destruct (device (slots c)); simpl; exact Hbody.
Qed.


Lemma exec_frame (op : Op) (w : World) :
  is_get_runner op = false → class_attrs (exec op w) = class_attrs w.
Proof.
  destruct op; simpl; try done; intros _.
  - apply Context_new_frame.
  - apply decoder_frame.
  - apply decoder_frame.
  - apply open_decoder_frame.
  - apply open_decoder_frame.
  - apply BModel2Bin_same_heap.
Qed.
End runner.







Lemma binding_targets_slots `{ClassTables} (c1 c2 : Context) :
  slots c1 = slots c2 → binding_targets c1 = binding_targets c2.
Proof. unfold binding_targets. by intros ->. Qed.

Lemma installed_ne `{ClassTables} (c c' : Context) (sim sim' : nat) key :
  sim ≠ sim' → installed c sim (S sim) key ≠ installed c' sim' (S sim') key.
Proof. unfold installed. intros Hne. repeat case_decide; congruence. Qed.

Lemma Context_init_device (v1 v2 : pyval) (s1 s2 : Slots) :
  Context_init v1 = Ok s1 → Context_init v2 = Ok s2 →
  device s1 = device s2 → s1 = s2.
Proof.
  unfold Context_init.
  destruct (Device_call v1) as [d1|]; [|done].
  destruct (Device_call v2) as [d2|]; [|done]. simpl.
  destruct d1, d2; simpl; intros [= <-] [= <-]; done.
Qed.

(** C8 (amended).  No operation other than [get_runner] changes an
    attribute of a class object.  [get_runner] always returns a new
    simulator and writes exactly the keys of its context's tables: a second
    call leaves, at every key of the second context's tables, the binding
    to the second simulator, and leaves every other key as it was; so for
    two contexts built for the same device every binding of the first call
    is replaced, and a binding of the first call on a class outside the
    second device's tables stays. *)
Theorem binding_only_by_get_runner `{ClassTables} `{FileSystem} :
  (∀ (op : Op) (w : World),
     is_get_runner op = false → class_attrs (exec op w) = class_attrs w) ∧
  (∀ (c1 c2 : Context) (m1 m2 : Z) (w : World),
     ∃ (sim1 sim2 : nat) (w1 w2 : World),
       get_runner c1 m1 w = (Ok sim1, w1) ∧
       get_runner c2 m2 w1 = (Ok sim2, w2) ∧
       sim1 ≠ sim2 ∧
       (∀ key, key ∈ binding_targets c1 →
          class_attrs w1 !! key = Some (installed c1 sim1 (S sim1) key)) ∧
       (∀ key, key ∈ binding_targets c2 →
          class_attrs w2 !! key = Some (installed c2 sim2 (S sim2) key)) ∧
       (∀ key, key ∉ binding_targets c2 →
          class_attrs w2 !! key = class_attrs w1 !! key) ∧
       (∀ v1 v2,
          Context_init v1 = Ok (slots c1) → Context_init v2 = Ok (slots c2) →
          device (slots c1) = device (slots c2) →
          ∀ key, key ∈ binding_targets c1 →
            class_attrs w2 !! key = Some (installed c2 sim2 (S sim2) key) ∧
            class_attrs w2 !! key ≠ class_attrs w1 !! key)).
Proof.
  split; [apply exec_frame|].
  intros c1 c2 m1 m2 w.
  destruct (get_runner_spec c1 m1 w) as (w1 & Hr1 & Hn1 & _ & _ & _ & Hattrs1).
  destruct (get_runner_spec c2 m2 w1) as (w2 & Hr2 & Hn2 & _ & _ & _ & Hattrs2).
  exists (next_addr w), (next_addr w1), w1, w2.
  split; [done|]. split; [done|]. split; [lia|].
  assert (∀ key, key ∈ binding_targets c1 →
            class_attrs w1 !! key
            = Some (installed c1 (next_addr w) (S (next_addr w)) key)) as H1.
  { intros key Hkey. by rewrite Hattrs1, decide_True. }
  assert (∀ key, key ∈ binding_targets c2 →
            class_attrs w2 !! key
            = Some (installed c2 (next_addr w1) (S (next_addr w1)) key)) as H2.
  { intros key Hkey. by rewrite Hattrs2, decide_True. }
  split; [done|]. split; [done|]. split.
  { intros key Hkey. by rewrite Hattrs2, decide_False. }
  intros v1 v2 Hv1 Hv2 Hdev key Hkey.
  pose proof (Context_init_device _ _ _ _ Hv1 Hv2 Hdev) as Hslots.
  rewrite (binding_targets_slots _ _ Hslots) in Hkey.
  split; [by apply H2|].
  rewrite H2 by done. rewrite H1 by by rewrite (binding_targets_slots _ _ Hslots).
  intros [= Heq]. revert Heq. apply not_eq_sym, installed_ne. lia.
Qed.

Lemma binding_only_by_get_runner_witness :
  class_attrs (@exec example_tables example_fs (Op_decoder example_context_1684x)
                 example_world)
  = class_attrs example_world ∧
  ∃ (sim1 sim2 : nat) (w1 w2 : World),
    @get_runner example_tables example_context_1684x 1024 example_world = (Ok sim1, w1) ∧
    @get_runner example_tables example_context_1684x 4096 w1 = (Ok sim2, w2) ∧
    class_attrs w2 !! (1%positive, "compute")
      = Some (@installed example_tables example_context_1684x sim2 (S sim2)
                (1%positive, "compute")) ∧
    class_attrs w2 !! (1%positive, "compute") ≠ class_attrs w1 !! (1%positive, "compute").
Proof.
  split.
  - apply (proj1 (@binding_only_by_get_runner example_tables example_fs)). reflexivity.
  - destruct (proj2 (@binding_only_by_get_runner example_tables example_fs)
                example_context_1684x example_context_1684x 1024 4096 example_world)
      as (sim1 & sim2 & w1 & w2 & Hr1 & Hr2 & _ & _ & _ & _ & Hsame).
    exists sim1, sim2, w1, w2. split; [done|]. split; [done|].
    apply (Hsame (PyStr "BM1684X") (PyStr "BM1684X")); [reflexivity..|].
    vm_compute. left.
Defined.

(** C8, as stated, fails for a second call on another device: with class
    tables in which each module has its own classes, the bindings that the
    first call put on the classes of its device are all still there after
    the second call. *)
Lemma second_runner_counterexample :
  ∃ (sim1 sim2 : nat) (w1 w2 : World),
    @get_runner example_tables example_context_1684x 1024 example_world = (Ok sim1, w1) ∧
    @get_runner example_tables example_context_1684 1024 w1 = (Ok sim2, w2) ∧
    sim1 ≠ sim2 ∧
    class_attrs w1 !! (1%positive, "compute") = Some (compute_tiu sim1) ∧
    class_attrs w2 !! (1%positive, "compute") = Some (compute_tiu sim1) ∧
    ∀ key, key ∈ @binding_targets example_tables example_context_1684x →
           class_attrs w2 !! key = class_attrs w1 !! key.
Proof.
  destruct (@get_runner_spec example_tables example_context_1684x 1024 example_world)
    as (w1 & Hr1 & Hn1 & _ & _ & _ & Hattrs1).
  destruct (@get_runner_spec example_tables example_context_1684 1024 w1)
    as (w2 & Hr2 & Hn2 & _ & _ & _ & Hattrs2).
  exists (next_addr example_world), (next_addr w1), w1, w2.
  split; [done|]. split; [done|]. split; [lia|].
  assert (∀ key, key ∈ @binding_targets example_tables example_context_1684x →
                 class_attrs w2 !! key = class_attrs w1 !! key) as Hkeep.
  { intros key Hkey. rewrite Hattrs2, decide_False; [done|].
    revert Hkey. vm_compute. intros Hin.
    repeat (apply elem_of_cons in Hin as [->|Hin]);
      [..|by apply elem_of_nil in Hin];
      intros Hin';
      repeat (apply elem_of_cons in Hin' as [[=]|Hin']);
      by apply elem_of_nil in Hin'. }
  assert (class_attrs w1 !! (1%positive, "compute")
          = Some (compute_tiu (next_addr example_world))) as Hfirst.
  { rewrite Hattrs1, decide_True by (vm_compute; left). reflexivity. }
  split; [done|]. split; [|done].
  rewrite Hkeep; [done|]. vm_compute. left.
Qed.

(** ** Binary export *)

Lemma for_each_app {X} (xs ys : list X) (body : X → stmt) (w : World) :
  for_each (xs ++ ys) body w =
    match for_each xs body w with
    | (Ok _, w') => for_each ys body w'
    | (Raise e, w') => (Raise e, w')
    end.
Proof.
  revert w. induction xs as [|x xs IH]; intros w; simpl; [done|].
  destruct (body x w) as [[[]|e] w']; [apply IH|done].
Qed.

Lemma for_each_concat {X Y} (f : X → list Y) (xs : list X) (body : Y → stmt) (w : World) :
  for_each xs (λ x, for_each (f x) body) w = for_each (concat (f <$> xs)) body w.
Proof.
  revert w. induction xs as [|x xs IH]; intros w; simpl; [done|].
  rewrite for_each_app.
  destruct (for_each (f x) body w) as [[[]|e] w']; [apply IH|done].
Qed.

Lemma for_each_ext {X} (xs : list X) (body body' : X → stmt) (w : World) :
  (∀ x w, body x w = body' x w) → for_each xs body w = for_each xs body' w.
Proof.
  intros Hext. revert w. induction xs as [|x xs IH]; intros w; simpl; [done|].
  rewrite Hext. destruct (body' x w) as [[[]|e] w']; [apply IH|done].
Qed.

(** The loop nest is one loop over the SubNets in traversal order. *)
Lemma BModel2Bin_all_subnets `{FileSystem} (bmodel_file : string) (b : bmodel)
    (w : World) :
  BModel2Bin bmodel_file b w =
    for_each (all_subnets b) (λ subnet w,
      match getitem0 (Id subnet) with
      | Raise e => (Raise e, w)
      | Ok _id =>
          for_each (CmdGroup subnet) (λ _net w,
            match write_file (tiu_bin bmodel_file _id) (tiu_cmd _net) w with
            | (Raise e, w) => (Raise e, w)
            | (Ok _, w) => write_file (dma_bin bmodel_file _id) (dma_cmd _net) w
            end) w
      end) w.
Proof.
  unfold BModel2Bin, all_subnets.
  rewrite <-for_each_concat. apply for_each_ext. intros net w'.
  by rewrite <-for_each_concat.
Qed.

Lemma do_writes_app l1 l2 w : do_writes (l1 ++ l2) w = do_writes l2 (do_writes l1 w).
Proof. apply foldl_app. Qed.

(** Writes that the file system accepts are carried out. *)
Lemma accepts_app `{FileSystem} (l1 l2 : list (string * list Byte.byte)) (w : World) :
  accepts (l1 ++ l2) w = accepts l1 w && accepts l2 (do_writes l1 w).
Proof.
  revert w. induction l1 as [|[p d] l1 IH]; intros w; [done|].
  cbn [app accepts]. rewrite IH. by rewrite andb_assoc.
Qed.

Lemma run_writes_app `{FileSystem} (l1 l2 : list (string * list Byte.byte))
    (w : World) :
  run_writes (l1 ++ l2) w =
    match run_writes l1 w with
    | (Ok _, w') => run_writes l2 w'
    | (Raise e, w') => (Raise e, w')
    end.
Proof. apply for_each_app. Qed.

Lemma run_writes_accepted `{FileSystem} (l : list (string * list Byte.byte))
    (w : World) :
  accepts l w = true → run_writes l w = (Ok tt, do_writes l w).
Proof.
  revert w. induction l as [|[p d] l IH]; intros w; [done|].
  cbn [accepts]. intros [[Hopen Hwrite%bool_decide_eq_true]%andb_true_iff Hl]%andb_true_iff.
  unfold run_writes in *. cbn [for_each fst snd]. unfold write_file at 1.
  rewrite Hopen, Hwrite. by apply IH.
Qed.

(** A write that is refused, after writes that are accepted. *)
Lemma run_writes_refused `{FileSystem} (made todo : list (string * list Byte.byte))
    (path : string) (data : list Byte.byte) (w : World) :
  accepts made w = true →
  run_writes (made ++ (path, data) :: todo) w =
    if fs_open path (files (do_writes made w)) then
      match fs_write path data (files (do_writes made w)) with
      | None => run_writes todo (put_file path data (do_writes made w))
      | Some rest => (Raise (OSError path), put_file path rest (do_writes made w))
      end
    else (Raise (OSError path), do_writes made w).
Proof.
  intros Hmade. rewrite run_writes_app, run_writes_accepted by done.
  unfold run_writes. cbn [for_each fst snd]. unfold write_file at 1.
  destruct (fs_open path (files (do_writes made w))); [|done].
  by destruct (fs_write path data (files (do_writes made w))).
Qed.

Lemma group_loop_writes `{FileSystem} (bmodel_file : string) (_id : Z)
    (gs : list cmd_group) (w : World) :
  for_each gs (λ _net w,
      match write_file (tiu_bin bmodel_file _id) (tiu_cmd _net) w with
      | (Raise e, w) => (Raise e, w)
      | (Ok _, w) => write_file (dma_bin bmodel_file _id) (dma_cmd _net) w
      end) w
  = run_writes (concat (group_writes bmodel_file _id <$> gs)) w.
Proof.
  revert w. induction gs as [|g gs IH]; intros w; [done|].
  rewrite fmap_cons. cbn [concat group_writes app for_each].
  unfold run_writes. cbn [for_each fst snd].
  destruct (write_file (tiu_bin bmodel_file _id) (tiu_cmd g) w) as [[[]|e] w1];
    [|done].
  destruct (write_file (dma_bin bmodel_file _id) (dma_cmd g) w1) as [[[]|e] w2];
    [|done].
  apply IH.
Qed.

(** The export is the writes of the SubNets up to the first one without an
    id, attempted in traversal order up to the first that fails; when none
    fails and a SubNet has no id, it ends with [IndexError]. *)
Lemma BModel2Bin_run_writes `{FileSystem} (bmodel_file : string) (b : bmodel)
    (w : World) :
  BModel2Bin bmodel_file b w =
    match run_writes (export_writes bmodel_file (all_subnets b)) w with
    | (Raise e, w') => (Raise e, w')
    | (Ok _, w') =>
        (if bool_decide (Forall (λ sn, Id sn ≠ []) (all_subnets b))
         then Ok tt else Raise IndexError, w')
    end.
Proof.
  rewrite BModel2Bin_all_subnets. generalize (all_subnets b). intros sns.
  revert w. induction sns as [|sn sns IH]; intros w.
  { unfold run_writes. cbn [for_each export_writes].
    by rewrite bool_decide_eq_true_2 by constructor. }
  cbn [for_each export_writes]. unfold subnet_writes.
  destruct (Id sn) as [|_id rest] eqn:HId; cbn [getitem0].
  { rewrite bool_decide_eq_false_2; [done|].
    intros [Hsn _]%Forall_cons. by rewrite HId in Hsn. }
  rewrite group_loop_writes, run_writes_app.
  destruct (run_writes (concat (group_writes bmodel_file _id <$> CmdGroup sn)) w)
    as [[[]|e] w1]; [|done].
  rewrite IH. destruct (run_writes (export_writes bmodel_file sns) w1) as [[[]|e] w2];
    [|done].
  f_equal.
  rewrite (bool_decide_ext (Forall (λ sn, Id sn ≠ []) (sn :: sns))
             (Forall (λ sn, Id sn ≠ []) sns)); [done|].
  rewrite Forall_cons, HId. split; [tauto|].
  intros Hall. split; [done|exact Hall].
Qed.

Lemma export_writes_all (bmodel_file : string) (sns : list subnet) :
  Forall (λ sn, Id sn ≠ []) sns →
  export_writes bmodel_file sns = concat (subnet_writes bmodel_file <$> sns).
Proof.
  induction 1 as [|sn sns Hid _ IH]; [done|].
  rewrite fmap_cons. cbn [export_writes concat]. rewrite IH.
  by destruct (Id sn).
Qed.

Lemma export_writes_before (bmodel_file : string) (before after : list subnet)
    (sn : subnet) :
  Forall (λ sn, Id sn ≠ []) before → Id sn = [] →
  export_writes bmodel_file (before ++ sn :: after)
  = concat (subnet_writes bmodel_file <$> before).
Proof.
  intros Hbefore Hsn. induction Hbefore as [|sn' before Hid _ IH].
  - simpl. by rewrite Hsn.
  - rewrite fmap_cons. cbn [app export_writes concat]. rewrite IH.
    by destruct (Id sn').
Qed.

(** With an id on every SubNet and a file system that accepts its writes,
    the export does not raise, and what it does is the writes of its
    CmdGroups, two per CmdGroup, in traversal order. *)
Lemma BModel2Bin_writes `{FileSystem} (bmodel_file : string) (b : bmodel)
    (w : World) :
  Forall (λ sn, Id sn ≠ []) (all_subnets b) →
  accepts (concat (subnet_writes bmodel_file <$> all_subnets b)) w = true →
  BModel2Bin bmodel_file b w =
    (Ok tt, do_writes (concat (subnet_writes bmodel_file <$> all_subnets b)) w).
Proof.
  intros Hids Hacc. rewrite BModel2Bin_run_writes, export_writes_all by done.
  rewrite run_writes_accepted by done. by rewrite bool_decide_eq_true_2.
Qed.

Lemma do_writes_files (l : list (string * list Byte.byte)) (w : World) :
  files (do_writes l w) = list_to_map (reverse l) ∪ files w.
Proof.
  revert w. induction l as [|[p d] l IH]; intros w; simpl.
  - by rewrite (left_id_L ∅ (∪)).
  - unfold do_writes in *. simpl. rewrite IH. simpl.
    rewrite reverse_cons, list_to_map_app. simpl.
    rewrite <-(assoc_L (∪)). f_equal.
    by rewrite <-insert_union_l, (left_id_L ∅ (∪)).
Qed.

(** File names. *)

Lemma string_length_app (s t : string) :
  String.length (s +:+ t) = (String.length s + String.length t)%nat.
Proof.
  induction s as [|c s IH]; [done|].
  change (String c s +:+ t) with (String c (s +:+ t)). simpl. by rewrite IH.
Qed.

Lemma string_app_inj_len (s1 s2 t1 t2 : string) :
  s1 +:+ t1 = s2 +:+ t2 → String.length t1 = String.length t2 →
  s1 = s2 ∧ t1 = t2.
Proof.
  revert s2. induction s1 as [|c s1 IH]; intros [|c' s2];
    change ("" +:+ t1) with t1; change ("" +:+ t2) with t2;
    try change (String c s1 +:+ t1) with (String c (s1 +:+ t1));
    try change (String c' s2 +:+ t2) with (String c' (s2 +:+ t2)).
  - done.
  - intros -> Hlen. simpl in Hlen. rewrite string_length_app in Hlen. lia.
  - intros <- Hlen. simpl in Hlen. rewrite string_length_app in Hlen. lia.
  - intros [= -> Happ] Hlen. destruct (IH _ Happ Hlen) as [-> ->]. done.
Qed.

Lemma bin_name_inj (bmodel_file : string) (i j : Z) (suffix suffix' : string) :
  String.length suffix = String.length suffix' →
  bmodel_file +:+ "." +:+ pretty i +:+ suffix
    = bmodel_file +:+ "." +:+ pretty j +:+ suffix' →
  i = j ∧ suffix = suffix'.
Proof.
  intros Hlen Heq. apply (inj (String.app bmodel_file)) in Heq.
  apply (inj (String.app ".")) in Heq.
  apply string_app_inj_len in Heq as [Hij ->]; [|done].
  by apply (inj pretty) in Hij.
Qed.

Lemma tiu_bin_inj (bmodel_file : string) (i j : Z) :
  tiu_bin bmodel_file i = tiu_bin bmodel_file j → i = j.
Proof. intros Heq. by apply bin_name_inj in Heq as [? _]. Qed.

Lemma dma_bin_inj (bmodel_file : string) (i j : Z) :
  dma_bin bmodel_file i = dma_bin bmodel_file j → i = j.
Proof. intros Heq. by apply bin_name_inj in Heq as [? _]. Qed.

Lemma tiu_bin_dma_bin (bmodel_file : string) (i j : Z) :
  tiu_bin bmodel_file i ≠ dma_bin bmodel_file j.
Proof. intros Heq. by apply bin_name_inj in Heq as [_ ?]. Qed.





(** ** The sequence matcher *)

Lemma getitem_Some {A} (l : list A) (i : Z) :
  0 ≤ i < Z.of_nat (length l) → ∃ x, getitem l i = Some x ∧ l !! Z.to_nat i = Some x.
Proof.
  intros Hi. unfold getitem.
  assert ((i <? 0) = false) as -> by lia. simpl.
  assert ((i <? 0) = false) as -> by lia.
  destruct (l !! Z.to_nat i) as [x|] eqn:Hl; [eauto|].
  apply lookup_ge_None in Hl. lia.
Qed.

Lemma getitem_nonneg {A} (l : list A) (i : Z) :
  0 ≤ i → getitem l i = l !! Z.to_nat i.
Proof.
  intros Hi. unfold getitem.
  assert ((i <? 0) = false) as -> by lia. simpl.
  by assert ((i <? 0) = false) as -> by lia.
Qed.

Section occurrences.
Context {A : Type} `{Countable A}.

Lemma elem_of_occurrences (x : A) (l : list A) :
  ∀ k j, j ∈ occurrences k x l ↔ k ≤ j ∧ l !! Z.to_nat (j - k) = Some x.
Proof.
  induction l as [|y l IH]; intros k j; simpl.
  - rewrite elem_of_nil. split; [done|]. intros [_ Hl]. by rewrite lookup_nil in Hl.
  - rewrite elem_of_app, IH. split.
    + intros [Hin|[Hle Hl]].
      * destruct (decide (y = x)) as [->|]; [|by apply elem_of_nil in Hin].
        apply list_elem_of_singleton in Hin as ->.
        split; [lia|]. by rewrite Z.sub_diag.
      * split; [lia|]. replace (Z.to_nat (j - k)) with (S (Z.to_nat (j - (k + 1)))) by lia.
        done.
    + intros [Hle Hl]. destruct (decide (j = k)) as [->|Hne].
      * left. rewrite Z.sub_diag in Hl. simpl in Hl. injection Hl as ->.
        rewrite decide_True by done. left.
      * right. split; [lia|].
        replace (Z.to_nat (j - k)) with (S (Z.to_nat (j - (k + 1)))) in Hl by lia.
        done.
Qed.

Lemma occurrences_sorted (x : A) (l : list A) :
  ∀ k, StronglySorted Z.lt (occurrences k x l).
Proof.
  induction l as [|y l IH]; intros k; simpl; [constructor|].
  destruct (decide (y = x)); simpl; [|done].
  constructor; [done|]. apply Forall_forall. intros j Hj.
  apply elem_of_occurrences in Hj. lia.
Qed.

(** The dictionary built by the first loop of [__chain_b]. *)
Lemma b2j_build (l : list A) :
  ∀ (k : Z) (d : gmap A (list Z)) (x : A),
    foldl (λ (b2j : gmap A (list Z)) ie,
             <[ie.2 := default [] (b2j !! ie.2) ++ [ie.1]]> b2j)
          d (zip (seqZ k (Z.of_nat (length l))) l) !! x
    = if decide (occurrences k x l = []) then d !! x
      else Some (default [] (d !! x) ++ occurrences k x l).
Proof.
  induction l as [|y l IH]; intros k d x.
  - simpl. first [done | by rewrite decide_True].
  - rewrite seqZ_cons by (simpl; lia).
    replace (Z.pred (Z.of_nat (length (y :: l)))) with (Z.of_nat (length l))
      by (simpl; lia).
    cbn [zip zip_with foldl]. rewrite IH. simpl.
    replace (Z.succ k) with (k + 1) by lia.
    destruct (decide (y = x)) as [->|Hne].
    + rewrite lookup_insert_eq. simpl.
      case_decide as Hocc.
      * by rewrite Hocc.
      * by rewrite <-app_assoc.
    + rewrite lookup_insert_ne by done. done.
Qed.

Lemma chain_b_lookup (b : list A) (x : A) (js : list Z) :
  (chain_b b).1 !! x = Some js → js = occurrences 0 x b ∧ js ≠ [].
Proof.
  unfold chain_b, enumerate.
  assert (∀ js, foldl (λ (b2j : gmap A (list Z)) ie,
             <[ie.2 := default [] (b2j !! ie.2) ++ [ie.1]]> b2j)
          ∅ (zip (seqZ 0 (Z.of_nat (length b))) b) !! x = Some js →
          js = occurrences 0 x b ∧ js ≠ []) as Hbuild.
  { intros js'. rewrite b2j_build, lookup_empty. simpl.
    case_decide; [done|]. by intros [= <-]. }
  destruct (200 <=? Z.of_nat (length b)); simpl.
  - intros [Hl _]%map_lookup_filter_Some. by apply Hbuild.
  - apply Hbuild.
Qed.

Lemma chain_b_junk (b : list A) : (chain_b b).2 = [].
Proof. unfold chain_b. by destruct (200 <=? Z.of_nat (length b)). Qed.

Lemma new_SequenceMatcher_a (a b : list A) : sm_a (new_SequenceMatcher a b) = a.
Proof. unfold new_SequenceMatcher. by destruct (chain_b b). Qed.
Lemma new_SequenceMatcher_b (a b : list A) : sm_b (new_SequenceMatcher a b) = b.
Proof. unfold new_SequenceMatcher. by destruct (chain_b b). Qed.
Lemma new_SequenceMatcher_b2j (a b : list A) :
  b2j (new_SequenceMatcher a b) = (chain_b b).1.
Proof. unfold new_SequenceMatcher. by destruct (chain_b b). Qed.
Lemma new_SequenceMatcher_bjunk (a b : list A) : bjunk (new_SequenceMatcher a b) = [].
Proof.
  unfold new_SequenceMatcher. pose proof (chain_b_junk b). by destruct (chain_b b).
Qed.

End occurrences.

Section run.
Context {A : Type} `{Countable A} (m : SequenceMatcher A) (lo : Z).

Lemma run_from_bounds (k : nat) : 0 ≤ run_from m lo k ≤ Z.of_nat k.
Proof.
  induction k as [|k IH]; simpl; [lia|].
  destruct (keyed m (lo + Z.of_nat k)); lia.
Qed.

Lemma run_nonneg (i : Z) : 0 ≤ run m lo i.
Proof. apply run_from_bounds. Qed.

Lemma run_le (i : Z) : lo - 1 ≤ i → run m lo i ≤ i - lo + 1.
Proof. intros Hi. unfold run. pose proof (run_from_bounds (Z.to_nat (i - lo + 1))). lia. Qed.

Lemma run_below (i : Z) : i < lo → run m lo i = 0.
Proof. intros Hi. unfold run. by replace (Z.to_nat (i - lo + 1)) with 0%nat by lia. Qed.

Lemma run_step (i : Z) :
  lo ≤ i → run m lo i = if keyed m i then run m lo (i - 1) + 1 else 0.
Proof.
  intros Hi. unfold run.
  replace (Z.to_nat (i - lo + 1)) with (S (Z.to_nat (i - lo))) by lia.
  simpl. replace (lo + Z.of_nat (Z.to_nat (i - lo))) with i by lia.
  by replace (Z.to_nat (i - 1 - lo + 1)) with (Z.to_nat (i - lo)) by lia.
Qed.
End run.

(** ** The matcher on the examples of its documentation

    The results are those printed in the docstrings of [Lib/difflib.py]. *)

Example doc_find_longest_match :
  find_longest_match (new_SequenceMatcher (chars " abcd") (chars "abcd abcd")) 0 5 0 9
  = Some (0, 4, 5).
Proof. vm_compute. reflexivity. Qed.

Example doc_find_longest_match_none :
  find_longest_match (new_SequenceMatcher (chars "ab") (chars "c")) 0 2 0 1
  = Some (0, 0, 0).
Proof. vm_compute. reflexivity. Qed.

Example doc_get_matching_blocks :
  get_matching_blocks (new_SequenceMatcher (chars "abxcd") (chars "abcd"))
  = Some [(0, 0, 2); (3, 2, 2); (5, 4, 0)].
Proof. vm_compute. reflexivity. Qed.

Example doc_get_opcodes :
  get_opcodes (new_SequenceMatcher (chars "qabxcd") (chars "abycdf"))
  = Some [(tag_delete, 0, 1, 0, 0); (tag_equal, 1, 3, 0, 2);
          (tag_replace, 3, 4, 2, 3); (tag_equal, 4, 6, 3, 5);
          (tag_insert, 6, 6, 5, 6)].
Proof. vm_compute. reflexivity. Qed.

Example doc_get_grouped_opcodes :
  get_grouped_opcodes (new_SequenceMatcher doc_a doc_b) 3
  = Some [[(tag_equal, 5, 8, 5, 8); (tag_insert, 8, 8, 8, 9);
           (tag_equal, 8, 11, 9, 12)];
          [(tag_equal, 16, 19, 17, 20); (tag_replace, 19, 20, 20, 21);
           (tag_equal, 20, 22, 21, 23); (tag_delete, 22, 27, 23, 23);
           (tag_equal, 27, 30, 23, 26)];
          [(tag_equal, 31, 34, 27, 30); (tag_replace, 34, 35, 30, 31);
           (tag_equal, 35, 38, 31, 34)]].
Proof. vm_compute. reflexivity. Qed.

(** One operation replaced, one line of context. *)
Example unified_diff_one_replaced :
  unified_diff [1; 2; 3; 4; 5] [1; 2; 9; 4; 5] "a.bmodel" "b.bmodel" 1 "mlir"
  = mkGenerated ["--- a.bmodel"; "+++ b.bmodel"; "@@ -2,3 +2,3 @@" +:+ LF;
                 "    2"; "-   3"; "+   9"; "    4"; ""] None.
Proof. vm_compute. reflexivity. Qed.

(** *** A sequence against itself *)

Section identical.
Context {A : Type} `{Countable A} (m : SequenceMatcher A) (lo hi : Z).
Hypothesis Hsame : sm_b m = sm_a m.
Hypothesis Hjunk : bjunk m = [].
Hypothesis Hb2j :
  ∀ x js, b2j m !! x = Some js → js = occurrences 0 x (sm_a m) ∧ js ≠ [].
Hypothesis Hspan : 0 ≤ lo ≤ hi ∧ hi ≤ Z.of_nat (length (sm_a m)).

Lemma scan_row_identical (i : Z) (prev : gmap Z Z) :
  lo ≤ i < hi → row_ok m lo (i - 1) prev →
  ∀ (rem : list Z) (best : Match) (new : gmap Z Z),
    StronglySorted Z.lt rem →
    (∀ j, j ∈ rem → keyed m j = true) →
    (rem ≠ [] → keyed m i = true) →
    (∃ bi bs, best = (bi, bi, bs) ∧ lo ≤ bi ∧ 0 ≤ bs ∧ bi + bs ≤ i + 1 ∧
              ∀ i', lo ≤ i' < i → run m lo i' ≤ bs) →
    (∀ j v, new !! j = Some v → v ≤ run m lo i ∧ (j ≤ i → v ≤ run m lo j)) →
    (i ∈ rem ∨ (run m lo i ≤ best.2 ∧ default 0 (new !! i) = run m lo i)) →
    best_ok m lo i (scan_row i lo hi prev rem best new).1 ∧
    row_ok m lo i (scan_row i lo hi prev rem best new).2.
Proof.
  intros Hi [Hprev Hdiag] rem.
  induction rem as [|j rem IH];
    intros best new Hsorted Hkeyed Hkeyi (bi & bs & -> & Hbi & Hbs & Hend & Hruns)
           Hnew Hdone; simpl in *.
  - destruct Hdone as [Hin|[Hrun Hnewi]]; [by apply elem_of_nil in Hin|].
    split; [|done].
    exists bi, bs. repeat (split; [done|]).
    intros i' Hi'. destruct (decide (i' = i)) as [->|]; [done|]. apply Hruns. lia.
  - apply StronglySorted_inv in Hsorted as [Hsorted Hgt].
    rewrite Forall_forall in Hgt.
    assert (i ∈ rem → j < i) as Hji.
    { intros Hin. by apply Hgt. }
    destruct (Z.ltb_spec j lo) as [Hjlo|Hjlo].
    { (* continue *)
      apply IH; try done.
      - intros j' Hj'. apply Hkeyed. by right.
      - intros _. by apply Hkeyi.
      - by exists bi, bs.
      - destruct Hdone as [Hin|?]; [|by right].
        apply elem_of_cons in Hin as [->|?]; [lia|by left]. }
    destruct (Z.leb_spec hi j) as [Hjhi|Hjhi].
    { (* break *)
      simpl. destruct Hdone as [Hin|[Hrun Hnewi]].
      { apply elem_of_cons in Hin as [->|Hin]; [lia|]. apply Hji in Hin. lia. }
      split; [|done].
      exists bi, bs. repeat (split; [done|]).
      intros i' Hi'. destruct (decide (i' = i)) as [->|]; [done|]. apply Hruns. lia. }
    (* an index inside the span *)
    assert (keyed m j = true) as Hkj by (apply Hkeyed; left).
    assert (keyed m i = true) as Hki by by apply Hkeyi.
    pose proof (run_step m lo j Hjlo) as Hrj. rewrite Hkj in Hrj.
    pose proof (run_step m lo i (proj1 Hi)) as Hri. rewrite Hki in Hri.
    set (k := default 0 (prev !! (j - 1)) + 1).
    assert (k ≤ run m lo i ∧ (j ≤ i → k ≤ run m lo j)) as [Hk Hkj'].
    { unfold k. destruct (prev !! (j - 1)) as [v|] eqn:Hv; simpl.
      - destruct (Hprev _ _ Hv) as [Hv1 Hv2]. split; [lia|].
        intros Hle. specialize (Hv2 ltac:(lia)). lia.
      - pose proof (run_nonneg m lo (i - 1)). pose proof (run_nonneg m lo (j - 1)).
        split; lia. }
    assert (j = i → k = run m lo i) as Hkdiag.
    { intros ->. unfold k. rewrite Hdiag. lia. }
    assert (j = i ∨ (j ≠ i ∧ i ∈ rem) ∨
            (j ≠ i ∧ run m lo i ≤ bs ∧ default 0 (new !! i) = run m lo i))
      as Hcase.
    { destruct (decide (j = i)) as [|Hne]; [by left|]. right.
      destruct Hdone as [Hin|?]; [|by right].
      left. split; [done|]. by apply elem_of_cons in Hin as [->|?]. }
    apply IH; try done.
    + intros j' Hj'. apply Hkeyed. by right.
    + (* the best block *)
      destruct (Z.ltb_spec bs k) as [Hupd|Hkeep]; simpl.
      * (* a longer block: only on the diagonal *)
        assert (j = i) as ->.
        { destruct Hcase as [?|[[Hne Hin]|(Hne & Hrun & _)]]; [done| |lia].
          apply Hji in Hin. specialize (Hkj' ltac:(lia)).
          specialize (Hruns j ltac:(lia)). lia. }
        exists (i - k + 1), k.
        pose proof (run_le m lo i ltac:(lia)). pose proof (run_nonneg m lo (i - 1)).
        specialize (Hkdiag eq_refl).
        split; [done|]. split; [lia|]. split; [lia|]. split; [lia|].
        intros i' Hi'. specialize (Hruns i' Hi'). lia.
      * by exists bi, bs.
    + (* the new table *)
      intros j' v Hv. rewrite lookup_insert in Hv. case_decide; subst.
      * injection Hv as <-. done.
      * by apply Hnew.
    + (* row i done, or still to come *)
      destruct Hcase as [->|[[Hne Hin]|(Hne & Hrun & Hnewi)]].
      * right. specialize (Hkdiag eq_refl). rewrite lookup_insert_eq. simpl.
        split; [|done].
        destruct (Z.ltb_spec bs k); simpl; lia.
      * by left.
      * right. rewrite lookup_insert_ne by done. split; [|done].
        destruct (Z.ltb_spec bs k); simpl; lia.
Qed.

Lemma keyed_occurrence (x : A) (js : list Z) (j : Z) :
  b2j m !! x = Some js → j ∈ js → keyed m j = true.
Proof.
  intros Hx Hj. destruct (Hb2j _ _ Hx) as [-> _].
  apply elem_of_occurrences in Hj as [Hj Hl]. rewrite Z.sub_0_r in Hl.
  unfold keyed. rewrite getitem_nonneg, Hl by done.
  apply bool_decide_eq_true. by rewrite Hx.
Qed.

Lemma scan_rows_identical (N : nat) :
  lo + Z.of_nat N ≤ hi →
  ∃ best j2len,
    foldl (scan_step m lo hi) (Some ((lo, lo, 0), ∅)) (seqZ lo (Z.of_nat N))
      = Some (best, j2len) ∧
    best_ok m lo (lo + Z.of_nat N - 1) best ∧
    row_ok m lo (lo + Z.of_nat N - 1) j2len.
Proof.
  induction N as [|N IH]; intros HN.
  - exists (lo, lo, 0), ∅. split; [done|]. split.
    + exists lo, 0. repeat (split; [done || lia|]). intros i' Hi'. lia.
    + split; [intros j v Hv; by rewrite lookup_empty in Hv|].
      rewrite lookup_empty. simpl. symmetry. apply run_below. lia.
  - destruct IH as (best & j2len & Hfold & Hbest & Hrow); [lia|].
    rewrite seqZ_S, foldl_app, Hfold. simpl.
    set (i := lo + Z.of_nat N) in *.
    replace (lo + Z.of_nat (S N) - 1) with i by lia.
    destruct (getitem_Some (sm_a m) i) as (x & Hget & Hl); [lia|].
    rewrite Hget. simpl.
    set (r := scan_row i lo hi j2len (default [] (b2j m !! x)) best ∅).
    exists r.1, r.2. split; [by destruct r|]. subst r.
    destruct Hbest as (bi & bs & -> & Hbi & Hbs & Hend & Hruns).
    assert (keyed m i = bool_decide (is_Some (b2j m !! x))) as Hki.
    { unfold keyed. by rewrite Hget. }
    apply (scan_row_identical i j2len).
    + lia.
    + done.
    + destruct (b2j m !! x) as [js|] eqn:Hx; simpl; [|constructor].
      destruct (Hb2j _ _ Hx) as [-> _]. apply occurrences_sorted.
    + destruct (b2j m !! x) as [js|] eqn:Hx; simpl.
      * intros j Hj. by eapply keyed_occurrence.
      * intros j Hj. by apply elem_of_nil in Hj.
    + destruct (b2j m !! x) as [js|] eqn:Hx; simpl; [|done].
      intros _. rewrite Hki. by apply bool_decide_eq_true.
    + exists bi, bs. repeat (split; [done || lia|]). intros i' Hi'. apply Hruns. lia.
    + intros j v Hv. by rewrite lookup_empty in Hv.
    + destruct (b2j m !! x) as [js|] eqn:Hx; simpl.
      * left. destruct (Hb2j _ _ Hx) as [-> _].
        apply elem_of_occurrences. split; [lia|]. by rewrite Z.sub_0_r.
      * right. rewrite lookup_empty. simpl.
        rewrite (run_step m lo i) by lia. rewrite Hki.
        rewrite bool_decide_eq_false_2 by (by intros [??]). lia.
Qed.

Lemma isbjunk_false (x : A) : isbjunk m x = false.
Proof.
  unfold isbjunk. rewrite Hjunk. apply bool_decide_eq_false. apply not_elem_of_nil.
Qed.

Lemma extend_left_identical (turns : nat) :
  ∀ bi bs, lo ≤ bi ≤ hi → Z.to_nat (bi - lo) = turns →
    extend_left turns m false lo lo (bi, bi, bs) = Some (lo, lo, bs + (bi - lo)).
Proof.
  induction turns as [|turns IH]; intros bi bs Hbi Hturns; simpl.
  - assert (bi = lo) as -> by lia. do 2 f_equal; lia.
  - assert ((lo <? bi) = true) as -> by (apply Z.ltb_lt; lia). simpl.
    destruct (getitem_Some (sm_a m) (bi - 1)) as (x & Hget & _); [lia|].
    rewrite Hsame, Hget. simpl. rewrite isbjunk_false.
    rewrite !bool_decide_eq_true_2 by done.
    rewrite (IH (bi - 1) (bs + 1)) by lia. do 2 f_equal; lia.
Qed.

Lemma extend_right_identical (turns : nat) :
  ∀ bi bs, 0 ≤ bi → 0 ≤ bs → bi + bs ≤ hi → Z.to_nat (hi - (bi + bs)) = turns →
    extend_right turns m false hi hi (bi, bi, bs) = Some (bi, bi, hi - bi).
Proof.
  induction turns as [|turns IH]; intros bi bs Hbi Hbs Hend Hturns; simpl.
  - do 2 f_equal; lia.
  - assert ((bi + bs <? hi) = true) as -> by (apply Z.ltb_lt; lia). simpl.
    destruct (getitem_Some (sm_a m) (bi + bs)) as (x & Hget & _); [lia|].
    rewrite Hsame, Hget. simpl. rewrite isbjunk_false.
    rewrite !bool_decide_eq_true_2 by done.
    rewrite (IH bi (bs + 1)) by lia. done.
Qed.

(** On a span of the diagonal the longest match is the whole span. *)
Lemma find_longest_match_identical :
  find_longest_match m lo hi lo hi = Some (lo, lo, hi - lo).
Proof.
  unfold find_longest_match, scan_rows.
  destruct (scan_rows_identical (Z.to_nat (hi - lo))) as
    (best & j2len & Hfold & (bi & bs & -> & Hbi & Hbs & Hend & _) & _); [lia|].
  rewrite Z2Nat.id in Hfold by lia. rewrite Hfold. simpl.
  rewrite (extend_left_identical _ bi bs) by lia. simpl.
  rewrite (extend_right_identical _ lo (bs + (bi - lo))) by lia. simpl.
  replace (Z.to_nat (lo - lo)) with 0%nat by lia. simpl.
  by replace (Z.to_nat (hi - (lo + (hi - lo)))) with 0%nat by lia.
Qed.
End identical.

(** One [equal] opcode, or none, gives no group when the context is not
    negative. *)
Lemma grouped_opcodes_one_equal (n : Z) (codes : list opcode) :
  0 ≤ n →
  codes = [] ∨ (∃ i1 i2 j1 j2, codes = [(tag_equal, i1, i2, j1, j2)]) →
  grouped_opcodes n codes = [].
Proof.
  intros Hn Hcodes.
  assert (∀ i1 i2 j1 j2,
            (let '(groups, group) :=
               foldl (group_step n) ([], [])
                     (fix_last n (fix_first n [(tag_equal, i1, i2, j1, j2)])) in
             match group with
             | [] => groups
             | [c] => if is_equal c then groups else groups ++ [group]
             | _ => groups ++ [group]
             end) = []) as Hone.
  { intros i1 i2 j1 j2. unfold fix_first, fix_last. simpl.
    assert ((n + n <? Z.min i2 (Z.max i1 (i2 - n) + n) - Z.max i1 (i2 - n)) = false)
      as -> by (apply Z.ltb_ge; lia).
    done. }
  unfold grouped_opcodes.
  destruct Hcodes as [->|(i1 & i2 & j1 & j2 & ->)].
  - rewrite bool_decide_eq_true_2 by done. apply Hone.
  - rewrite bool_decide_eq_false_2 by done. apply Hone.
Qed.

Section identical_diff.
Context {A : Type} `{Countable A}.

Lemma get_matching_blocks_identical (a : list A) :
  get_matching_blocks (new_SequenceMatcher a a) =
    Some (if decide (a = []) then [(0, 0, 0)]
          else [(0, 0, Z.of_nat (length a)); (Z.of_nat (length a), Z.of_nat (length a), 0)]).
Proof.
  unfold get_matching_blocks.
  rewrite new_SequenceMatcher_a, new_SequenceMatcher_b.
  set (m := new_SequenceMatcher a a). set (la := Z.of_nat (length a)).
  assert (find_longest_match m 0 la 0 la = Some (0, 0, la)) as Hflm.
  { rewrite (find_longest_match_identical m 0 la).
    - by rewrite Z.sub_0_r.
    - unfold m. by rewrite new_SequenceMatcher_a, new_SequenceMatcher_b.
    - apply new_SequenceMatcher_bjunk.
    - unfold m. rewrite new_SequenceMatcher_a, new_SequenceMatcher_b2j.
      apply chain_b_lookup.
    - unfold m, la. rewrite new_SequenceMatcher_a. lia. }
  rewrite Nat.add_1_r. cbn [matching_loop]. rewrite Hflm. simpl.
  destruct (decide (a = [])) as [->|Hne].
  - simpl. done.
  - assert (la ≠ 0) as Hla.
    { unfold la. destruct a; [done|]. simpl. lia. }
    assert ((la =? 0) = false) as -> by by apply Z.eqb_neq.
    rewrite Z.add_0_l, Z.ltb_irrefl. simpl.
    assert (collapse (sort [(0, 0, la)]) = [(0, 0, la)]) as Hcollapse.
    { unfold collapse. simpl. rewrite Z.add_0_l.
      by assert ((la =? 0) = false) as -> by by apply Z.eqb_neq. }
    destruct (length a + (length a + 0))%nat;
      cbn [matching_loop mbind option_bind]; by rewrite Hcollapse.
Qed.

Lemma get_opcodes_identical (a : list A) :
  get_opcodes (new_SequenceMatcher a a) =
    Some (if decide (a = []) then []
          else [(tag_equal, 0, Z.of_nat (length a), 0, Z.of_nat (length a))]).
Proof.
  unfold get_opcodes. rewrite get_matching_blocks_identical. simpl. f_equal.
  destruct (decide (a = [])) as [->|Hne]; [done|].
  assert (Z.of_nat (length a) ≠ 0) as Hla.
  { destruct a; [done|]. simpl. lia. }
  unfold opcodes_of. simpl. rewrite !Z.add_0_l, Z.ltb_irrefl.
  by assert ((Z.of_nat (length a) =? 0) = false) as -> by by apply Z.eqb_neq.
Qed.

Lemma get_grouped_opcodes_identical (a : list A) (n : Z) :
  0 ≤ n → get_grouped_opcodes (new_SequenceMatcher a a) n = Some [].
Proof.
  intros Hn. unfold get_grouped_opcodes. rewrite get_opcodes_identical. simpl.
  f_equal. apply grouped_opcodes_one_equal; [done|].
  destruct (decide (a = [])); [by left|]. right. by eexists _, _, _, _.
Qed.
End identical_diff.

(** The diff of a sequence with itself, when the context is not negative:
    nothing is yielded, and the only exception is that of the format. *)
Lemma unified_diff_same {A} `{Operation A} (a : list A)
    (fromfile tofile : string) (n : Z) (format : string) :
  0 ≤ n →
  unified_diff a a fromfile tofile n format =
    match fmt_op format with
    | Some _ => mkGenerated [] None
    | None => mkGenerated [] (Some (KeyError format))
    end.
Proof.
  intros Hn. unfold unified_diff. destruct (fmt_op format); [|done].
  by rewrite get_grouped_opcodes_identical.
Qed.

(** With a negative context one [equal] opcode, or none, gives one group,
    of an empty range behind the end. *)
Lemma grouped_opcodes_negative (n i2 : Z) :
  n < 0 → 0 ≤ i2 →
  grouped_opcodes n [(tag_equal, 0, i2, 0, i2)]
  = [[(tag_equal, i2 - n, i2, i2 - n, i2)]].
Proof.
  intros Hn Hi. unfold grouped_opcodes, fix_first, fix_last. simpl.
  replace (Z.max 0 (i2 - n)) with (i2 - n) by lia.
  replace (Z.min i2 (i2 - n + n)) with i2 by lia.
  assert ((n + n <? i2 - (i2 - n)) = true) as -> by (apply Z.ltb_lt; lia).
  simpl. replace (Z.max (i2 - n) (i2 - n)) with (i2 - n) by lia.
  by replace (Z.min i2 (i2 - n + n)) with i2 by lia.
Qed.

Lemma slice_behind {A} (l : list A) (i1 i2 : Z) :
  Z.of_nat (length l) ≤ i1 → 0 ≤ i2 → slice l i1 i2 = [].
Proof.
  intros H1 H2. unfold slice, slice_bound.
  assert ((i1 <? 0) = false) as -> by (apply Z.ltb_ge; lia).
  assert ((i2 <? 0) = false) as -> by (apply Z.ltb_ge; lia).
  replace (Z.to_nat (Z.min i2 (Z.of_nat (length l)) - Z.min i1 (Z.of_nat (length l))))
    with 0%nat by lia.
  done.
Qed.

(** The diff of a sequence with itself when the context is negative: the
    two file headers, the header of a hunk without lines, and the closing
    empty string. *)
Lemma unified_diff_same_negative {A} `{Operation A} (a : list A)
    (fromfile tofile : string) (n : Z) (format : string) :
  n < 0 → is_Some (fmt_op format) →
  let last := if decide (a = []) then 1 else Z.of_nat (length a) in
  let range := pretty (last - n + 1) +:+ "," +:+ pretty n in
  unified_diff a a fromfile tofile n format
  = mkGenerated ["--- " +:+ fromfile; "+++ " +:+ tofile;
                 "@@ -" +:+ range +:+ " +" +:+ range +:+ " @@" +:+ LF; ""] None.
Proof.
  intros Hn [fmt Hfmt] last range. unfold unified_diff. rewrite Hfmt.
  unfold get_grouped_opcodes. rewrite get_opcodes_identical.
  cbn [fmap option_fmap option_map].
  match goal with
  | |- context [grouped_opcodes n ?codes] =>
      assert (grouped_opcodes n codes
              = [[(tag_equal, last - n, last, last - n, last)]] ∧
              Z.of_nat (length a) ≤ last - n ∧ 0 ≤ last) as (-> & Hlast & Hlast0)
  end.
  { unfold range, last. clear range last. destruct a as [|x a].
    - split; [|simpl; lia].
      change (grouped_opcodes n [(tag_equal, 0, 1, 0, 1)]
              = [[(tag_equal, 1 - n, 1, 1 - n, 1)]]).
      apply grouped_opcodes_negative; lia.
    - split; [|simpl; lia].
      change (grouped_opcodes n
                [(tag_equal, 0, Z.of_nat (length (x :: a)), 0, Z.of_nat (length (x :: a)))]
              = [[(tag_equal, Z.of_nat (length (x :: a)) - n, Z.of_nat (length (x :: a)),
                   Z.of_nat (length (x :: a)) - n, Z.of_nat (length (x :: a)))]]).
      apply grouped_opcodes_negative; lia. }
  cbn [foldl diff_step raised yielded snd]. unfold group_lines.
  cbn [head last list.last fst snd opcode_lines fmap list_fmap concat app].
  rewrite bool_decide_eq_true_2 by done.
  rewrite slice_behind by done.
  unfold format_range_unified.
  replace (last - (last - n)) with n by lia.
  assert ((n =? 1) = false) as -> by (apply Z.eqb_neq; lia).
  assert ((n =? 0) = false) as -> by (apply Z.eqb_neq; lia).
  done.
Qed.

(** C1 (amended).  With a number of context lines that is not negative,
    [unified_diff] of a sequence with itself yields nothing, neither file
    headers nor hunk headers nor lines, whatever the format; with one of
    the three formats of [fmt_op] it ends without an exception; and so the
    diff of each subgraph of a decoded stream with itself is empty. *)
Theorem unified_diff_identical {A} `{Operation A} (a : list A)
    (fromfile tofile : string) (n : Z) (format : string) :
  0 ≤ n →
  yielded (unified_diff a a fromfile tofile n format) = [] ∧
  (format = "raw" ∨ format = "mlir" ∨ format = "bits" →
   unified_diff a a fromfile tofile n format = mkGenerated [] None) ∧
  (∀ cmd : list (list Z * list A),
     Forall (λ p, yielded (unified_diff p.1.2 p.2.2 fromfile tofile n format) = [])
            (zip cmd cmd)).
Proof.
  intros Hn. split; [|split].
  - rewrite unified_diff_same by done. by destruct (fmt_op format).
  - intros Hformat. rewrite unified_diff_same by done.
    by destruct Hformat as [->|[->| ->]].
  - intros cmd. apply Forall_forall. intros [[idx ops] [idx' ops']] Hin.
    apply list_elem_of_lookup in Hin as [i Hi].
    apply lookup_zip_with_Some in Hi as (x & y & [= <- <-] & Hx & Hy).
    rewrite Hx in Hy. injection Hy as <- <-. simpl.
    rewrite unified_diff_same by done. by destruct (fmt_op format).
Qed.

(** *** The turns of the [while] loops are enough

    More turns than the distance to the end of the span change nothing:
    the loops of the model stop where those of the matcher do. *)

Section turns.
Context {A : Type} `{Countable A} (m : SequenceMatcher A).

Lemma extend_left_turns (junk : bool) (alo blo : Z) (turns : nat) :
  ∀ (best : Match) (more : nat),
    (Z.to_nat (best.1.1 - alo) ≤ turns)%nat →
    extend_left (turns + more) m junk alo blo best
    = extend_left turns m junk alo blo best.
Proof.
  induction turns as [|turns IH]; intros [[bi bj] bs] more Hturns; simpl in *.
  - destruct more as [|more]; simpl; [done|].
    by assert ((alo <? bi) = false) as -> by (apply Z.ltb_ge; lia).
  - destruct ((alo <? bi) && (blo <? bj)) eqn:Hguard; [|done].
    destruct (getitem (sm_b m) (bj - 1)) as [y|]; simpl; [|done].
    case_bool_decide; [|done].
    destruct (getitem (sm_a m) (bi - 1)) as [x|]; simpl; [|done].
    case_bool_decide; [|done].
    apply IH. simpl. lia.
Qed.

Lemma extend_right_turns (junk : bool) (ahi bhi : Z) (turns : nat) :
  ∀ (best : Match) (more : nat),
    (Z.to_nat (ahi - (best.1.1 + best.2)) ≤ turns)%nat →
    extend_right (turns + more) m junk ahi bhi best
    = extend_right turns m junk ahi bhi best.
Proof.
  induction turns as [|turns IH]; intros [[bi bj] bs] more Hturns; simpl in *.
  - destruct more as [|more]; simpl; [done|].
    by assert ((bi + bs <? ahi) = false) as -> by (apply Z.ltb_ge; lia).
  - destruct ((bi + bs <? ahi) && (bj + bs <? bhi)) eqn:Hguard; [|done].
    destruct (getitem (sm_b m) (bj + bs)) as [y|]; simpl; [|done].
    case_bool_decide; [|done].
    destruct (getitem (sm_a m) (bi + bs)) as [x|]; simpl; [|done].
    case_bool_decide; [|done].
    apply IH. simpl. lia.
Qed.

Lemma matching_loop_turns (turns : nat) :
  ∀ (queue : list span) (matching_blocks blocks : list Match) (more : nat),
    matching_loop turns m queue matching_blocks = Some blocks →
    matching_loop (turns + more) m queue matching_blocks = Some blocks.
Proof.
  induction turns as [|turns IH]; intros queue acc blocks more Hloop.
  - destruct queue as [|[[[alo ahi] blo] bhi] queue]; simpl in *; [|done].
    by destruct more.
  - destruct queue as [|[[[alo ahi] blo] bhi] queue]; simpl in *; [done|].
    destruct (find_longest_match m alo ahi blo bhi) as [[[i j] k]|]; simpl in *; [|done].
    destruct (k =? 0); by apply IH.
Qed.
End turns.

(** *** Any two sequences: the matcher returns *)

Section total.
Context {A : Type} `{Countable A} (m : SequenceMatcher A).

Lemma scan_row_bounds (i alo blo bhi : Z) (prev : gmap Z Z) :
  alo ≤ i → table_in alo blo (i - 1) prev →
  ∀ (js : list Z) (best : Match) (new : gmap Z Z),
    block_in best (alo, i + 1, blo, bhi) → table_in alo blo i new →
    block_in (scan_row i blo bhi prev js best new).1 (alo, i + 1, blo, bhi) ∧
    table_in alo blo i (scan_row i blo bhi prev js best new).2.
Proof.
  intros Hi Hprev js.
  induction js as [|j js IH]; intros best new Hbest Hnew; simpl; [done|].
  destruct (Z.ltb_spec j blo) as [Hjlo|Hjlo]; [by apply IH|].
  destruct (Z.leb_spec bhi j) as [Hjhi|Hjhi]; [done|].
  set (k := default 0 (prev !! (j - 1)) + 1).
  assert (k ≤ i - alo + 1 ∧ k ≤ j - blo + 1) as [Hk1 Hk2].
  { unfold k. destruct (prev !! (j - 1)) as [v|] eqn:Hv; simpl; [|lia].
    destruct (Hprev _ _ Hv). lia. }
  apply IH.
  - destruct best as [[bi bj] bs]. simpl.
    destruct (Z.ltb_spec bs k) as [Hupd|]; [|done].
    simpl in Hbest. simpl. lia.
  - intros j' v Hv. rewrite lookup_insert in Hv. case_decide; subst.
    + injection Hv as <-. done.
    + by apply Hnew.
Qed.

Lemma scan_rows_bounds (alo ahi blo bhi : Z) (N : nat) :
  0 ≤ alo → alo + Z.of_nat N ≤ Z.of_nat (length (sm_a m)) → blo ≤ bhi →
  ∃ best j2len,
    foldl (scan_step m blo bhi) (Some ((alo, blo, 0), ∅)) (seqZ alo (Z.of_nat N))
      = Some (best, j2len) ∧
    block_in best (alo, alo + Z.of_nat N, blo, bhi) ∧
    table_in alo blo (alo + Z.of_nat N - 1) j2len.
Proof.
  intros Halo HN Hb. induction N as [|N IH].
  - exists (alo, blo, 0), ∅. split; [done|]. split; [simpl; lia|].
    intros j v Hv. by rewrite lookup_empty in Hv.
  - destruct IH as (best & j2len & Hfold & Hbest & Htable); [lia|].
    rewrite seqZ_S, foldl_app, Hfold. simpl.
    set (i := alo + Z.of_nat N) in *.
    destruct (getitem_Some (sm_a m) i) as (x & Hget & _); [lia|].
    rewrite Hget. simpl.
    set (r := scan_row i blo bhi j2len (default [] (b2j m !! x)) best ∅).
    exists r.1, r.2. split; [by destruct r|]. subst r.
    replace (alo + Z.of_nat (S N)) with (i + 1) by lia.
    replace (i + 1 - 1) with i by lia.
    apply scan_row_bounds.
    + lia.
    + done.
    + destruct best as [[bi bj] bs]. simpl in *. lia.
    + intros j v Hv. by rewrite lookup_empty in Hv.
Qed.

Lemma extend_left_bounds (junk : bool) (s : span) (turns : nat) :
  valid_span m s →
  ∀ best, block_in best s →
    ∃ best', extend_left turns m junk s.1.1.1 s.1.2 best = Some best' ∧
             block_in best' s.
Proof.
  destruct s as [[[alo ahi] blo] bhi]. intros Hs. simpl in Hs.
  induction turns as [|turns IH]; intros [[bi bj] bs] Hbest; simpl; [eauto|].
  simpl in Hbest.
  destruct (Z.ltb_spec alo bi) as [Hbi|]; [|eauto].
  destruct (Z.ltb_spec blo bj) as [Hbj|]; [|eauto]. simpl.
  destruct (getitem_Some (sm_b m) (bj - 1)) as (y & -> & _); [lia|]. simpl.
  case_bool_decide; [|eauto].
  destruct (getitem_Some (sm_a m) (bi - 1)) as (x & -> & _); [lia|]. simpl.
  case_bool_decide; [|eauto].
  apply IH. simpl. lia.
Qed.

Lemma extend_right_bounds (junk : bool) (s : span) (turns : nat) :
  valid_span m s →
  ∀ best, block_in best s →
    ∃ best', extend_right turns m junk s.1.1.2 s.2 best = Some best' ∧
             block_in best' s.
Proof.
  destruct s as [[[alo ahi] blo] bhi]. intros Hs. simpl in Hs.
  induction turns as [|turns IH]; intros [[bi bj] bs] Hbest; simpl; [eauto|].
  simpl in Hbest.
  destruct (Z.ltb_spec (bi + bs) ahi) as [Hbi|]; [|eauto].
  destruct (Z.ltb_spec (bj + bs) bhi) as [Hbj|]; [|eauto]. simpl.
  destruct (getitem_Some (sm_b m) (bj + bs)) as (y & -> & _); [lia|]. simpl.
  case_bool_decide; [|eauto].
  destruct (getitem_Some (sm_a m) (bi + bs)) as (x & -> & _); [lia|]. simpl.
  case_bool_decide; [|eauto].
  apply IH. simpl. lia.
Qed.

(** [find_longest_match] returns a block inside the span it is given. *)
Lemma find_longest_match_returns (alo ahi blo bhi : Z) :
  valid_span m (alo, ahi, blo, bhi) →
  ∃ x, find_longest_match m alo ahi blo bhi = Some x ∧
       block_in x (alo, ahi, blo, bhi).
Proof.
  intros Hs. pose proof Hs as Hs'. simpl in Hs'.
  unfold find_longest_match, scan_rows.
  destruct (scan_rows_bounds alo ahi blo bhi (Z.to_nat (ahi - alo)))
    as (best & j2len & Hfold & Hbest & _); [lia..|].
  rewrite Z2Nat.id in Hfold by lia. rewrite Hfold. simpl.
  replace (alo + Z.of_nat (Z.to_nat (ahi - alo))) with ahi in Hbest by lia.
  destruct (extend_left_bounds false _ (Z.to_nat (best.1.1 - alo)) Hs best Hbest)
    as (best1 & Heq1 & Hbest1). simpl in Heq1. rewrite Heq1. simpl.
  destruct (extend_right_bounds false _ (Z.to_nat (ahi - (best1.1.1 + best1.2))) Hs
              best1 Hbest1) as (best2 & Heq2 & Hbest2).
  simpl in Heq2. rewrite Heq2. simpl.
  destruct (extend_left_bounds true _ (Z.to_nat (best2.1.1 - alo)) Hs best2 Hbest2)
    as (best3 & Heq3 & Hbest3). simpl in Heq3. rewrite Heq3. simpl.
  apply (extend_right_bounds true _ _ Hs best3 Hbest3).
Qed.

Lemma queue_weight_nonneg (queue : list span) :
  Forall (valid_span m) queue → 0 ≤ queue_weight queue.
Proof.
  induction 1 as [|[[[alo ahi] blo] bhi] queue Hs _ IH]; simpl in *; lia.
Qed.

(** With as many turns as the weight of the queue, the loop ends. *)
Lemma matching_loop_returns (turns : nat) :
  ∀ (queue : list span) (matching_blocks : list Match),
    Forall (valid_span m) queue → queue_weight queue ≤ Z.of_nat turns →
    ∃ blocks, matching_loop turns m queue matching_blocks = Some blocks.
Proof.
  induction turns as [|turns IH]; intros queue acc Hvalid Hweight.
  - destruct queue as [|[[[alo ahi] blo] bhi] queue]; simpl; [eauto|].
    inversion Hvalid as [|?? Hs Hq]; subst.
    pose proof (queue_weight_nonneg _ Hq). simpl in *. lia.
  - destruct queue as [|[[[alo ahi] blo] bhi] queue]; simpl; [eauto|].
    inversion Hvalid as [|?? Hs Hq]; subst.
    pose proof (queue_weight_nonneg _ Hq) as Hq0.
    destruct (find_longest_match_returns alo ahi blo bhi Hs)
      as ([[i j] k] & -> & Hx).
    simpl in *.
    destruct (Z.eqb_spec k 0) as [->|Hk].
    + apply IH; [done|lia].
    + apply IH.
      * destruct ((alo <? i) && (blo <? j)), ((i + k <? ahi) && (j + k <? bhi));
          repeat constructor; simpl; try done; lia.
      * destruct ((alo <? i) && (blo <? j)), ((i + k <? ahi) && (j + k <? bhi));
          simpl; lia.
Qed.

End total.

Lemma get_matching_blocks_returns {A} `{Countable A} (m : SequenceMatcher A) :
  ∃ blocks, get_matching_blocks m = Some blocks.
Proof.
  unfold get_matching_blocks.
  destruct (matching_loop_returns m (2 * length (sm_a m) + 1)
              [(0, Z.of_nat (length (sm_a m)), 0, Z.of_nat (length (sm_b m)))] [])
    as [blocks ->]; [|simpl; lia|simpl; eauto].
  repeat constructor; lia.
Qed.

(** No group is empty. *)
Lemma grouped_opcodes_nonempty (n : Z) (codes : list opcode) :
  Forall (λ group, group ≠ []) (grouped_opcodes n codes).
Proof.
  unfold grouped_opcodes. cbv zeta.
  set (codes' := fix_last n _). clearbody codes'.
  assert (∀ groups group,
            Forall (λ group, group ≠ []) groups →
            Forall (λ group, group ≠ [])
              (foldl (group_step n) (groups, group) codes').1) as Hfold.
  { induction codes' as [|[[[[tag i1] i2] j1] j2] codes' IH]; intros groups group Hg;
      simpl; [done|].
    destruct (bool_decide (tag = tag_equal) && (n + n <? i2 - i1)); apply IH; [|done].
    apply Forall_app. split; [done|]. constructor; [|done].
    by destruct group. }
  specialize (Hfold [] [] (Forall_nil_2 _)).
  destruct (foldl _ _ codes') as [groups group]. simpl in Hfold.
  destruct group as [|c [|c' group]]; [done| |].
  - destruct (is_equal c); [done|]. apply Forall_app. split; [done|]. by constructor.
  - apply Forall_app. split; [done|]. by constructor.
Qed.

Section diff_returns.
Context {A : Type} `{Operation A}.

Lemma get_grouped_opcodes_returns (m : SequenceMatcher A) (n : Z) :
  ∃ groups, get_grouped_opcodes m n = Some groups ∧
            Forall (λ group, group ≠ []) groups.
Proof.
  unfold get_grouped_opcodes, get_opcodes.
  destruct (get_matching_blocks_returns m) as [blocks ->]. simpl.
  eexists. split; [done|]. apply grouped_opcodes_nonempty.
Qed.

Lemma group_lines_raised (fmt : A → string) (a b : list A)
    (fromfile tofile : string) (started : bool) (group : list opcode) :
  group ≠ [] → raised (group_lines fmt a b fromfile tofile started group) = None.
Proof.
  intros Hne. unfold group_lines.
  destruct group as [|c group]; [done|]. simpl.
  by destruct (last (c :: group)) eqn:Hlast; [|by apply last_None in Hlast].
Qed.

(** The only exception of [unified_diff] is the [KeyError] of a format that
    is not in [fmt_op]. *)
Lemma unified_diff_raised (a b : list A) (fromfile tofile : string) (n : Z)
    (format : string) :
  unified_diff a b fromfile tofile n format =
    match fmt_op format with
    | Some _ => mkGenerated (yielded (unified_diff a b fromfile tofile n format)) None
    | None => mkGenerated [] (Some (KeyError format))
    end.
Proof.
  unfold unified_diff. destruct (fmt_op format) as [fmt|]; [|done].
  destruct (get_grouped_opcodes_returns (new_SequenceMatcher a b) n)
    as (groups & -> & Hne).
  assert (∀ started yielded0,
            raised (foldl (diff_step fmt a b fromfile tofile)
                          (started, mkGenerated yielded0 None) groups).2 = None)
    as Hfold.
  { induction Hne as [|group groups Hgroup _ IH]; intros started yielded0; simpl; [done|].
    rewrite group_lines_raised by done. apply IH. }
  specialize (Hfold false []).
  destruct (foldl _ _ groups) as [started [ys r]]. simpl in *. by subst.
Qed.
End diff_returns.

(** ** The two-file comparison *)

Section compare.
Context {A : Type} `{Operation A}.
Implicit Types (pairs : list ((list Z * list A) * (list Z * list A))).

(** One turn of the loop of [__main] over the pairs, and the whole loop,
    from a state without exception. *)
Lemma compare_step_valid (bmodels0 bmodels1 : string) (N : Z) (format : string)
    (out : list string) (is_same : bool)
    (pair : (list Z * list A) * (list Z * list A)) :
  is_Some (fmt_op format) →
  compare_step bmodels0 bmodels1 N format (out, is_same, None) pair
  = (out ++ diff_blocks bmodels0 bmodels1 N format [pair],
     is_same && bool_decide (diff_blocks bmodels0 bmodels1 N format [pair] = []),
     None).
Proof.
  intros [fmt Hfmt]. destruct pair as [[idx ops_a] [idx' ops_b]].
  unfold compare_step, diff_blocks. cbn [omap list_omap fst snd].
  rewrite (unified_diff_raised ops_a ops_b), Hfmt. cbn [raised yielded].
  case_bool_decide as Hne; simpl.
  - by rewrite andb_false_r.
  - by rewrite app_nil_r, andb_true_r.
Qed.

Lemma compare_loop_valid (bmodels0 bmodels1 : string) (N : Z) (format : string) pairs :
  is_Some (fmt_op format) →
  ∀ out is_same,
    foldl (compare_step bmodels0 bmodels1 N format) (out, is_same, None) pairs
    = (out ++ diff_blocks bmodels0 bmodels1 N format pairs,
       is_same && bool_decide (diff_blocks bmodels0 bmodels1 N format pairs = []),
       None).
Proof.
  intros Hfmt.
  induction pairs as [|pair pairs IH]; intros out is_same.
  - simpl. by rewrite app_nil_r, andb_true_r.
  - cbn [foldl]. rewrite compare_step_valid, IH by done.
    rewrite <-app_assoc, <-andb_assoc.
    assert (diff_blocks bmodels0 bmodels1 N format (pair :: pairs)
            = diff_blocks bmodels0 bmodels1 N format [pair]
              ++ diff_blocks bmodels0 bmodels1 N format pairs) as ->.
    { change (pair :: pairs) with ([pair] ++ pairs).
      unfold diff_blocks. by rewrite omap_app. }
    do 3 f_equal.
    destruct (diff_blocks bmodels0 bmodels1 N format [pair]); [|done].
    simpl. by case_bool_decide.
Qed.

Lemma main_compare_valid (bmodels0 bmodels1 : string) (N : Z) (format : string)
    (cmd_a cmd_b : list (list Z * list A)) :
  is_Some (fmt_op format) →
  main_compare bmodels0 bmodels1 N format cmd_a cmd_b =
    if bool_decide (diff_blocks bmodels0 bmodels1 N format (zip cmd_a cmd_b) = [])
    then mkOutcome [same_message bmodels0 bmodels1] (Ok 0)
    else mkOutcome (diff_blocks bmodels0 bmodels1 N format (zip cmd_a cmd_b)) (Ok 1).
Proof.
  intros Hfmt. unfold main_compare. rewrite compare_loop_valid by done. simpl.
  case_bool_decide as Hblocks; [|done]. by rewrite Hblocks.
Qed.

Lemma diff_blocks_nil (bmodels0 bmodels1 : string) (N : Z) (format : string) pairs :
  diff_blocks bmodels0 bmodels1 N format pairs = [] ↔
  Forall (λ pair, yielded (unified_diff pair.1.2 pair.2.2 bmodels0 bmodels1 N format) = [])
         pairs.
Proof.
  induction pairs as [|pair pairs IH]; simpl.
  - split; [constructor|done].
  - rewrite Forall_cons, <-IH. case_bool_decide as Hne.
    + split; [done|]. intros [Hy _]. by rewrite Hy in Hne.
    + split; [|intros [_ Hb]; exact Hb]. intros Hb. split; [|exact Hb].
      by apply fmap_nil_inv in Hne.
Qed.
(** A container against itself, with a context that is not negative and a
    format of [fmt_op]: the files are reported to be the same. *)
Lemma main_compare_identical (bmodels0 bmodels1 : string) (N : Z) (format : string)
    (cmd : list (list Z * list A)) :
  0 ≤ N → is_Some (fmt_op format) →
  main_compare bmodels0 bmodels1 N format cmd cmd
  = mkOutcome [same_message bmodels0 bmodels1] (Ok 0).
Proof.
  intros HN Hfmt. rewrite main_compare_valid by done.
  rewrite bool_decide_eq_true_2; [done|].
  apply diff_blocks_nil, Forall_forall. intros [[idx ops] [idx' ops']] Hin.
  apply list_elem_of_lookup in Hin as [i Hi].
  apply lookup_zip_with_Some in Hi as (x & y & [= <- <-] & Hx & Hy).
  rewrite Hx in Hy. injection Hy as <- <-. simpl.
  rewrite unified_diff_same by done. by destruct Hfmt as [fmt ->].
Qed.
End compare.

(** [l[:-1]] is [l] without its last element. *)
Lemma slice_drop_last {X} (l : list X) : slice l 0 (-1) = take (length l - 1) l.
Proof.
  unfold slice, slice_bound. cbn [Z.ltb Z.compare].
  rewrite Z.min_l by lia. change (Z.to_nat 0) with 0%nat. rewrite drop_0.
  f_equal. lia.
Qed.

(** ["".join(l)], by the library's [String.concat]. *)
Lemma string_app_nil_r (s : string) : s +:+ EmptyString = s.
Proof.
  induction s as [|c s IH]; [done|].
  change (String c s +:+ EmptyString) with (String c (s +:+ EmptyString)).
  by rewrite IH.
Qed.

Lemma string_app_assoc (s t u : string) : (s +:+ t) +:+ u = s +:+ (t +:+ u).
Proof.
  induction s as [|c s IH]; [done|].
  change ((String c s +:+ t) +:+ u) with (String c ((s +:+ t) +:+ u)).
  by rewrite IH.
Qed.

Lemma join_concat (l : list string) : join l = String.concat EmptyString l.
Proof.
  induction l as [|x l IH]; [done|].
  change (join (x :: l)) with (x +:+ join l). rewrite IH.
  destruct l as [|y l]; [exact (string_app_nil_r x)|done].
Qed.

(** The blocks of the comparison, as text. *)
Lemma diff_blocks_text {A} `{Operation A} (bmodels0 bmodels1 : string) (N : Z)
    (format : string) (pairs : list ((list Z * list A) * (list Z * list A))) :
  diff_blocks bmodels0 bmodels1 N format pairs =
    omap (λ pair,
            let d := yielded (unified_diff pair.1.2 pair.2.2 bmodels0 bmodels1 N format) in
            if bool_decide (d = []) then None
            else Some ("func.func @graph"
                       +:+ String.concat EmptyString (pretty <$> pair.1.1)
                       +:+ "() {"
                       +:+ String.concat EmptyString
                             ((λ x, String "010" x) <$> take (length d - 1) d)
                       +:+ String "010" "}"))
         pairs.
Proof.
  unfold diff_blocks. induction pairs as [|pair pairs IH]; [done|].
  cbn [omap list_omap]. rewrite IH. cbv zeta.
  destruct (yielded (unified_diff pair.1.2 pair.2.2 bmodels0 bmodels1 N format))
    as [|x d] eqn:Hd; [done|].
  rewrite bool_decide_eq_true_2 by done. rewrite bool_decide_eq_false_2 by done.
  unfold func_block, fun_name. rewrite slice_drop_last, length_fmap, <-fmap_take.
  rewrite !join_concat, !string_app_assoc. reflexivity.
Qed.

(** C2 (amended).  With two container paths and a format that
    [unified_diff] has a formatter for: if the diff of every pair of
    subgraphs yields nothing, the tool prints ["<path>" and "<path>" are
    the same!] and exits with status 0; if the diff of some pair yields
    something, the tool prints, in order, one block [func.func @graph<index
    path>() {<lines>}] for each pair whose diff is not empty, with every
    line of the diff but the closing empty one after a line feed, and exits
    with status 1. *)
Theorem main_compare_verdict {A} `{Operation A} (bmodels0 bmodels1 : string)
    (N : Z) (format : string) (cmd_a cmd_b : list (list Z * list A)) :
  is_Some (fmt_op format) →
  (Forall (λ pair, yielded (unified_diff pair.1.2 pair.2.2 bmodels0 bmodels1 N format)
                   = []) (zip cmd_a cmd_b) →
   main_compare bmodels0 bmodels1 N format cmd_a cmd_b
   = mkOutcome [String "034" bmodels0 +:+ String "034" " and "
                +:+ String "034" bmodels1 +:+ String "034" " are the same!"]
               (Ok 0)) ∧
  (Exists (λ pair, yielded (unified_diff pair.1.2 pair.2.2 bmodels0 bmodels1 N format)
                   ≠ []) (zip cmd_a cmd_b) →
   ∃ blocks,
     blocks ≠ [] ∧
     main_compare bmodels0 bmodels1 N format cmd_a cmd_b = mkOutcome blocks (Ok 1) ∧
     blocks =
       omap (λ pair,
               let d := yielded (unified_diff pair.1.2 pair.2.2
                                   bmodels0 bmodels1 N format) in
               if bool_decide (d = []) then None
               else Some ("func.func @graph"
                          +:+ String.concat EmptyString (pretty <$> pair.1.1)
                          +:+ "() {"
                          +:+ String.concat EmptyString
                                ((λ x, String "010" x) <$> take (length d - 1) d)
                          +:+ String "010" "}"))
            (zip cmd_a cmd_b)).
Proof.
  intros Hfmt. rewrite main_compare_valid by done. split.
  - intros Hall. rewrite bool_decide_eq_true_2 by by apply diff_blocks_nil.
    reflexivity.
  - intros Hsome.
    assert (diff_blocks bmodels0 bmodels1 N format (zip cmd_a cmd_b) ≠ []) as Hblocks.
    { rewrite diff_blocks_nil. intros Hall.
      apply Exists_exists in Hsome as (pair & Hin & Hpair).
      rewrite Forall_forall in Hall. by apply Hpair, Hall. }
    rewrite bool_decide_eq_false_2 by done.
    exists (diff_blocks bmodels0 bmodels1 N format (zip cmd_a cmd_b)).
    split; [done|]. split; [done|]. apply diff_blocks_text.
Qed.

Lemma zip_surplus_l {X Y} (l : list X) (k : list Y) (surplus : list X) :
  length l = length k → zip (l ++ surplus) k = zip l k.
Proof.
  revert k. induction l as [|x l IH]; intros [|y k] Hlen; simpl in *; try done.
  - by destruct surplus.
  - f_equal. apply IH. lia.
Qed.

Lemma zip_surplus_r {X Y} (l : list X) (k : list Y) (surplus : list Y) :
  length l = length k → zip l (k ++ surplus) = zip l k.
Proof.
  revert k. induction l as [|x l IH]; intros [|y k] Hlen; simpl in *; try done.
  f_equal. apply IH. lia.
Qed.

Lemma zip_take_min {X Y} (l : list X) (k : list Y) :
  zip (take (length l `min` length k) l) (take (length l `min` length k) k) = zip l k.
Proof.
  revert k. induction l as [|x l IH]; intros [|y k]; simpl; try done.
  f_equal. apply IH.
Qed.

(** C9.  The two-file comparison diffs exactly the first
    [min(len(a), len(b))] pairs: its outcome is the outcome on the two
    streams cut to that length, and whatever subgraphs follow in the longer
    stream, output and exit status are the same. *)
Theorem main_compare_truncates {A} `{Operation A} (bmodels0 bmodels1 : string)
    (N : Z) (format : string) (cmd_a cmd_b : list (list Z * list A)) :
  let k := (length cmd_a `min` length cmd_b)%nat in
  length (zip cmd_a cmd_b) = k ∧
  main_compare bmodels0 bmodels1 N format cmd_a cmd_b
  = main_compare bmodels0 bmodels1 N format (take k cmd_a) (take k cmd_b) ∧
  ∀ surplus,
    main_compare bmodels0 bmodels1 N format (take k cmd_a ++ surplus) (take k cmd_b)
    = main_compare bmodels0 bmodels1 N format cmd_a cmd_b ∧
    main_compare bmodels0 bmodels1 N format (take k cmd_a) (take k cmd_b ++ surplus)
    = main_compare bmodels0 bmodels1 N format cmd_a cmd_b.
Proof.
  intros k. split; [apply length_zip_with|].
  assert (length (take k cmd_a) = length (take k cmd_b)) as Hlen.
  { rewrite !length_take. unfold k. lia. }
  pose proof (zip_take_min cmd_a cmd_b) as Hzip. fold k in Hzip.
  unfold main_compare. split; [|intros surplus; split].
  - by rewrite Hzip.
  - by rewrite zip_surplus_l, Hzip.
  - by rewrite zip_surplus_r, Hzip.
Qed.

Lemma unified_diff_identical_witness :
  unified_diff [1; 2; 3] [1; 2; 3] "a.bmodel" "b.bmodel" 3 "mlir"
  = mkGenerated [] None.
Proof.
  apply (unified_diff_identical [1; 2; 3] "a.bmodel" "b.bmodel" 3 "mlir").
  - lia.
  - right. left. reflexivity.
Defined.

(** C1, as stated, fails for a negative number of context lines, which
    [--N] accepts: the diff of a sequence with itself then yields the two
    file headers, a hunk header and the closing empty line. *)
Lemma unified_diff_negative_context_counterexample :
  unified_diff [1; 2; 3] [1; 2; 3] "a.bmodel" "b.bmodel" (-1) "mlir"
  = mkGenerated ["--- a.bmodel"; "+++ b.bmodel"; "@@ -5,-1 +5,-1 @@" +:+ LF; ""]
                None.
Proof. vm_compute. reflexivity. Qed.

Lemma main_compare_verdict_witness :
  main_compare "a.bmodel" "b.bmodel" 3 "mlir" example_stream_a example_stream_a
  = mkOutcome [String "034" "a.bmodel" +:+ String "034" " and "
               +:+ String "034" "b.bmodel" +:+ String "034" " are the same!"]
              (Ok 0) ∧
  ∃ blocks,
    blocks ≠ [] ∧
    main_compare "a.bmodel" "b.bmodel" 3 "mlir" example_stream_a example_stream_b
    = mkOutcome blocks (Ok 1) ∧
    blocks =
      ["func.func @graph0() {" +:+ LF +:+ "--- a.bmodel" +:+ LF +:+ "+++ b.bmodel"
       +:+ LF +:+ "@@ -1,5 +1,5 @@" +:+ LF +:+ LF +:+ "    1" +:+ LF +:+ "    2"
       +:+ LF +:+ "-   3" +:+ LF +:+ "+   9" +:+ LF +:+ "    4" +:+ LF +:+ "    5"
       +:+ LF +:+ "}"].
Proof.
  split.
  - apply (main_compare_verdict "a.bmodel" "b.bmodel" 3 "mlir"
             example_stream_a example_stream_a).
    + by eexists.
    + repeat constructor.
  - destruct (proj2 (main_compare_verdict "a.bmodel" "b.bmodel" 3 "mlir"
                       example_stream_a example_stream_b (mk_is_Some _ _ eq_refl)))
      as (blocks & Hne & Hrun & Hblocks).
    + apply Exists_cons_hd. vm_compute. discriminate.
    + exists blocks. split; [exact Hne|]. split; [exact Hrun|].
      rewrite Hblocks. vm_compute. reflexivity.
Defined.

(** C2, as stated, fails for [--format reg] and [--format bin], which the
    command line takes and [unified_diff] has no formatter for: the diff of
    every pair then yields nothing, and the tool neither prints that the
    files are the same nor exits with status 0; it ends with the
    [KeyError] of the first pair. *)
Lemma main_compare_format_counterexample :
  Forall (λ pair, yielded (unified_diff pair.1.2 pair.2.2 "a.bmodel" "a.bmodel" 3 "reg")
                  = []) (zip example_stream_a example_stream_a) ∧
  main_compare "a.bmodel" "a.bmodel" 3 "reg" example_stream_a example_stream_a
  = mkOutcome [] (Raise (KeyError "reg")) ∧
  (example_main (mkArgs ["a.bmodel"; "a.bmodel"] "bin" 3) example_world_bmodels).1
  = ([], Uncaught (KeyError "bin")).
Proof.
  split; [repeat constructor|]. split; reflexivity.
Qed.

(** The streams of the examples, and the same with a third subgraph in the
    first container. *)
Example main_compare_surplus :
  main_compare "a.bmodel" "b.bmodel" 3 "mlir"
    (example_stream_a ++ example_surplus) example_stream_b
  = main_compare "a.bmodel" "b.bmodel" 3 "mlir" example_stream_a example_stream_b.
Proof. reflexivity. Qed.

(** ** Binary export: any container *)

Lemma do_writes_lookup (l : list (string * list Byte.byte)) (w : World) (path : string) :
  files (do_writes l w) !! path =
    match last (filter (λ pd, pd.1 = path) l) with
    | Some pd => Some pd.2
    | None => files w !! path
    end.
Proof.
  induction l as [|[p d] l IH] using rev_ind; [done|].
  rewrite do_writes_app, filter_app. simpl.
  destruct (decide (p = path)) as [->|Hne].
  - rewrite filter_cons_True by done. rewrite filter_nil, last_snoc. simpl.
    apply lookup_insert_eq.
  - rewrite filter_cons_False by done. rewrite filter_nil, app_nil_r.
    rewrite lookup_insert_ne by done. apply IH.
Qed.

Lemma do_writes_world (l : list (string * list Byte.byte)) (w : World) :
  do_writes l w =
    mkWorld (next_addr w) (decoder_cache w) (decoders w) (class_attrs w)
            (list_to_map (reverse l) ∪ files w).
Proof.
  rewrite <-do_writes_files. revert w.
  induction l as [|[p d] l IH]; intros w; [by destruct w|].
  unfold do_writes in *. simpl. by rewrite IH.
Qed.

Lemma do_writes_twice (l : list (string * list Byte.byte)) (w : World) :
  do_writes l (do_writes l w) = do_writes l w.
Proof.
  rewrite !do_writes_world. simpl. f_equal.
  by rewrite (assoc_L (∪)), (idemp_L (∪)).
Qed.

Lemma filter_group_writes_tiu (bmodel_file : string) (_id id' : Z) (gs : list cmd_group) :
  filter (λ pd, pd.1 = tiu_bin bmodel_file _id)
         (concat (group_writes bmodel_file id' <$> gs))
  = if decide (id' = _id)
    then (λ g, (tiu_bin bmodel_file _id, tiu_cmd g)) <$> gs else [].
Proof.
  induction gs as [|g gs IH]; [by case_decide|].
  rewrite fmap_cons. cbn [concat group_writes app].
  destruct (decide (id' = _id)) as [->|Hne].
  - rewrite filter_cons_True by done.
    rewrite filter_cons_False by (simpl; apply not_eq_sym, tiu_bin_dma_bin).
    rewrite IH. by rewrite fmap_cons.
  - rewrite filter_cons_False by (simpl; intros Heq; by apply tiu_bin_inj in Heq).
    rewrite filter_cons_False by (simpl; apply not_eq_sym, tiu_bin_dma_bin).
    exact IH.
Qed.

Lemma filter_group_writes_dma (bmodel_file : string) (_id id' : Z) (gs : list cmd_group) :
  filter (λ pd, pd.1 = dma_bin bmodel_file _id)
         (concat (group_writes bmodel_file id' <$> gs))
  = if decide (id' = _id)
    then (λ g, (dma_bin bmodel_file _id, dma_cmd g)) <$> gs else [].
Proof.
  induction gs as [|g gs IH]; [by case_decide|].
  rewrite fmap_cons. cbn [concat group_writes app].
  destruct (decide (id' = _id)) as [->|Hne].
  - rewrite filter_cons_False by (simpl; apply tiu_bin_dma_bin).
    rewrite filter_cons_True by done.
    rewrite IH. by rewrite fmap_cons.
  - rewrite filter_cons_False by (simpl; apply tiu_bin_dma_bin).
    rewrite filter_cons_False by (simpl; intros Heq; by apply dma_bin_inj in Heq).
    exact IH.
Qed.

Lemma filter_subnet_writes (bmodel_file : string) (_id : Z) (sns : list subnet) :
  filter (λ pd, pd.1 = tiu_bin bmodel_file _id)
         (concat (subnet_writes bmodel_file <$> sns))
  = (λ g, (tiu_bin bmodel_file _id, tiu_cmd g))
      <$> concat (CmdGroup <$> filter (λ sn, head (Id sn) = Some _id) sns) ∧
  filter (λ pd, pd.1 = dma_bin bmodel_file _id)
         (concat (subnet_writes bmodel_file <$> sns))
  = (λ g, (dma_bin bmodel_file _id, dma_cmd g))
      <$> concat (CmdGroup <$> filter (λ sn, head (Id sn) = Some _id) sns).
Proof.
  induction sns as [|sn sns [IHt IHd]]; [done|].
  rewrite fmap_cons. cbn [concat]. rewrite !filter_app, IHt, IHd.
  unfold subnet_writes. destruct (Id sn) as [|id' rest] eqn:HId.
  - rewrite filter_cons_False by (rewrite HId; done). done.
  - rewrite filter_group_writes_tiu, filter_group_writes_dma.
    destruct (decide (id' = _id)) as [->|Hne].
    + rewrite filter_cons_True by (by rewrite HId).
      rewrite fmap_cons. cbn [concat]. by rewrite !fmap_app.
    + rewrite filter_cons_False by (rewrite HId; simpl; congruence). done.
Qed.

Lemma export_name_other (bmodel_file path : string) (sns : list subnet) :
  (∀ _id, path ≠ tiu_bin bmodel_file _id ∧ path ≠ dma_bin bmodel_file _id) →
  filter (λ pd, pd.1 = path) (concat (subnet_writes bmodel_file <$> sns)) = [].
Proof.
  intros Hpath. induction sns as [|sn sns IH]; [done|].
  rewrite fmap_cons. cbn [concat]. rewrite filter_app, IH, app_nil_r.
  unfold subnet_writes. destruct (Id sn) as [|_id rest]; [done|].
  destruct (Hpath _id) as [Ht Hd].
  induction (CmdGroup sn) as [|g gs IHg]; [done|].
  rewrite fmap_cons. cbn [concat group_writes app].
  rewrite !filter_cons_False by (simpl; congruence). exact IHg.
Qed.

Lemma bin_name_longer (bmodel_file : string) (_id : Z) (suffix : string) :
  bmodel_file ≠ bmodel_file +:+ "." +:+ pretty _id +:+ suffix.
Proof.
  intros Heq. apply (f_equal String.length) in Heq.
  rewrite !string_length_app in Heq. simpl in Heq. lia.
Qed.

(** X1.  On a container in which every SubNet has an id, and with a file
    system that accepts the writes, the export does not raise and changes
    nothing but files.  For every id, the file [<path>.<id>.tiu.bin] then
    holds the TIU bytes of the last CmdGroup, in traversal order, of the
    SubNets with that id, and is as before when there is none; the same
    for [<path>.<id>.dma.bin] and the DMA bytes.  A path that is no such
    name, the container's own path among them, keeps what it had. *)
Theorem BModel2Bin_last_group `{FileSystem} (bmodel_file : string) (b : bmodel)
    (w : World) :
  Forall (λ sn, Id sn ≠ []) (all_subnets b) →
  accepts (concat (subnet_writes bmodel_file <$> all_subnets b)) w = true →
  ∃ w', BModel2Bin bmodel_file b w = (Ok tt, w') ∧
    same_heap w w' ∧
    (∀ _id,
       files w' !! tiu_bin bmodel_file _id =
         match last (groups_of_id b _id) with
         | Some g => Some (tiu_cmd g)
         | None => files w !! tiu_bin bmodel_file _id
         end ∧
       files w' !! dma_bin bmodel_file _id =
         match last (groups_of_id b _id) with
         | Some g => Some (dma_cmd g)
         | None => files w !! dma_bin bmodel_file _id
         end) ∧
    (∀ path,
       (∀ _id, path ≠ tiu_bin bmodel_file _id ∧ path ≠ dma_bin bmodel_file _id) →
       files w' !! path = files w !! path) ∧
    files w' !! bmodel_file = files w !! bmodel_file.
Proof.
  intros Hids Hacc. pose proof (BModel2Bin_same_heap bmodel_file b w) as Hheap.
  rewrite (BModel2Bin_writes _ _ _ Hids Hacc) in Hheap |- *.
  eexists. split; [reflexivity|]. split; [exact Hheap|].
  assert (∀ path,
            (∀ _id, path ≠ tiu_bin bmodel_file _id ∧ path ≠ dma_bin bmodel_file _id) →
            files
              (do_writes (concat (subnet_writes bmodel_file <$> all_subnets b)) w)
              !! path = files w !! path) as Hother.
  { intros path Hpath. by rewrite do_writes_lookup, export_name_other. }
  split; [|split; [exact Hother|]].
  - intros _id. rewrite !do_writes_lookup.
    destruct (filter_subnet_writes bmodel_file _id (all_subnets b)) as [-> ->].
    fold (groups_of_id b _id). rewrite !fmap_last.
    by destruct (last (groups_of_id b _id)).
  - apply Hother. intros _id. split; apply bin_name_longer.
Qed.

Lemma BModel2Bin_last_group_witness :
  ∃ w', @BModel2Bin example_fs_names "net.bmodel" example_bmodel_two_nets
          initial_world = (Ok tt, w') ∧
    files w' !! "net.bmodel.0.tiu.bin" = Some [Byte.x02] ∧
    files w' !! "net.bmodel.0.dma.bin" = Some [Byte.x0b] ∧
    files w' !! "net.bmodel.1.tiu.bin" = None ∧
    files w' !! "net.bmodel" = None.
Proof.
  destruct (@BModel2Bin_last_group example_fs_names "net.bmodel"
              example_bmodel_two_nets initial_world)
    as (w' & Hrun & _ & Hid & _ & Hself).
  { repeat constructor; done. }
  { vm_compute. reflexivity. }
  exists w'. split; [exact Hrun|].
  split; [exact (proj1 (Hid 0))|]. split; [exact (proj2 (Hid 0))|].
  split; [exact (proj1 (Hid 1))|exact Hself].
Defined.

(** X2.  The export stops at its first failure, and what it wrote before
    stays.  At the first SubNet without an id, also one without a
    CmdGroup, it raises [IndexError], with the files of the SubNets before
    it written and nothing of the SubNets after it.  At the first write
    the file system refuses it raises [OSError]: when the file cannot be
    opened, with the writes before it made and nothing else; when the
    data cannot be written, with the file left as the file system leaves
    it. *)
Theorem BModel2Bin_stops_at_failure `{FileSystem} (bmodel_file : string)
    (b : bmodel) (w : World) :
  (∀ (before after : list subnet) (sn : subnet),
     all_subnets b = before ++ sn :: after →
     Forall (λ sn, Id sn ≠ []) before →
     Id sn = [] →
     accepts (concat (subnet_writes bmodel_file <$> before)) w = true →
     BModel2Bin bmodel_file b w =
       (Raise IndexError,
        do_writes (concat (subnet_writes bmodel_file <$> before)) w)) ∧
  (∀ (made todo : list (string * list Byte.byte)) (path : string)
     (data : list Byte.byte),
     export_writes bmodel_file (all_subnets b) = made ++ (path, data) :: todo →
     accepts made w = true →
     (fs_open path (files (do_writes made w)) = false →
      BModel2Bin bmodel_file b w = (Raise (OSError path), do_writes made w)) ∧
     (∀ rest,
        fs_open path (files (do_writes made w)) = true →
        fs_write path data (files (do_writes made w)) = Some rest →
        BModel2Bin bmodel_file b w
        = (Raise (OSError path), put_file path rest (do_writes made w)))).
Proof.
  split.
  - intros before after sn Hsns Hbefore Hsn Hacc.
    rewrite BModel2Bin_run_writes, Hsns, export_writes_before by done.
    rewrite run_writes_accepted by done.
    rewrite bool_decide_eq_false_2; [done|].
    intros Hall. apply Forall_app in Hall as [_ [Hid _]%Forall_cons]. done.
  - intros made todo path data Hwrites Hacc.
    rewrite BModel2Bin_run_writes, Hwrites, run_writes_refused by done. split.
    + by intros ->.
    + by intros rest -> ->.
Qed.

Lemma BModel2Bin_stops_at_failure_witness :
  (∃ w', @BModel2Bin example_fs "net.bmodel" example_bmodel_no_id initial_world
         = (Raise IndexError, w') ∧
     files w' !! "net.bmodel.7.tiu.bin" = Some [Byte.x02] ∧
     files w' !! "net.bmodel.8.tiu.bin" = None) ∧
  @BModel2Bin example_fs_names example_long_path example_bmodel initial_world
    = (Raise (OSError (tiu_bin example_long_path 0)), initial_world) ∧
  @BModel2Bin example_fs_full "net.bmodel" example_bmodel initial_world
    = (Raise (OSError "net.bmodel.0.tiu.bin"),
       put_file "net.bmodel.0.tiu.bin" [Byte.x01] initial_world).
Proof.
  split; [|split].
  - eexists. split.
    + apply (proj1 (@BModel2Bin_stops_at_failure example_fs "net.bmodel"
                      example_bmodel_no_id initial_world)
               [mkSubNet [7] [mkCmdGroup [Byte.x01] [Byte.x0a];
                              mkCmdGroup [Byte.x02] [Byte.x0b]]]
               [mkSubNet [8] [mkCmdGroup [Byte.x04] [Byte.x0d]]]
               (mkSubNet [] [mkCmdGroup [Byte.x03] [Byte.x0c]])).
      * reflexivity.
      * repeat constructor; done.
      * reflexivity.
      * vm_compute. reflexivity.
    + split; by vm_compute.
  - apply (proj2 (@BModel2Bin_stops_at_failure example_fs_names example_long_path
                    example_bmodel initial_world)
             [] (tl (export_writes example_long_path (all_subnets example_bmodel)))
             (tiu_bin example_long_path 0) [Byte.x01; Byte.x02]).
    + reflexivity.
    + reflexivity.
    + vm_compute. reflexivity.
  - apply (proj2 (@BModel2Bin_stops_at_failure example_fs_full "net.bmodel"
                    example_bmodel initial_world)
             [] (tl (export_writes "net.bmodel" (all_subnets example_bmodel)))
             "net.bmodel.0.tiu.bin" [Byte.x01; Byte.x02]).
    + reflexivity.
    + reflexivity.
    + reflexivity.
    + reflexivity.
Defined.

(** With a file system whose answers do not depend on the files, a list of
    writes ends the same way and makes the same writes from every world. *)
Lemma run_writes_stable `{FileSystem} (l : list (string * list Byte.byte)) :
  fs_stable →
  ∃ r made, ∀ w, run_writes l w = (r, do_writes made w).
Proof.
  intros Hstable. induction l as [|[p d] l (r & made & IH)].
  { exists (Ok tt), []. done. }
  destruct (fs_open p ∅) eqn:Hopen; [destruct (fs_write p d ∅) as [rest|] eqn:Hwrite|].
  - exists (Raise (OSError p)), [(p, rest)]. intros w.
    unfold run_writes. cbn [for_each fst snd]. unfold write_file.
    destruct (Hstable p d (files w) ∅) as [-> ->]. by rewrite Hopen, Hwrite.
  - exists r, ((p, d) :: made). intros w.
    unfold run_writes in *. cbn [for_each fst snd]. unfold write_file at 1.
    destruct (Hstable p d (files w) ∅) as [-> ->]. rewrite Hopen, Hwrite.
    apply IH.
  - exists (Raise (OSError p)), []. intros w.
    unfold run_writes. cbn [for_each fst snd]. unfold write_file.
    destruct (Hstable p d (files w) ∅) as [-> _]. by rewrite Hopen.
Qed.

(** X3.  With a file system whose answers do not depend on what the files
    hold, exporting a container a second time changes nothing: the second
    run ends as the first did and leaves the world of the first, whatever
    the container, also where the export raises, for a SubNet without an
    id or for a write that is refused. *)
Theorem BModel2Bin_twice `{FileSystem} (bmodel_file : string) (b : bmodel)
    (w : World) :
  fs_stable →
  BModel2Bin bmodel_file b (BModel2Bin bmodel_file b w).2
  = BModel2Bin bmodel_file b w.
Proof.
  intros Hstable.
  destruct (run_writes_stable (export_writes bmodel_file (all_subnets b)) Hstable)
    as (r & made & Hrun).
  rewrite (BModel2Bin_run_writes bmodel_file b w), Hrun.
  destruct r as [[]|e]; cbn [snd];
    rewrite BModel2Bin_run_writes, Hrun; by rewrite do_writes_twice.
Qed.

Lemma BModel2Bin_twice_witness :
  @BModel2Bin example_fs_full "net.bmodel" example_bmodel
    (@BModel2Bin example_fs_full "net.bmodel" example_bmodel initial_world).2
  = @BModel2Bin example_fs_full "net.bmodel" example_bmodel initial_world.
Proof.
  apply (@BModel2Bin_twice example_fs_full "net.bmodel" example_bmodel initial_world).
  intros path data fs fs'. split; reflexivity.
Defined.

(** ** The register listing *)

Lemma elem_of_concat {X} (x : X) (ls : list (list X)) :
  x ∈ concat ls ↔ ∃ l, x ∈ l ∧ l ∈ ls.
Proof.
  rewrite list_elem_of_In, in_concat. split.
  - intros (l & Hl & Hx). exists l. by rewrite !list_elem_of_In.
  - intros (l & Hx & Hl). exists l. by rewrite <-!list_elem_of_In.
Qed.

Lemma gen_for_app {X Y} (xs ys : list X) (body : X → gen Y) :
  gen_for (xs ++ ys) body =
    match gen_raised (gen_for xs body) with
    | Some _ => gen_for xs body
    | None =>
        mkGen (gen_yielded (gen_for xs body) ++ gen_yielded (gen_for ys body))
              (gen_raised (gen_for ys body))
    end.
Proof.
  induction xs as [|x xs IH]; simpl.
  - by destruct (gen_for ys body).
  - destruct (gen_raised (body x)) eqn:Hx.
    + by rewrite Hx.
    + rewrite IH. simpl.
      destruct (gen_raised (gen_for xs body)) eqn:Hxs; simpl.
      * by rewrite Hxs.
      * by rewrite app_assoc.
Qed.

Lemma gen_for_concat {X Y Z'} (f : X → list Y) (xs : list X) (body : Y → gen Z') :
  gen_for xs (λ x, gen_for (f x) body) = gen_for (concat (f <$> xs)) body.
Proof.
  induction xs as [|x xs IH]; simpl; [done|].
  rewrite gen_for_app, IH.
  by destruct (gen_raised (gen_for (f x) body)).
Qed.

Lemma gen_for_ext {X Y} (xs : list X) (body body' : X → gen Y) :
  (∀ x, body x = body' x) → gen_for xs body = gen_for xs body'.
Proof. intros Hext. induction xs as [|x xs IH]; simpl; [done|]. by rewrite Hext, IH. Qed.

Section register_listing.
Context `{DecoderMethods}.

(** The loop nest is one loop over the SubNets in traversal order. *)
Lemma BModel2Reg_all_subnets (b : bmodel) (w : World) :
  BModel2Reg b w =
    match open_decoder b w with
    | (Raise e, w) => (mkGen [] (Some e), w)
    | (Ok decoder, w) => (gen_for (all_subnets b) (reg_subnet decoder), w)
    end.
Proof.
  unfold BModel2Reg, all_subnets.
  destruct (open_decoder b w) as [[decoder|e] w']; [|done].
  f_equal. rewrite <-gen_for_concat. apply gen_for_ext. intros net.
  by rewrite <-gen_for_concat.
Qed.

Lemma reg_groups_decoded (decoder : nat) (_id : Z) (gs : list cmd_group) :
  (∀ g, g ∈ gs → ∃ ops, decode_bmodel_cmd decoder g _id = Ok ops) →
  gen_raised (gen_for gs (reg_yield decoder _id)) = None ∧
  decoded decoder ((λ g, (_id, g)) <$> gs)
          (gen_yielded (gen_for gs (reg_yield decoder _id))).
Proof.
  induction gs as [|g gs IH]; intros Hok.
  - split; [done|constructor].
  - destruct (Hok g) as [ops Hops]; [left|].
    assert (reg_yield decoder _id g = mkGen [(_id, ops)] None) as Hg
      by (unfold reg_yield; by rewrite Hops).
    cbn [gen_for]. rewrite Hg. simpl.
    destruct IH as [Hr Hy]. { intros g' Hg'. apply Hok. by right. }
    split; [done|]. constructor; [done|]. exact Hy.
Qed.

Lemma reg_subnets_decoded (decoder : nat) (sns : list subnet) :
  Forall (λ sn, Id sn ≠ []) sns →
  (∀ sn _id rest g, sn ∈ sns → Id sn = _id :: rest → g ∈ CmdGroup sn →
     ∃ ops, decode_bmodel_cmd decoder g _id = Ok ops) →
  gen_raised (gen_for sns (reg_subnet decoder)) = None ∧
  decoded decoder
    (concat ((λ sn, match Id sn with
                    | _id :: _ => (λ g, (_id, g)) <$> CmdGroup sn
                    | [] => []
                    end) <$> sns))
    (gen_yielded (gen_for sns (reg_subnet decoder))).
Proof.
  induction 1 as [|sn sns Hid _ IH]; intros Hok.
  - split; [done|constructor].
  - destruct IH as [Hr Hy].
    { intros sn' _id rest g Hsn'. apply Hok. by right. }
    destruct (Id sn) as [|_id rest] eqn:HId; [done|].
    assert (reg_subnet decoder sn = gen_for (CmdGroup sn) (reg_yield decoder _id))
      as Hsn by (unfold reg_subnet; by rewrite HId).
    destruct (reg_groups_decoded decoder _id (CmdGroup sn)) as [Hgr Hgy].
    { intros g Hg. apply (Hok sn _id rest g); [left|done..]. }
    rewrite fmap_cons. cbn [gen_for concat]. rewrite Hsn, HId, Hgr. simpl.
    split; [done|]. by apply Forall2_app.
Qed.

(** Items of a dictionary built by [dict_setitem]. *)
Lemma dict_setitem_keys {V} (k : Z) (v : V) (d : list (Z * V)) :
  (dict_setitem k v d).*1 = if decide (k ∈ d.*1) then d.*1 else d.*1 ++ [k].
Proof.
  unfold dict_setitem. case_decide; [|by rewrite fmap_app].
  rewrite <-list_fmap_compose. apply list_fmap_ext. intros i [k' v'] _. simpl.
  by case_decide.
Qed.

Lemma dict_setitem_elem_of {V} (k : Z) (v : V) (d : list (Z * V)) (k' : Z) (v' : V) :
  (k', v') ∈ dict_setitem k v d ↔
  (k' = k ∧ v' = v) ∨ (k' ≠ k ∧ (k', v') ∈ d).
Proof.
  unfold dict_setitem. case_decide as Hin.
  - rewrite list_elem_of_fmap. split.
    + intros ([k0 v0] & Heq & Hd). simpl in Heq. case_decide; simplify_eq; auto.
    + intros [[-> ->]|[Hne Hd]].
      * apply list_elem_of_fmap in Hin as ([k0 v0] & -> & Hd).
        exists (k0, v0). simpl. by rewrite decide_True.
      * exists (k', v'). simpl. by rewrite decide_False.
  - rewrite elem_of_app, list_elem_of_singleton. split.
    + intros [Hd|[= -> ->]]; [|by left].
      right. split; [|done]. intros ->. apply Hin.
      by apply (list_elem_of_fmap_2 fst) in Hd.
    + intros [[-> ->]|[_ Hd]]; auto.
Qed.

(** The dictionary of a list of items: no key twice, the keys in the order
    of their first item, and under each key the entry of its last item. *)
Lemma reg_outs_spec (module : list (Z * DecodedCmd)) :
  NoDup (reg_outs module).*1 ∧
  (∀ _id, _id ∈ (reg_outs module).*1 ↔ _id ∈ module.*1) ∧
  (∀ _id entry, (_id, entry) ∈ reg_outs module ↔
     ∃ ops, last (filter (λ item, item.1 = _id) module) = Some (_id, ops) ∧
            entry = reg_entry ops).
Proof.
  unfold reg_outs.
  induction module as [|[k ops] module (Hnd & Hkeys & Hlast)] using rev_ind.
  - simpl. split; [constructor|]. split; [done|].
    intros _id entry. split; [by intros ?%elem_of_nil|by intros (? & ? & _)].
  - rewrite foldl_app. cbn [foldl fst snd].
    set (outs := foldl _ [] module) in *.
    split; [|split].
    + rewrite dict_setitem_keys. case_decide as Hin; [done|].
      apply NoDup_app. split; [done|]. split; [|apply NoDup_singleton].
      intros k' Hk' ->%list_elem_of_singleton. done.
    + intros _id. rewrite dict_setitem_keys, fmap_app, elem_of_app. simpl.
      rewrite list_elem_of_singleton, <-Hkeys.
      case_decide as Hin; [|by rewrite elem_of_app, list_elem_of_singleton].
      split; [auto|]. by intros [?| ->].
    + intros _id entry. rewrite dict_setitem_elem_of, filter_app.
      destruct (decide (k = _id)) as [->|Hne].
      * rewrite (filter_cons_True _ (_id, ops)) by done.
        rewrite filter_nil, last_snoc. split.
        -- intros [[_ ->]|[? _]]; [|done]. by exists ops.
        -- intros (ops' & [= <-] & ->). by left.
      * rewrite (filter_cons_False _ (k, ops)) by done.
        rewrite filter_nil, app_nil_r, <-Hlast. split.
        -- by intros [[-> _]|[_ ?]].
        -- intros Hd. right. split; [congruence|done].
Qed.

Lemma decoded_keys (decoder : nat) jobs items :
  decoded decoder jobs items → items.*1 = jobs.*1.
Proof.
  induction 1 as [|job item jobs items [Hk _] _ IH]; [done|].
  rewrite !fmap_cons. by rewrite Hk, IH.
Qed.

Lemma decoded_filter (decoder : nat) (_id : Z) jobs items :
  decoded decoder jobs items →
  decoded decoder (filter (λ job, job.1 = _id) jobs)
          (filter (λ item, item.1 = _id) items).
Proof.
  induction 1 as [|job item jobs items [Hk Hd] _ IH]; [constructor|].
  destruct (decide (job.1 = _id)) as [Heq|Hne].
  - rewrite !filter_cons_True by congruence. by constructor.
  - rewrite !filter_cons_False by congruence. done.
Qed.

Lemma decoded_last (decoder : nat) jobs items job :
  decoded decoder jobs items → last jobs = Some job →
  ∃ ops, last items = Some (job.1, ops) ∧
         decode_bmodel_cmd decoder job.2 job.1 = Ok ops.
Proof.
  intros Hd Hlast. apply last_Some in Hlast as [jobs' ->].
  apply Forall2_app_inv_l in Hd as (items' & items1 & _ & H1 & ->).
  inversion H1 as [|? [k ops] ?? [Hk Hops] Hnil]; subst.
  inversion Hnil; subst. simpl in *. subst k.
  exists ops. by rewrite last_snoc.
Qed.

Lemma reg_jobs_filter (b : bmodel) (_id : Z) :
  filter (λ job, job.1 = _id) (reg_jobs b) = (λ g, (_id, g)) <$> groups_of_id b _id.
Proof.
  unfold reg_jobs, groups_of_id. induction (all_subnets b) as [|sn sns IH]; [done|].
  rewrite fmap_cons. cbn [concat]. rewrite filter_app, IH.
  destruct (Id sn) as [|id' rest] eqn:HId.
  - rewrite filter_cons_False by (by rewrite HId). done.
  - destruct (decide (id' = _id)) as [->|Hne].
    + rewrite filter_cons_True by (by rewrite HId).
      rewrite fmap_cons. cbn [concat]. rewrite fmap_app. f_equal.
      induction (CmdGroup sn) as [|g gs IHg]; [done|].
      rewrite fmap_cons, filter_cons_True by done. by rewrite IHg.
    + rewrite filter_cons_False by (rewrite HId; simpl; congruence).
      rewrite <-(app_nil_l (_ <$> concat _)). f_equal.
      induction (CmdGroup sn) as [|g gs IHg]; [done|].
      rewrite fmap_cons, filter_cons_False by done. exact IHg.
Qed.

Lemma BModel2Reg_ok (b : bmodel) (w w' : World) (decoder : nat) :
  open_decoder b w = (Ok decoder, w') →
  Forall (λ sn, Id sn ≠ []) (all_subnets b) →
  (∀ _id g, (_id, g) ∈ reg_jobs b → ∃ ops, decode_bmodel_cmd decoder g _id = Ok ops) →
  ∃ module, BModel2Reg b w = (mkGen module None, w') ∧
            decoded decoder (reg_jobs b) module.
Proof.
  intros Hopen Hids Hok. rewrite BModel2Reg_all_subnets, Hopen.
  destruct (reg_subnets_decoded decoder (all_subnets b) Hids) as [Hr Hy].
  { intros sn _id rest g Hsn HId Hg. apply Hok. unfold reg_jobs.
    apply elem_of_concat. eexists. split; [|apply list_elem_of_fmap_2, Hsn].
    rewrite HId. by apply list_elem_of_fmap_2. }
  exists (gen_yielded (gen_for (all_subnets b) (reg_subnet decoder))).
  split; [|exact Hy].
  destruct (gen_for (all_subnets b) (reg_subnet decoder)). simpl in *. by subst.
Qed.
End register_listing.

(** X4.  With a supported chip, an id on every SubNet and commands the
    decoder accepts, [BModel2Reg] ends without exception and yields one
    item for each CmdGroup of the container, in traversal order: the id of
    the CmdGroup's SubNet and the decoding of the CmdGroup under that id,
    all by the one decoder of the context built for the chip. *)
Theorem BModel2Reg_yields `{DecoderMethods} (b : bmodel) (w w' : World)
    (decoder : nat) :
  open_decoder b w = (Ok decoder, w') →
  Forall (λ sn, Id sn ≠ []) (all_subnets b) →
  (∀ _id g, (_id, g) ∈ reg_jobs b → ∃ ops, decode_bmodel_cmd decoder g _id = Ok ops) →
  ∃ module,
    BModel2Reg b w = (mkGen module None, w') ∧
    length module = length (concat (CmdGroup <$> all_subnets b)) ∧
    Forall2 (λ job item,
               item.1 = job.1 ∧ decode_bmodel_cmd decoder job.2 job.1 = Ok item.2)
            (reg_jobs b) module.
Proof.
  intros Hopen Hids Hok.
  destruct (BModel2Reg_ok b w w' decoder Hopen Hids Hok) as (module & Hrun & Hdec).
  exists module. split; [done|]. split; [|exact Hdec].
  rewrite <-(Forall2_length _ _ _ Hdec). unfold reg_jobs.
  clear -Hids. induction Hids as [|sn sns Hid _ IH]; [done|].
  rewrite !fmap_cons. cbn [concat]. rewrite !length_app, IH.
  destruct (Id sn); [done|]. by rewrite length_fmap.
Qed.

Lemma BModel2Reg_yields_witness :
  ∃ module,
    @BModel2Reg example_decoder_methods example_bmodel_groups initial_world
      = (mkGen module None, mkWorld 2 [(0%nat, 1%nat)] {[1%nat := 0%nat]} ∅ ∅) ∧
    length module = 4%nat ∧
    Forall2 (λ job item,
               item.1 = job.1 ∧
               @decode_bmodel_cmd example_decoder_methods 1%nat job.2 job.1 = Ok item.2)
            (reg_jobs example_bmodel_groups) module.
Proof.
  apply (@BModel2Reg_yields example_decoder_methods example_bmodel_groups
           initial_world).
  - reflexivity.
  - repeat constructor; done.
  - intros _id g Hin. vm_compute in Hin.
    repeat (apply elem_of_cons in Hin as [[= -> ->]|Hin]); try (by eexists).
    by apply elem_of_nil in Hin.
Defined.

(** X5.  The dictionary printed for [--format reg] has one entry for each
    id under which the container has a CmdGroup, and none else; the entry
    of an id holds the registers of the last CmdGroup, in traversal order,
    of the SubNets with that id.  So where a SubNet has several CmdGroups,
    or two SubNets have the same id, only the last one is listed. *)
Theorem main_reg_last_group `{DecoderMethods} (b : bmodel) (w w' : World)
    (decoder : nat) :
  open_decoder b w = (Ok decoder, w') →
  Forall (λ sn, Id sn ≠ []) (all_subnets b) →
  (∀ _id g, (_id, g) ∈ reg_jobs b → ∃ ops, decode_bmodel_cmd decoder g _id = Ok ops) →
  ∃ outs,
    main_reg b w = (Ok outs, w') ∧
    NoDup outs.*1 ∧
    (∀ _id, _id ∈ outs.*1 ↔ groups_of_id b _id ≠ []) ∧
    (∀ _id entry, (_id, entry) ∈ outs ↔
       ∃ g ops, last (groups_of_id b _id) = Some g ∧
                decode_bmodel_cmd decoder g _id = Ok ops ∧
                entry = reg_entry ops).
Proof.
  intros Hopen Hids Hok.
  destruct (BModel2Reg_ok b w w' decoder Hopen Hids Hok) as (module & Hrun & Hdec).
  destruct (reg_outs_spec module) as (Hnd & Hkeys & Hlast).
  exists (reg_outs module). unfold main_reg. rewrite Hrun. simpl.
  split; [done|]. split; [done|].
  assert (∀ _id, decoded decoder ((λ g, (_id, g)) <$> groups_of_id b _id)
                         (filter (λ item, item.1 = _id) module)) as Hfilter.
  { intros _id. rewrite <-reg_jobs_filter. by apply decoded_filter. }
  split.
  - intros _id. rewrite Hkeys. specialize (Hfilter _id).
    apply Forall2_length in Hfilter. rewrite length_fmap in Hfilter.
    split.
    + intros Hin Hnil. rewrite Hnil in Hfilter. simpl in Hfilter.
      apply list_elem_of_fmap in Hin as ([k ops] & -> & Hin).
      assert ((k, ops) ∈ filter (λ item, item.1 = k) module) as Hin'
        by (by apply list_elem_of_filter).
      destruct (filter _ module); [by apply elem_of_nil in Hin'|done].
    + intros Hne. destruct (filter (λ item, item.1 = _id) module) as [|item l] eqn:Hf.
      { destruct (groups_of_id b _id); done. }
      assert (item ∈ filter (λ item, item.1 = _id) module) as Hin
        by (rewrite Hf; left).
      apply list_elem_of_filter in Hin as [<- Hin].
      by apply list_elem_of_fmap_2.
  - intros _id entry. rewrite Hlast. specialize (Hfilter _id). split.
    + intros (ops & Hl & ->).
      destruct (last (groups_of_id b _id)) as [g|] eqn:Hg.
      * destruct (decoded_last decoder _ _ (_id, g) Hfilter) as (ops' & Hl' & Hops).
        { by rewrite fmap_last, Hg. }
        simpl in *. rewrite Hl in Hl'. injection Hl' as <-. eauto.
      * apply last_None in Hg. rewrite Hg in Hfilter.
        apply Forall2_nil_inv_l in Hfilter. by rewrite Hfilter in Hl.
    + intros (g & ops & Hg & Hops & ->).
      destruct (decoded_last decoder _ _ (_id, g) Hfilter) as (ops' & Hl' & Hops').
      { by rewrite fmap_last, Hg. }
      simpl in *. rewrite Hops in Hops'. injection Hops' as <-. eauto.
Qed.

Lemma main_reg_last_group_witness :
  ∃ outs,
    @main_reg example_decoder_methods example_bmodel_groups initial_world
      = (Ok outs, mkWorld 2 [(0%nat, 1%nat)] {[1%nat := 0%nat]} ∅ ∅) ∧
    NoDup outs.*1 ∧
    (∀ _id, _id ∈ outs.*1 ↔ groups_of_id example_bmodel_groups _id ≠ []) ∧
    (∀ _id entry, (_id, entry) ∈ outs ↔
       ∃ g ops, last (groups_of_id example_bmodel_groups _id) = Some g ∧
                @decode_bmodel_cmd example_decoder_methods 1%nat g _id = Ok ops ∧
                entry = @reg_entry example_decoder_methods ops).
Proof.
  apply (@main_reg_last_group example_decoder_methods example_bmodel_groups
           initial_world).
  - reflexivity.
  - repeat constructor; done.
  - intros _id g Hin. vm_compute in Hin.
    repeat (apply elem_of_cons in Hin as [[= -> ->]|Hin]); try (by eexists).
    by apply elem_of_nil in Hin.
Defined.

(** The listing of the example: the two CmdGroups of SubNet 0 and the
    CmdGroup of the second SubNet 0 leave one entry, that of the last. *)
Example main_reg_example :
  (@main_reg example_decoder_methods example_bmodel_groups initial_world).1
  = Ok [(0, ([Byte.x04], [Byte.x0d])); (1, ([Byte.x03], [Byte.x0c]))].
Proof. reflexivity. Qed.
(** ** The decoder store within its bound *)





(** ** A decoder for a new context *)

(** A context that was just built is not in the store: its first access
    builds its decoder. *)
Lemma decoder_of_new_context (v : pyval) (w w1 : World) (c : Context) :
  keys_allocated w →
  Context_new v w = (Ok c, w1) →
  self c = next_addr w ∧
  decoder c w1 =
    (S (next_addr w),
     mkWorld (S (S (next_addr w)))
             (lru_store (next_addr w) (S (next_addr w)) (decoder_cache w))
             (<[S (next_addr w) := next_addr w]> (decoders w))
             (class_attrs w) (files w)).
Proof.
  intros Hkeys. unfold Context_new.
  destruct (Context_init v) as [s|e]; [|done]. simpl. intros [= <- <-].
  split; [done|]. unfold decoder. simpl.
  destruct (lru_get (next_addr w) (decoder_cache w)) as [d|] eqn:Hget; [|done].
  apply lru_get_Some in Hget. apply (list_elem_of_fmap_2 fst) in Hget.
  apply Hkeys in Hget. simpl in Hget. lia.
Qed.

(** X7.  [BModel2MLIR] and [BModel2Reg] start alike: they take the first
    chip tag of the container, build a context for it and fetch its
    decoder.  Without a chip tag this is an [IndexError], with a tag that is
    none of the supported devices the [ValueError] of the device lookup,
    and in both cases nothing is built and nothing stored.  With a supported
    chip a new context and a new decoder are built, each time: the decoder
    is never one that an earlier call got, and it is stored as the most
    recent entry. *)
Theorem open_decoder_outcome (b : bmodel) (w : World) :
  (Chip b = [] → open_decoder b w = (Raise IndexError, w)) ∧
  (∀ chip rest, Chip b = chip :: rest →
     ((∀ d, chip ≠ PyStr (Device_value d) ∧ chip ≠ PyDevice d) →
      open_decoder b w = (Raise (ValueError_not_a_valid_Device chip), w)) ∧
     (∀ d, chip = PyStr (Device_value d) ∨ chip = PyDevice d →
      cache_ok w → keys_allocated w →
      ∃ w', open_decoder b w = (Ok (S (next_addr w)), w') ∧
        next_addr w' = S (S (next_addr w)) ∧
        decoders w !! S (next_addr w) = None ∧
        decoders w' = <[S (next_addr w) := next_addr w]> (decoders w) ∧
        head (decoder_cache w') = Some (next_addr w, S (next_addr w)) ∧
        class_attrs w' = class_attrs w ∧ files w' = files w ∧
        cache_ok w' ∧ keys_allocated w')).
Proof.
  unfold open_decoder. split.
  - by intros ->.
  - intros chip rest ->. simpl. split.
    + intros Hchip.
      destruct (Device_call chip) as [d|e] eqn:Hcall.
      * apply Device_call_Ok in Hcall. destruct (Hchip d). tauto.
      * unfold Context_new. rewrite (Context_init_Raise _ _ Hcall).
        by rewrite (Device_call_Raise _ _ Hcall).
    + intros d Hchip Hok Hkeys. apply Device_call_Ok in Hchip.
      destruct (Context_new chip w) as [[c|e] w1] eqn:Hnew.
      2: { unfold Context_new in Hnew.
           by rewrite (Context_init_Ok _ _ Hchip) in Hnew. }
      destruct (decoder_of_new_context chip w w1 c Hkeys Hnew) as [Hself ->].
      eexists. split; [reflexivity|]. cbn [next_addr decoders decoder_cache class_attrs files].
      destruct Hok as [Hcache Hheap].
      assert (decoders w !! S (next_addr w) = None) as Hfresh.
      { destruct (decoders w !! S (next_addr w)) as [k|] eqn:Hk; [|done].
        apply Hheap in Hk. lia. }
      split; [done|]. split; [done|]. split; [done|]. split; [done|].
      split; [done|]. split; [done|]. split; [split|].
      * cbn [decoder_cache decoders]. intros k d' Hin.
        apply elem_of_take in Hin as (i & Hin & _).
        apply list_elem_of_lookup_2 in Hin.
        apply elem_of_cons in Hin as [[= -> ->]|Hin]; [apply lookup_insert_eq|].
        rewrite lookup_insert_ne; [auto|].
        intros <-. apply Hcache in Hin. congruence.
      * cbn [decoders next_addr]. intros d' k. rewrite lookup_insert.
        case_decide; subst; [intros _; lia|].
        intros Hd. apply Hheap in Hd. lia.
      * intros k. cbn [decoder_cache next_addr]. unfold lru_store.
        rewrite fmap_take. intros Hin.
        apply elem_of_take in Hin as (i & Hin & _).
        apply list_elem_of_lookup_2 in Hin.
        rewrite fmap_cons in Hin.
        apply elem_of_cons in Hin as [->|Hin]; [simpl; lia|].
        apply Hkeys in Hin. lia.
Qed.

Lemma open_decoder_outcome_witness :
  open_decoder (mkBModel [PyStr "BM1688"] []) initial_world
    = (Raise (ValueError_not_a_valid_Device (PyStr "BM1688")), initial_world) ∧
  ∃ w', open_decoder example_bmodel initial_world = (Ok 1%nat, w') ∧
    next_addr w' = 2%nat ∧
    decoders initial_world !! 1%nat = None ∧
    decoders w' = <[1%nat := 0%nat]> (decoders initial_world) ∧
    head (decoder_cache w') = Some (0%nat, 1%nat) ∧
    class_attrs w' = class_attrs initial_world ∧ files w' = files initial_world ∧
    cache_ok w' ∧ keys_allocated w'.
Proof.
  split.
  - apply (proj2 (open_decoder_outcome (mkBModel [PyStr "BM1688"] []) initial_world)
             (PyStr "BM1688") [] eq_refl).
    intros []; split; discriminate.
  - apply (proj2 (open_decoder_outcome example_bmodel initial_world)
             (PyStr "BM1684X") [] eq_refl) with BM1684X.
    + left. reflexivity.
    + exact cache_ok_initial.
    + intros k Hk. by apply elem_of_nil in Hk.
Defined.

(** ** Decoding a command file *)

Lemma upper_ascii_idemp (c : ascii) : upper_ascii (upper_ascii c) = upper_ascii c.
Proof.
  unfold upper_ascii.
  destruct ((97 <=? nat_of_ascii c)%nat && (nat_of_ascii c <=? 122)%nat) eqn:Hc.
  - apply andb_true_iff in Hc as [H1%Nat.leb_le H2%Nat.leb_le].
    rewrite nat_ascii_embedding by lia.
    assert ((97 <=? nat_of_ascii c - 32)%nat = false) as ->
      by (apply Nat.leb_gt; lia).
    done.
  - by rewrite Hc.
Qed.

Lemma ascii_upper_idemp (s : string) : ascii_upper (ascii_upper s) = ascii_upper s.
Proof.
  induction s as [|c s IH]; [done|]. simpl. by rewrite upper_ascii_idemp, IH.
Qed.

Lemma is_ascii_upper (s : string) : is_ascii s = true → is_ascii (ascii_upper s) = true.
Proof.
  induction s as [|c s IH]; [done|]. cbn [is_ascii ascii_upper].
  intros [Hc Hs%IH]%andb_true_iff. rewrite Hs, andb_true_r.
  apply Nat.ltb_lt in Hc. apply Nat.ltb_lt. unfold upper_ascii.
  destruct ((97 <=? nat_of_ascii c)%nat && (nat_of_ascii c <=? 122)%nat); [|done].
  rewrite nat_ascii_embedding by lia. lia.
Qed.

(** On a name in ASCII, [str.upper] gives the same for the name and for its
    upper-case form. *)
Lemma str_upper_idemp `{StrUpper} (s : string) :
  is_ascii s = true → str_upper (ascii_upper s) = str_upper s.
Proof.
  intros Hs. rewrite (str_upper_ascii s Hs).
  rewrite (str_upper_ascii _ (is_ascii_upper s Hs)). apply ascii_upper_idemp.
Qed.

(** X8.  [decode_tiu_file] and [decode_dma_file] take a device name in
    ASCII in any case: the name and its upper-case form give the same
    result.  For every name, the file is read first, so a failure to read
    it is what the call raises whatever the device; after that a name whose
    [upper()] is neither [BM1684X] nor [BM1684] is rejected, with that
    [upper()] in the error and nothing built; and for a supported name a
    new context and a new decoder are built on every call, and the bits
    are handed to that decoder. *)
Theorem decode_file_device_case `{BitsDecoder} `{StrUpper} (file device : string)
    (w : World) :
  (is_ascii device = true →
   decode_tiu_file file device w = decode_tiu_file file (ascii_upper device) w ∧
   decode_dma_file file device w = decode_dma_file file (ascii_upper device) w) ∧
  (∀ e, read_file_to_bits file (files w) = Raise e →
     decode_tiu_file file device w = (Raise e, w) ∧
     decode_dma_file file device w = (Raise e, w)) ∧
  (∀ bits, read_file_to_bits file (files w) = Ok bits →
     (str_upper device ≠ "BM1684X" ∧ str_upper device ≠ "BM1684" →
      decode_tiu_file file device w
        = (Raise (ValueError_not_a_valid_Device (PyStr (str_upper device))), w) ∧
      decode_dma_file file device w
        = (Raise (ValueError_not_a_valid_Device (PyStr (str_upper device))), w)) ∧
     (str_upper device = "BM1684X" ∨ str_upper device = "BM1684" →
      keys_allocated w →
      ∃ w', next_addr w' = S (S (next_addr w)) ∧
        decoders w' = <[S (next_addr w) := next_addr w]> (decoders w) ∧
        decode_tiu_file file device w = (decode_tiu_bits (S (next_addr w)) bits, w') ∧
        decode_dma_file file device w = (decode_dma_bits (S (next_addr w)) bits, w'))).
Proof.
  unfold decode_tiu_file, decode_dma_file.
  split; [intros Hascii; by rewrite str_upper_idemp|]. split.
  - by intros e ->.
  - intros bits ->. split.
    + intros [HX H4].
      assert (Context_new (PyStr (str_upper device)) w
              = (Raise (ValueError_not_a_valid_Device (PyStr (str_upper device))), w))
        as ->; [|done].
      unfold Context_new.
      destruct (Device_call (PyStr (str_upper device))) as [d|e] eqn:Hcall.
      * apply Device_call_Ok in Hcall as [[= Hd]|[=]]. by destruct d.
      * rewrite (Context_init_Raise _ _ Hcall).
        by rewrite (Device_call_Raise _ _ Hcall).
    + intros Hdev Hkeys.
      assert (∃ d, Device_call (PyStr (str_upper device)) = Ok d) as [d Hcall].
      { destruct Hdev as [-> | ->]; [by exists BM1684X|by exists BM1684]. }
      destruct (Context_new (PyStr (str_upper device)) w) as [[c|e] w1] eqn:Hnew.
      2: { unfold Context_new in Hnew.
           by rewrite (Context_init_Ok _ _ Hcall) in Hnew. }
      destruct (decoder_of_new_context _ w w1 c Hkeys Hnew) as [Hself ->].
      eexists. split; [|split; [|split; reflexivity]]; done.
Qed.

Lemma decode_file_device_case_witness :
  @decode_tiu_file example_bits_decoder example_str_upper "cmd.tiu.bin" "bm1684x"
     example_world_files
  = @decode_tiu_file example_bits_decoder example_str_upper "cmd.tiu.bin" "BM1684X"
      example_world_files ∧
  @decode_dma_file example_bits_decoder example_str_upper "cmd.tiu.bin" "bm1684x"
     example_world_files
  = @decode_dma_file example_bits_decoder example_str_upper "cmd.tiu.bin" "BM1684X"
      example_world_files.
Proof.
  apply (@decode_file_device_case example_bits_decoder example_str_upper
           "cmd.tiu.bin" "bm1684x" example_world_files).
  reflexivity.
Defined.

(** The file of the example, decoded for a device named in lower case; a
    file that is missing; and a name with a sharp s, whose upper-case form
    has one character more. *)
Example decode_tiu_file_lower_case :
  (@decode_tiu_file example_bits_decoder example_str_upper "cmd.tiu.bin" "bm1684x"
     example_world_files).1
  = Ok (1%nat, [Byte.x01; Byte.x02]) ∧
  @decode_tiu_file example_bits_decoder example_str_upper "cmd.dma.bin" "bm1684x"
    example_world_files
  = (Raise (KeyError "cmd.dma.bin"), example_world_files) ∧
  @decode_tiu_file example_bits_decoder example_str_upper "cmd.tiu.bin"
    ("bm1684" +:+ String (ascii_of_nat 195) (String (ascii_of_nat 159) EmptyString))
    example_world_files
  = (Raise (ValueError_not_a_valid_Device (PyStr "BM1684SS")), example_world_files).
Proof. repeat split; reflexivity. Qed.
(** ** [tensor2memref]: when it returns, and what it raises *)

(** X9.  [tensor2memref] returns a memory reference exactly for a
    descriptor without height padding, with an element type code that
    [DType] accepts and with a first shape, and which, if its storage mode
    is packed (1 or 2), is on a [BM1684] context and has an element type
    whose byte size is not zero.  Otherwise the first check that fails, in
    the order padding, element type, device, byte size, shape, is the
    exception raised. *)
Theorem tensor2memref_returns_iff `{OpSupport} (c : Context) (t : Tensor) :
  ((∃ m, tensor2memref c t = Ok m) ↔
   pad_h t = 0 ∧ shape t ≠ [] ∧
   ∃ dt, DType (dtype t) = Ok dt ∧
         (st_mode t = 1 ∨ st_mode t = 2 →
          device (slots c) = BM1684 ∧ itemsize dt ≠ 0)) ∧
  (pad_h t = 0 →
   (∀ e, DType (dtype t) = Raise e → tensor2memref c t = Raise e) ∧
   (∀ dt, DType (dtype t) = Ok dt →
      (st_mode t = 1 ∨ st_mode t = 2 →
         (device (slots c) ≠ BM1684 →
          tensor2memref c t = Raise (AssertionError None)) ∧
         (device (slots c) = BM1684 → itemsize dt = 0 →
          tensor2memref c t = Raise ZeroDivisionError) ∧
         (device (slots c) = BM1684 → itemsize dt ≠ 0 → shape t = [] →
          tensor2memref c t = Raise IndexError)) ∧
      (st_mode t ≠ 1 ∧ st_mode t ≠ 2 → shape t = [] →
       tensor2memref c t = Raise IndexError))).
Proof.
  unfold tensor2memref, floordiv. split.
  - destruct (Z.eqb_spec (pad_h t) 0) as [Hpad|Hpad]; simpl.
    2: { split; [by intros [m ?]|]. by intros [? _]. }
    destruct (DType (dtype t)) as [dt|e]; simpl.
    2: { split; [by intros [m ?]|]. by intros (_ & _ & dt' & ? & _). }
    destruct (in_1_2 (st_mode t)) eqn:Hmode.
    + apply in_1_2_spec in Hmode.
      case_bool_decide as Hdev; simpl.
      2: { split; [by intros [m ?]|].
           intros (_ & _ & dt' & _ & Hp). by destruct (Hp Hmode). }
      destruct (Z.eqb_spec (itemsize dt) 0) as [Hsize|Hsize]; simpl.
      2: { destruct (shape t) as [|shape0 rest]; simpl.
           - split; [by intros [m ?]|]. by intros (_ & ? & _).
           - split; [|eauto]. intros _. split; [done|]. split; [done|].
             exists dt. split; [done|]. done. }
      split; [by intros [m ?]|].
      intros (_ & _ & dt' & [= <-] & Hp). by destruct (Hp Hmode).
    + assert (¬ (st_mode t = 1 ∨ st_mode t = 2)) as Hnot.
      { rewrite <-in_1_2_spec, Hmode. done. }
      destruct (shape t) as [|shape0 rest]; simpl.
      * split; [by intros [m ?]|]. by intros (_ & ? & _).
      * split; [|eauto]. intros _. split; [done|]. split; [done|].
        exists dt. split; [done|]. intros ?. done.
  - intros ->. simpl. split; [by intros e ->|].
    intros dt ->. simpl. split.
    + intros Hmode. apply in_1_2_spec in Hmode. rewrite Hmode. split; [|split].
      * intros Hdev. by rewrite bool_decide_eq_false_2.
      * intros Hdev ->. by rewrite bool_decide_eq_true_2.
      * intros Hdev Hsize ->. rewrite bool_decide_eq_true_2 by done. simpl.
        by destruct (Z.eqb_spec (itemsize dt) 0).
    + intros [H1 H2] ->.
      assert (in_1_2 (st_mode t) = false) as ->; [|done].
      apply not_true_is_false. rewrite in_1_2_spec. tauto.
Qed.

(** ** The two-file comparison with a format that has no formatter *)

(** X10.  [--format] takes [reg] and [bin], for which [unified_diff] has no
    formatter.  With two containers and such a format the comparison
    raises the [KeyError] of the first pair of subgraphs and prints
    nothing; only when one of the two streams has no subgraph, so that
    nothing is compared, it reports the files to be the same. *)
Theorem main_compare_unknown_format {A} `{Operation A} (bmodels0 bmodels1 : string)
    (N : Z) (format : string) (cmd_a cmd_b : list (list Z * list A)) :
  format ≠ "raw" → format ≠ "mlir" → format ≠ "bits" →
  main_compare bmodels0 bmodels1 N format cmd_a cmd_b =
    if decide (cmd_a = [] ∨ cmd_b = [])
    then mkOutcome [same_message bmodels0 bmodels1] (Ok 0)
    else mkOutcome [] (Raise (KeyError format)).
Proof.
  intros Hraw Hmlir Hbits.
  assert (fmt_op format = None) as Hfmt.
  { unfold fmt_op.
    destruct (String.eqb_spec format "raw"); [done|].
    destruct (String.eqb_spec format "mlir"); [done|].
    by destruct (String.eqb_spec format "bits"). }
  unfold main_compare.
  destruct cmd_a as [|[idx ops_a] cmd_a]; [by rewrite decide_True by auto|].
  destruct cmd_b as [|[idx' ops_b] cmd_b]; [by rewrite decide_True by auto|].
  rewrite decide_False by (intros [?|?]; done).
  cbn [zip zip_with foldl]. unfold compare_step at 2.
  rewrite unified_diff_raised, Hfmt. cbn [raised].
  assert (∀ pairs out is_same e,
            foldl (compare_step bmodels0 bmodels1 N format)
                  (out, is_same, Some e) pairs = (out, is_same, Some e)) as ->; [|done].
  induction pairs as [|pair pairs IH]; intros out is_same e; [done|]. simpl. apply IH.
Qed.

Lemma main_compare_unknown_format_witness :
  main_compare "a.bmodel" "b.bmodel" 3 "reg" example_stream_a example_stream_a
    = mkOutcome [] (Raise (KeyError "reg")) ∧
  main_compare "a.bmodel" "b.bmodel" 3 "bin" [] example_stream_a
    = mkOutcome [same_message "a.bmodel" "b.bmodel"] (Ok 0).
Proof.
  split.
  - apply (main_compare_unknown_format "a.bmodel" "b.bmodel" 3 "reg"
             example_stream_a example_stream_a); discriminate.
  - apply (main_compare_unknown_format "a.bmodel" "b.bmodel" 3 "bin"
             [] example_stream_a); discriminate.
Defined.

(** ** The matcher finds matches *)

Lemma equal_at_nil {A} (a b : list A) (i j k : Z) : k ≤ 0 → equal_at a b i j k.
Proof. intros Hk t Ht. lia. Qed.

Lemma equal_at_snoc {A} (a b : list A) (i j k : Z) (x : A) :
  0 ≤ k → equal_at a b i j k →
  a !! Z.to_nat (i + k) = Some x → b !! Z.to_nat (j + k) = Some x →
  equal_at a b i j (k + 1).
Proof.
  intros Hk Heq Ha Hb t Ht. destruct (decide (t = k)) as [->|Hne]; [eauto|].
  apply Heq. lia.
Qed.

Lemma equal_at_cons {A} (a b : list A) (i j k : Z) (x : A) :
  equal_at a b i j k →
  a !! Z.to_nat (i - 1) = Some x → b !! Z.to_nat (j - 1) = Some x →
  equal_at a b (i - 1) (j - 1) (k + 1).
Proof.
  intros Heq Ha Hb t Ht. destruct (decide (t = 0)) as [->|Hne].
  - rewrite !Z.add_0_r. eauto.
  - destruct (Heq (t - 1)) as (y & Hy1 & Hy2); [lia|].
    exists y. by replace (i - 1 + t) with (i + (t - 1)) by lia;
      replace (j - 1 + t) with (j + (t - 1)) by lia.
Qed.

Lemma equal_at_app {A} (a b : list A) (i j k k' : Z) :
  0 ≤ k → equal_at a b i j k → equal_at a b (i + k) (j + k) k' →
  equal_at a b i j (k + k').
Proof.
  intros Hk H1 H2 t Ht. destruct (decide (t < k)) as [Hlt|Hge].
  - apply H1. lia.
  - destruct (H2 (t - k)) as (y & Hy1 & Hy2); [lia|].
    exists y. by replace (i + t) with (i + k + (t - k)) by lia;
      replace (j + t) with (j + k + (t - k)) by lia.
Qed.

Lemma equal_at_inside {A} (a b : list A) (i j k i' j' k' : Z) :
  equal_at a b i j k → i ≤ i' → i' - i = j' - j → i' + k' ≤ i + k →
  equal_at a b i' j' k'.
Proof.
  intros Heq Hi Hj Hk t Ht. destruct (Heq (i' - i + t)) as (y & Hy1 & Hy2); [lia|].
  exists y. by replace (i' + t) with (i + (i' - i + t)) by lia;
    replace (j' + t) with (j + (i' - i + t)) by lia.
Qed.

Section sound.
Context {A : Type} `{Countable A} (m : SequenceMatcher A).
Hypothesis Hb2j :
  ∀ x js j, b2j m !! x = Some js → j ∈ js →
            0 ≤ j ∧ sm_b m !! Z.to_nat j = Some x.

Lemma scan_row_sound (i alo blo bhi : Z) (prev : gmap Z Z) (x : A) :
  0 ≤ alo → 0 ≤ blo → alo ≤ i →
  sm_a m !! Z.to_nat i = Some x →
  table_in alo blo (i - 1) prev → table_sound (sm_a m) (sm_b m) (i - 1) prev →
  ∀ (js : list Z) (best : Match) (new : gmap Z Z),
    (∀ j, j ∈ js → 0 ≤ j ∧ sm_b m !! Z.to_nat j = Some x) →
    equal_at (sm_a m) (sm_b m) best.1.1 best.1.2 best.2 →
    table_sound (sm_a m) (sm_b m) i new →
    equal_at (sm_a m) (sm_b m)
             (scan_row i blo bhi prev js best new).1.1.1
             (scan_row i blo bhi prev js best new).1.1.2
             (scan_row i blo bhi prev js best new).1.2 ∧
    table_sound (sm_a m) (sm_b m) i (scan_row i blo bhi prev js best new).2.
Proof.
  intros Halo Hblo Hi Hx Hin Hprev js.
  induction js as [|j js IH]; intros best new Hjs Hbest Hnew; simpl; [done|].
  assert (∀ j', j' ∈ js → 0 ≤ j' ∧ sm_b m !! Z.to_nat j' = Some x) as Hjs'
    by (intros j' Hj'; apply Hjs; by right).
  destruct (Z.ltb_spec j blo) as [Hjlo|Hjlo]; [by apply IH|].
  destruct (Z.leb_spec bhi j) as [Hjhi|Hjhi]; [done|].
  destruct (Hjs j) as [Hj0 Hbj]; [left|].
  set (k := default 0 (prev !! (j - 1)) + 1).
  assert (1 ≤ k ∧ equal_at (sm_a m) (sm_b m) (i - k + 1) (j - k + 1) k) as [Hk0 Hk].
  { unfold k. destruct (prev !! (j - 1)) as [v|] eqn:Hv; simpl.
    - destruct (Hprev _ _ Hv) as [Hv0 Heq]. split; [lia|].
      replace (i - (v + 1) + 1) with (i - 1 - v + 1) by lia.
      replace (j - (v + 1) + 1) with (j - 1 - v + 1) by lia.
      apply equal_at_snoc with x; [lia|done|..].
      + by replace (i - 1 - v + 1 + v) with i by lia.
      + by replace (j - 1 - v + 1 + v) with j by lia.
    - split; [lia|].
      intros t Ht. exists x. replace t with 0 by lia.
      by replace (i - (0 + 1) + 1 + 0) with i by lia;
        replace (j - (0 + 1) + 1 + 0) with j by lia. }
  apply IH; [done| |].
  - destruct best as [[bi bj] bs]. simpl in *.
    destruct (Z.ltb_spec bs k); simpl; [|done]. done.
  - intros j' v Hv. rewrite lookup_insert in Hv. case_decide; subst.
    + injection Hv as <-. done.
    + by apply Hnew.
Qed.

Lemma scan_rows_sound (alo ahi blo bhi : Z) (N : nat) :
  0 ≤ alo → alo + Z.of_nat N ≤ Z.of_nat (length (sm_a m)) → 0 ≤ blo → blo ≤ bhi →
  ∃ best j2len,
    foldl (scan_step m blo bhi) (Some ((alo, blo, 0), ∅)) (seqZ alo (Z.of_nat N))
      = Some (best, j2len) ∧
    block_in best (alo, alo + Z.of_nat N, blo, bhi) ∧
    equal_at (sm_a m) (sm_b m) best.1.1 best.1.2 best.2 ∧
    table_in alo blo (alo + Z.of_nat N - 1) j2len ∧
    table_sound (sm_a m) (sm_b m) (alo + Z.of_nat N - 1) j2len.
Proof.
  intros Halo HN Hblo Hb. induction N as [|N IH].
  - exists (alo, blo, 0), ∅. split; [done|]. split; [simpl; lia|].
    split; [by apply equal_at_nil|].
    split; intros j v Hv; by rewrite lookup_empty in Hv.
  - destruct IH as (best & j2len & Hfold & Hbest & Heq & Htable & Hsound); [lia|].
    rewrite seqZ_S, foldl_app, Hfold. simpl.
    set (i := alo + Z.of_nat N) in *.
    destruct (getitem_Some (sm_a m) i) as (x & Hget & Hx); [lia|].
    rewrite Hget. simpl.
    set (r := scan_row i blo bhi j2len (default [] (b2j m !! x)) best ∅).
    exists r.1, r.2. split; [by destruct r|]. subst r.
    replace (alo + Z.of_nat (S N)) with (i + 1) by lia.
    replace (i + 1 - 1) with i by lia.
    assert (block_in best (alo, i + 1, blo, bhi)) as Hbest'.
    { destruct best as [[bi bj] bs]. simpl in *. lia. }
    assert (table_in alo blo i (∅ : gmap Z Z)) as Hempty
      by (intros j v Hv; by rewrite lookup_empty in Hv).
    destruct (scan_row_bounds i alo blo bhi j2len ltac:(lia) Htable
                (default [] (b2j m !! x)) best ∅ Hbest' Hempty) as [Hb1 Hb2].
    destruct (scan_row_sound i alo blo bhi j2len x Halo Hblo ltac:(lia) Hx Htable Hsound
                (default [] (b2j m !! x)) best ∅) as [Hs1 Hs2].
    + intros j Hj. destruct (b2j m !! x) as [js|] eqn:Hjs; simpl in Hj.
      * by apply (Hb2j x js).
      * by apply elem_of_nil in Hj.
    + done.
    + intros j v Hv. by rewrite lookup_empty in Hv.
    + done.
Qed.

Lemma extend_left_sound (junk : bool) (s : span) (turns : nat) :
  valid_span m s →
  ∀ best, block_in best s →
    equal_at (sm_a m) (sm_b m) best.1.1 best.1.2 best.2 →
    ∃ best', extend_left turns m junk s.1.1.1 s.1.2 best = Some best' ∧
             block_in best' s ∧
             equal_at (sm_a m) (sm_b m) best'.1.1 best'.1.2 best'.2.
Proof.
  destruct s as [[[alo ahi] blo] bhi]. intros Hs. simpl in Hs.
  induction turns as [|turns IH]; intros [[bi bj] bs] Hbest Heq; simpl; [eauto|].
  simpl in Hbest, Heq.
  destruct (Z.ltb_spec alo bi) as [Hbi|]; [|eauto].
  destruct (Z.ltb_spec blo bj) as [Hbj|]; [|eauto]. simpl.
  destruct (getitem_Some (sm_b m) (bj - 1)) as (y & -> & Hy); [lia|]. simpl.
  case_bool_decide; [|eauto].
  destruct (getitem_Some (sm_a m) (bi - 1)) as (x & -> & Hx); [lia|]. simpl.
  case_bool_decide as Hxy; [|eauto]. subst y.
  apply IH; [simpl; lia|]. simpl. by apply equal_at_cons with x.
Qed.

Lemma extend_right_sound (junk : bool) (s : span) (turns : nat) :
  valid_span m s →
  ∀ best, block_in best s →
    equal_at (sm_a m) (sm_b m) best.1.1 best.1.2 best.2 →
    ∃ best', extend_right turns m junk s.1.1.2 s.2 best = Some best' ∧
             block_in best' s ∧
             equal_at (sm_a m) (sm_b m) best'.1.1 best'.1.2 best'.2.
Proof.
  destruct s as [[[alo ahi] blo] bhi]. intros Hs. simpl in Hs.
  induction turns as [|turns IH]; intros [[bi bj] bs] Hbest Heq; simpl; [eauto|].
  simpl in Hbest, Heq.
  destruct (Z.ltb_spec (bi + bs) ahi) as [Hbi|]; [|eauto].
  destruct (Z.ltb_spec (bj + bs) bhi) as [Hbj|]; [|eauto]. simpl.
  destruct (getitem_Some (sm_b m) (bj + bs)) as (y & -> & Hy); [lia|]. simpl.
  case_bool_decide; [|eauto].
  destruct (getitem_Some (sm_a m) (bi + bs)) as (x & -> & Hx); [lia|]. simpl.
  case_bool_decide as Hxy; [|eauto]. subst y.
  apply IH; [simpl; lia|]. simpl. apply equal_at_snoc with x; [lia|done..].
Qed.

(** [find_longest_match] returns a block of equal elements inside the span
    it is given. *)
Lemma find_longest_match_sound (alo ahi blo bhi : Z) :
  valid_span m (alo, ahi, blo, bhi) →
  ∃ x, find_longest_match m alo ahi blo bhi = Some x ∧
       block_in x (alo, ahi, blo, bhi) ∧
       equal_at (sm_a m) (sm_b m) x.1.1 x.1.2 x.2.
Proof.
  intros Hs. pose proof Hs as Hs'. simpl in Hs'.
  unfold find_longest_match, scan_rows.
  destruct (scan_rows_sound alo ahi blo bhi (Z.to_nat (ahi - alo)))
    as (best & j2len & Hfold & Hbest & Heq & _); [lia..|].
  rewrite Z2Nat.id in Hfold by lia. rewrite Hfold. simpl.
  replace (alo + Z.of_nat (Z.to_nat (ahi - alo))) with ahi in Hbest by lia.
  destruct (extend_left_sound false _ (Z.to_nat (best.1.1 - alo)) Hs best Hbest Heq)
    as (best1 & Heq1 & Hbest1 & Hs1). simpl in Heq1. rewrite Heq1. simpl.
  destruct (extend_right_sound false _ (Z.to_nat (ahi - (best1.1.1 + best1.2))) Hs
              best1 Hbest1 Hs1) as (best2 & Heq2 & Hbest2 & Hs2).
  simpl in Heq2. rewrite Heq2. simpl.
  destruct (extend_left_sound true _ (Z.to_nat (best2.1.1 - alo)) Hs best2 Hbest2 Hs2)
    as (best3 & Heq3 & Hbest3 & Hs3). simpl in Heq3. rewrite Heq3. simpl.
  apply (extend_right_sound true _ _ Hs best3 Hbest3 Hs3).
Qed.
End sound.

(** ** The matching blocks are ordered *)

Lemma StronglySorted_cons_iff {X} (R : relation X) (x : X) (l : list X) :
  StronglySorted R (x :: l) ↔ Forall (R x) l ∧ StronglySorted R l.
Proof.
  split.
  - intros Hs. by apply StronglySorted_inv in Hs as [??].
  - intros [??]. by constructor.
Qed.

Lemma StronglySorted_app_iff {X} (R : relation X) (l1 l2 : list X) :
  StronglySorted R (l1 ++ l2) ↔
  StronglySorted R l1 ∧ StronglySorted R l2 ∧ ∀ x y, x ∈ l1 → y ∈ l2 → R x y.
Proof.
  induction l1 as [|x l1 IH]; simpl.
  - split; [|tauto]. intros Hs. split; [constructor|]. split; [done|].
    intros x y Hx. by apply elem_of_nil in Hx.
  - rewrite !StronglySorted_cons_iff, IH, Forall_app, !Forall_forall. split.
    + intros ((Hx1 & Hx2) & Hs1 & Hs2 & Hcross). split; [done|]. split; [done|].
      intros x' y [->|Hx']%elem_of_cons Hy; auto.
    + intros ((Hx1 & Hs1) & Hs2 & Hcross). split; [|split; [done|split; [done|]]].
      * split; [done|]. intros y Hy. apply Hcross; [left|done].
      * intros x' y Hx' Hy. apply Hcross; [by right|done].
Qed.

Lemma StronglySorted_perm {X} (R : relation X) `{!Symmetric R} (l l' : list X) :
  l ≡ₚ l' → StronglySorted R l → StronglySorted R l'.
Proof.
  induction 1 as [|x l l' Hperm IH|x y l|l l' l'' _ IH1 _ IH2].
  - done.
  - rewrite !StronglySorted_cons_iff. intros [Hx Hs]. split; [by rewrite <-Hperm|auto].
  - rewrite !StronglySorted_cons_iff, !Forall_cons.
    intros ((Hyx & Hy) & Hx & Hs). split; [|done]. split; [|done]. by symmetry.
  - auto.
Qed.

Global Instance apart_symmetric : Symmetric apart.
Proof. intros r s [?|?]; [right|left]; done. Qed.

Lemma apart_inside (r s t : span) : inside r s → apart s t → apart r t.
Proof.
  destruct r as [[[r1 r2] r3] r4], s as [[[s1 s2] s3] s4], t as [[[t1 t2] t3] t4].
  unfold inside, apart, rect_before. simpl. lia.
Qed.

Lemma step_apart (s : span) (rest news : list span) :
  StronglySorted apart (s :: rest) → Forall (λ r, inside r s) news →
  StronglySorted apart news → StronglySorted apart (news ++ rest).
Proof.
  intros [Hs Hrest]%StronglySorted_cons_iff Hin Hnews.
  apply StronglySorted_app_iff. split; [done|]. split; [done|].
  intros x y Hx Hy. rewrite Forall_forall in Hin, Hs.
  eapply apart_inside; eauto.
Qed.

Section blocks.
Context {A : Type} `{Countable A} (m : SequenceMatcher A).
Hypothesis Hb2j :
  ∀ x js j, b2j m !! x = Some js → j ∈ js →
            0 ≤ j ∧ sm_b m !! Z.to_nat j = Some x.

Lemma matching_loop_sound (turns : nat) :
  ∀ (queue : list span) (acc blocks : list Match),
    Forall (valid_span m) queue →
    Forall (λ x, sound_block (sm_a m) (sm_b m) x ∧ 0 < x.2) acc →
    StronglySorted apart (queue ++ (rect_of <$> acc)) →
    matching_loop turns m queue acc = Some blocks →
    Forall (λ x, sound_block (sm_a m) (sm_b m) x ∧ 0 < x.2) blocks ∧
    StronglySorted apart (rect_of <$> blocks).
Proof.
  induction turns as [|turns IH]; intros queue acc blocks Hvalid Hacc Hsorted Hloop.
  - destruct queue as [|[[[alo ahi] blo] bhi] queue]; simpl in Hloop; [|done].
    by injection Hloop as <-.
  - destruct queue as [|[[[alo ahi] blo] bhi] queue]; simpl in Hloop.
    { by injection Hloop as <-. }
    inversion Hvalid as [|?? Hs Hq]; subst.
    destruct (find_longest_match_sound m Hb2j alo ahi blo bhi Hs)
      as ([[i j] k] & Hflm & Hin & Heq).
    rewrite Hflm in Hloop. simpl in Hloop, Hin, Heq, Hs.
    destruct (Z.eqb_spec k 0) as [Hk0|Hk].
    + apply (IH queue acc blocks); try done.
      simpl in Hsorted. by apply StronglySorted_cons_iff in Hsorted as [_ ?].
    + revert Hloop. apply IH.
      * destruct ((alo <? i) && (blo <? j)) eqn:Hl,
                 ((i + k <? ahi) && (j + k <? bhi)) eqn:Hr;
          repeat constructor; simpl; try done; lia.
      * apply Forall_app. split; [done|]. constructor; [|done].
        split; [|simpl; lia]. split; simpl; [lia|done].
      * set (left := if (alo <? i) && (blo <? j) then [(alo, i, blo, j)] else []).
        set (right := if (i + k <? ahi) && (j + k <? bhi)
                      then [(i + k, ahi, j + k, bhi)] else []).
        eapply (StronglySorted_perm _
                  ((right ++ left ++ [rect_of (i, j, k)])
                   ++ (queue ++ (rect_of <$> acc)))).
        { rewrite fmap_app. subst left right.
          destruct ((alo <? i) && (blo <? j)), ((i + k <? ahi) && (j + k <? bhi));
            simpl; solve_Permutation. }
        apply (step_apart (alo, ahi, blo, bhi)); [done| |].
        -- subst left right.
           destruct ((alo <? i) && (blo <? j)), ((i + k <? ahi) && (j + k <? bhi));
             repeat constructor; unfold inside; simpl; lia.
        -- subst left right.
           destruct ((alo <? i) && (blo <? j)), ((i + k <? ahi) && (j + k <? bhi));
             repeat constructor; unfold apart, rect_before; simpl; lia.
Qed.

End blocks.

(** Sorting the blocks puts them in the order of the two lists. *)

Lemma elem_of_insert_sorted (x y : Match) (l : list Match) :
  y ∈ insert_sorted x l ↔ y = x ∨ y ∈ l.
Proof.
  induction l as [|z l IH]; simpl.
  - rewrite list_elem_of_singleton, elem_of_nil. tauto.
  - destruct (Match_leb x z).
    + by rewrite elem_of_cons.
    + rewrite !elem_of_cons, IH. tauto.
Qed.

Lemma elem_of_sort (y : Match) (l : list Match) : y ∈ sort l ↔ y ∈ l.
Proof.
  induction l as [|x l IH]; simpl; [done|].
  by rewrite elem_of_insert_sorted, elem_of_cons, IH.
Qed.

Lemma before_trans (x y z : Match) : 0 ≤ y.2 → before x y → before y z → before x z.
Proof.
  destruct x as [[??]?], y as [[??]?], z as [[??]?].
  unfold before, rect_before. simpl. lia.
Qed.

Lemma insert_sorted_chain (x : Match) (l : list Match) :
  0 < x.2 → Forall (λ y, 0 < y.2) l →
  Forall (λ y, apart (rect_of x) (rect_of y)) l →
  StronglySorted before l → StronglySorted before (insert_sorted x l).
Proof.
  intros Hx. induction l as [|y l IH]; intros Hpos Hapart Hsorted; simpl.
  - repeat constructor.
  - apply Forall_cons in Hpos as [Hy Hpos]. apply Forall_cons in Hapart as [Hxy Hapart].
    apply StronglySorted_cons_iff in Hsorted as [Hyl Hsorted].
    destruct (Match_leb x y) eqn:Hleb.
    + assert (before x y) as Hbefore.
      { destruct x as [[i1 j1] k1], y as [[i2 j2] k2].
        unfold apart, before, rect_before in *. simpl in *. lia. }
      constructor; [by constructor|]. constructor; [done|].
      eapply Forall_impl; [exact Hyl|]. intros z Hz. simpl in Hz.
      eapply before_trans; [|done..]. lia.
    + assert (before y x) as Hbefore.
      { destruct x as [[i1 j1] k1], y as [[i2 j2] k2].
        unfold apart, before, rect_before in *. simpl in *. lia. }
      constructor; [by apply IH|].
      apply Forall_forall. intros z [->|Hz]%elem_of_insert_sorted; [done|].
      rewrite Forall_forall in Hyl. auto.
Qed.

Lemma sort_chain (l : list Match) :
  Forall (λ y, 0 < y.2) l → StronglySorted apart (rect_of <$> l) →
  StronglySorted before (sort l).
Proof.
  induction l as [|x l IH]; intros Hpos Hsorted; simpl; [constructor|].
  apply Forall_cons in Hpos as [Hx Hpos]. rewrite fmap_cons in Hsorted.
  apply StronglySorted_cons_iff in Hsorted as [Hxl Hsorted].
  apply insert_sorted_chain; [done| | |by apply IH].
  - apply Forall_forall. intros y Hy. apply (proj1 (elem_of_sort _ _)) in Hy.
    rewrite Forall_forall in Hpos. auto.
  - apply Forall_forall. intros y Hy. apply (proj1 (elem_of_sort _ _)) in Hy.
    rewrite Forall_forall in Hxl. apply Hxl. by apply list_elem_of_fmap_2.
Qed.

(** Merging adjacent blocks keeps them sound and in order. *)
Lemma collapse_sound {A} (a b : list A) (l : list Match) :
  Forall (sound_block a b) l → StronglySorted before l →
  Forall (sound_block a b) (collapse l) ∧ StronglySorted before (collapse l).
Proof.
  intros Hsound Hsorted.
  assert (∀ i1 j1 k1 na,
            sound_block a b (i1, j1, k1) →
            Forall (sound_block a b) na → StronglySorted before na →
            Forall (λ y, before y (i1, j1, k1)) na →
            Forall (before (i1, j1, k1)) l →
            let '(i1', j1', k1', na') :=
              foldl (λ '(i1, j1, k1, non_adjacent) '(i2, j2, k2),
                       if (i1 + k1 =? i2) && (j1 + k1 =? j2) then
                         (i1, j1, k1 + k2, non_adjacent)
                       else
                         (i2, j2, k2,
                          if k1 =? 0 then non_adjacent
                          else non_adjacent ++ [(i1, j1, k1)]))
                    (i1, j1, k1, na) l in
            sound_block a b (i1', j1', k1') ∧
            Forall (sound_block a b) na' ∧ StronglySorted before na' ∧
            Forall (λ y, before y (i1', j1', k1')) na') as Hfold.
  { clear -Hsound Hsorted.
    induction l as [|[[i2 j2] k2] l IH]; intros i1 j1 k1 na Hcur Hna Hnas Hnab Hcl;
      simpl; [done|].
    apply Forall_cons in Hsound as [Hnext Hsound].
    apply StronglySorted_cons_iff in Hsorted as [Hnl Hsorted].
    apply Forall_cons in Hcl as [Hcn Hcl].
    pose proof Hcur as Hcur'. pose proof Hnext as Hnext'.
    destruct Hcur as [Hcin Hceq], Hnext as [Hnin Hneq]. simpl in Hcin, Hceq, Hnin, Hneq.
    destruct (Z.eqb_spec (i1 + k1) i2) as [Hi|Hi];
      [destruct (Z.eqb_spec (j1 + k1) j2) as [Hj|Hj]|]; simpl.
    - apply IH; try done.
      + split; simpl; [lia|]. subst i2 j2. by apply equal_at_app; [lia|..].
      + eapply Forall_impl; [exact Hnl|]. intros [[i3 j3] k3].
        unfold before, rect_before. simpl. lia.
    - apply IH; try done.
      + destruct (k1 =? 0); [done|]. apply Forall_app. split; [done|].
        by apply Forall_singleton.
      + destruct (k1 =? 0); [done|]. apply StronglySorted_app_iff.
        split; [done|]. split; [repeat constructor|].
        intros x y Hx ->%list_elem_of_singleton. rewrite Forall_forall in Hnab. auto.
      + assert (Forall (λ y, before y (i2, j2, k2)) na) as Hna2.
        { eapply Forall_impl; [exact Hnab|]. intros y Hy. simpl in Hy.
          eapply (before_trans _ (i1, j1, k1)); [simpl; lia|done..]. }
        destruct (k1 =? 0); [done|]. apply Forall_app. split; [done|].
        by apply Forall_singleton.
    - apply IH; try done.
      + destruct (k1 =? 0); [done|]. apply Forall_app. split; [done|].
        by apply Forall_singleton.
      + destruct (k1 =? 0); [done|]. apply StronglySorted_app_iff.
        split; [done|]. split; [repeat constructor|].
        intros x y Hx ->%list_elem_of_singleton. rewrite Forall_forall in Hnab. auto.
      + assert (Forall (λ y, before y (i2, j2, k2)) na) as Hna2.
        { eapply Forall_impl; [exact Hnab|]. intros y Hy. simpl in Hy.
          eapply (before_trans _ (i1, j1, k1)); [simpl; lia|done..]. }
        destruct (k1 =? 0); [done|]. apply Forall_app. split; [done|].
        by apply Forall_singleton. }
  specialize (Hfold 0 0 0 []).
  assert (sound_block a b (0, 0, 0)) as H0.
  { split; simpl; [lia|]. by apply equal_at_nil. }
  assert (Forall (before (0, 0, 0)) l) as Hl.
  { eapply Forall_impl; [exact Hsound|]. intros [[i j] k] [Hin _].
    unfold before, rect_before. simpl in *. lia. }
  specialize (Hfold H0 (Forall_nil_2 _) (SSorted_nil _) (Forall_nil_2 _) Hl).
  match type of Hfold with
  | context [foldl ?f ?s l] =>
      change (collapse l)
        with (let '(i1, j1, k1, non_adjacent) := foldl f s l in
              if k1 =? 0 then non_adjacent else non_adjacent ++ [(i1, j1, k1)]);
      destruct (foldl f s l) as [[[i1 j1] k1] na]
  end.
  destruct Hfold as (Hcur & Hna & Hnas & Hnab).
  destruct (k1 =? 0); [done|]. split.
  - apply Forall_app. split; [done|]. by apply Forall_singleton.
  - apply StronglySorted_app_iff. split; [done|]. split; [repeat constructor|].
    intros x y Hx ->%list_elem_of_singleton. rewrite Forall_forall in Hnab. auto.
Qed.

(** [get_matching_blocks] returns blocks of equal elements, in the order
    of the two lists, and the closing block of length 0. *)
Lemma get_matching_blocks_sound {A} `{Countable A} (a b : list A) :
  ∃ blocks,
    get_matching_blocks (new_SequenceMatcher a b)
      = Some (blocks ++ [(Z.of_nat (length a), Z.of_nat (length b), 0)]) ∧
    Forall (sound_block a b) blocks ∧ StronglySorted before blocks.
Proof.
  set (m := new_SequenceMatcher a b).
  assert (sm_a m = a) as Ha by apply new_SequenceMatcher_a.
  assert (sm_b m = b) as Hb by apply new_SequenceMatcher_b.
  assert (∀ x js j, b2j m !! x = Some js → j ∈ js →
                    0 ≤ j ∧ sm_b m !! Z.to_nat j = Some x) as Hb2j.
  { intros x js j Hjs Hj. unfold m in Hjs. rewrite new_SequenceMatcher_b2j in Hjs.
    apply chain_b_lookup in Hjs as [-> _].
    apply elem_of_occurrences in Hj as [Hj0 Hj]. rewrite Z.sub_0_r in Hj.
    by rewrite Hb. }
  unfold get_matching_blocks.
  destruct (matching_loop_returns m (2 * length (sm_a m) + 1)
              [(0, Z.of_nat (length (sm_a m)), 0, Z.of_nat (length (sm_b m)))] [])
    as [blocks Hloop]; [repeat constructor; lia|simpl; lia|].
  rewrite Hloop. simpl.
  destruct (matching_loop_sound m Hb2j (2 * length (sm_a m) + 1)
              [(0, Z.of_nat (length (sm_a m)), 0, Z.of_nat (length (sm_b m)))]
              [] blocks) as [Hsound Hsorted]; [| |repeat constructor|done|].
  { repeat constructor; lia. }
  { constructor. }
  rewrite Ha, Hb in *.
  exists (collapse (sort blocks)). split; [done|].
  apply collapse_sound.
  - apply Forall_forall. intros x Hx. apply (proj1 (elem_of_sort _ _)) in Hx.
    rewrite Forall_forall in Hsound. by apply Hsound.
  - apply sort_chain; [|done].
    eapply Forall_impl; [exact Hsound|]. by intros x [_ ?].
Qed.

(** ** The opcodes lead from the first list to the second *)

Lemma tiling_app {A} (a b : list A) (i j im jm ie je : Z) (l1 l2 : list opcode) :
  tiling a b i j im jm l1 → tiling a b im jm ie je l2 →
  tiling a b i j ie je (l1 ++ l2).
Proof.
  revert i j. induction l1 as [|[[[[tag i1] i2] j1] j2] l1 IH]; intros i j; simpl.
  - by intros [-> ->].
  - intros (-> & -> & Hi & Hj & Htag & Hrest) H2. repeat (split; [done|]). by apply IH.
Qed.

Lemma tiling_le {A} (a b : list A) (i j ie je : Z) (codes : list opcode) :
  tiling a b i j ie je codes → i ≤ ie ∧ j ≤ je.
Proof.
  revert i j. induction codes as [|[[[[tag i1] i2] j1] j2] codes IH]; intros i j; simpl.
  - intros [-> ->]. lia.
  - intros (-> & -> & Hi & Hj & _ & Hrest). apply IH in Hrest. lia.
Qed.

Lemma opcodes_of_tiling {A} (a b : list A) (blocks : list Match) :
  Forall (sound_block a b) blocks → StronglySorted before blocks →
  tiling a b 0 0 (Z.of_nat (length a)) (Z.of_nat (length b))
         (opcodes_of (blocks ++ [(Z.of_nat (length a), Z.of_nat (length b), 0)])).
Proof.
  intros Hsound Hsorted.
  set (la := Z.of_nat (length a)). set (lb := Z.of_nat (length b)).
  assert (∀ l i j answer,
            tiling a b 0 0 i j answer →
            Forall (λ x : Match, block_in x (0, la, 0, lb) ∧
                                 equal_at a b x.1.1 x.1.2 x.2 ∧
                                 i ≤ x.1.1 ∧ j ≤ x.1.2) l →
            StronglySorted before l →
            let '(i', j', answer') :=
              foldl (λ '(i, j, answer) '(ai, bj, size),
                       let answer :=
                         if (i <? ai) && (j <? bj)
                         then answer ++ [(tag_replace, i, ai, j, bj)]
                         else if i <? ai then answer ++ [(tag_delete, i, ai, j, bj)]
                         else if j <? bj then answer ++ [(tag_insert, i, ai, j, bj)]
                         else answer in
                       let i' := ai + size in
                       let j' := bj + size in
                       (i', j',
                        if size =? 0 then answer
                        else answer ++ [(tag_equal, ai, i', bj, j')]))
                    (i, j, answer) l in
            tiling a b 0 0 i' j' answer' ∧
            (l = [] ∧ i' = i ∧ j' = j ∨
             ∃ x, last l = Some x ∧ i' = x.1.1 + x.2 ∧ j' = x.1.2 + x.2)) as Hfold.
  { induction l as [|[[ai bj] size] l IH]; intros i j answer Hans Hl Hs.
    { simpl. split; [done|]. by left. }
    apply Forall_cons in Hl as [(Hin & Heq & Hi & Hj) Hl]. simpl in Hin, Heq, Hi, Hj.
    apply StronglySorted_cons_iff in Hs as [Hxl Hs].
    set (answer1 := if (i <? ai) && (j <? bj)
                    then answer ++ [(tag_replace, i, ai, j, bj)]
                    else if i <? ai then answer ++ [(tag_delete, i, ai, j, bj)]
                    else if j <? bj then answer ++ [(tag_insert, i, ai, j, bj)]
                    else answer).
    assert (tiling a b 0 0 ai bj answer1) as Hans1.
    { subst answer1.
      destruct (Z.ltb_spec i ai), (Z.ltb_spec j bj); simpl.
      - eapply tiling_app; [done|]. simpl. repeat split; lia.
      - eapply tiling_app; [done|]. simpl. repeat split; lia.
      - eapply tiling_app; [done|]. simpl. repeat split; lia.
      - by replace ai with i by lia; replace bj with j by lia. }
    set (answer2 := if size =? 0 then answer1
                    else answer1 ++ [(tag_equal, ai, ai + size, bj, bj + size)]).
    assert (tiling a b 0 0 (ai + size) (bj + size) answer2) as Hans2.
    { subst answer2. destruct (Z.eqb_spec size 0) as [->|Hsize].
      - by rewrite !Z.add_0_r.
      - eapply tiling_app; [done|]. simpl.
        replace (ai + size - ai) with size by lia. repeat split; try lia. done. }
    specialize (IH (ai + size) (bj + size) answer2 Hans2).
    match goal with
    | |- context [foldl ?f (i, j, answer) ((ai, bj, size) :: l)] =>
        change (foldl f (i, j, answer) ((ai, bj, size) :: l))
          with (foldl f (ai + size, bj + size, answer2) l)
    end.
    match type of IH with
    | context [foldl ?f ?s l] => destruct (foldl f s l) as [[i' j'] answer'] eqn:Ht
    end.
    destruct IH as [Htil Hend]; [|done|].
    { rewrite Forall_forall in Hl, Hxl. apply Forall_forall. intros [[i3 j3] k3] H3.
      destruct (Hl _ H3) as (? & ? & _). specialize (Hxl _ H3).
      unfold before, rect_before in Hxl. simpl in *. done. }
    split; [done|]. right.
    destruct Hend as [(-> & -> & ->)|(x & Hlast & -> & ->)].
    - exists (ai, bj, size). done.
    - exists x. split; [|done]. destruct l; [done|]. done. }
  specialize (Hfold (blocks ++ [(la, lb, 0)]) 0 0 []).
  match type of Hfold with
  | context [foldl ?f ?s ?l] =>
      change (opcodes_of (blocks ++ [(la, lb, 0)])) with (foldl f s l).2;
      destruct (foldl f s l) as [[i' j'] answer']
  end.
  destruct Hfold as [Htil Hend]; [done| | |].
  - apply Forall_app. split.
    + eapply Forall_impl; [exact Hsound|]. intros [[i j] k] [Hin Heq].
      split; [done|]. split; [done|]. simpl in *. lia.
    + apply Forall_singleton. split; [simpl; lia|]. split; [by apply equal_at_nil|].
      simpl. lia.
  - apply StronglySorted_app_iff. split; [done|]. split; [repeat constructor|].
    intros x y Hx ->%list_elem_of_singleton. rewrite Forall_forall in Hsound.
    destruct (Hsound _ Hx) as [Hin _]. destruct x as [[i j] k].
    unfold before, rect_before. simpl in *. lia.
  - destruct Hend as [(Hnil & _)|(x & Hlast & -> & ->)].
    { by destruct blocks. }
    rewrite last_snoc in Hlast. injection Hlast as <-. simpl.
    by rewrite !Z.add_0_r in Htil.
Qed.

(** [get_opcodes]: the opcodes lead from the start of both lists to their
    end. *)
Lemma get_opcodes_tiling {A} `{Countable A} (a b : list A) :
  ∃ codes, get_opcodes (new_SequenceMatcher a b) = Some codes ∧
           tiling a b 0 0 (Z.of_nat (length a)) (Z.of_nat (length b)) codes.
Proof.
  destruct (get_matching_blocks_sound a b) as (blocks & Hblocks & Hsound & Hsorted).
  unfold get_opcodes. rewrite Hblocks. simpl. eexists. split; [done|].
  by apply opcodes_of_tiling.
Qed.

(** ** The groups cover what differs *)

Lemma gap_refl {A} (a b : list A) (i j : Z) : gap a b i j i j.
Proof. split; [lia|]. split; [lia|]. apply equal_at_nil. lia. Qed.

Lemma gap_trans {A} (a b : list A) (i j i1 j1 i2 j2 : Z) :
  gap a b i j i1 j1 → gap a b i1 j1 i2 j2 → gap a b i j i2 j2.
Proof.
  intros (Hi & Hj & Heq) (Hi' & Hj' & Heq').
  split; [lia|]. split; [lia|].
  replace (i2 - i) with ((i1 - i) + (i2 - i1)) by lia.
  apply equal_at_app; [lia|done|].
  by replace (i + (i1 - i)) with i1 by lia; replace (j + (i1 - i)) with j1 by lia.
Qed.

Lemma tiling_app_inv {A} (a b : list A) (i j ie je : Z) (l1 l2 : list opcode) :
  tiling a b i j ie je (l1 ++ l2) →
  ∃ im jm, tiling a b i j im jm l1 ∧ tiling a b im jm ie je l2.
Proof.
  revert i j. induction l1 as [|[[[[tag i1] i2] j1] j2] l1 IH]; intros i j; simpl.
  - intros Hl2. by exists i, j.
  - intros (-> & -> & Hi & Hj & Htag & Hrest).
    destruct (IH _ _ Hrest) as (im & jm & H1 & H2).
    exists im, jm. by repeat (split; [done|]).
Qed.

Lemma tiling_hunk_range {A} (a b : list A) (i j ie je : Z) (group : list opcode) :
  group ≠ [] → tiling a b i j ie je group → hunk_range group = Some (i, ie, j, je).
Proof.
  intros Hne Htil. destruct group as [|c group _] using rev_ind; [done|].
  apply tiling_app_inv in Htil as (im & jm & H1 & H2).
  destruct c as [[[[tag i1] i2] j1] j2]. simpl in H2.
  destruct H2 as (-> & -> & _ & _ & _ & -> & ->).
  unfold hunk_range. rewrite last_snoc.
  destruct group as [|[[[[tag' i1'] i2'] j1'] j2'] group]; simpl in *.
  - by destruct H1 as [-> ->].
  - by destruct H1 as (-> & -> & _).
Qed.

Lemma covers_gap {A} (a b : list A) (i j ie je ie' je' : Z) groups :
  covers a b i j ie je groups → gap a b ie je ie' je' →
  covers a b i j ie' je' groups.
Proof.
  revert i j. induction groups as [|g groups IH]; intros i j; simpl.
  - intros. by eapply gap_trans.
  - intros (gi & gi' & gj & gj' & Hr & Hgap & Htil & Hrest) Hend.
    exists gi, gi', gj, gj'. repeat (split; [done|]). by apply IH.
Qed.

Lemma covers_snoc {A} (a b : list A) (i j ci cj gi' gj' ie je : Z) groups group :
  covers a b i j ci cj groups → group ≠ [] → tiling a b ci cj gi' gj' group →
  gap a b gi' gj' ie je →
  covers a b i j ie je (groups ++ [group]).
Proof.
  intros Hcov Hne Htil Hend. revert i j Hcov.
  induction groups as [|g groups IH]; intros i j; simpl.
  - intros Hgap. exists ci, gi', cj, gj'.
    split; [by eapply tiling_hunk_range|]. done.
  - intros (gi & gi'' & gj & gj'' & Hr & Hgap & Htil' & Hrest).
    exists gi, gi'', gj, gj''. repeat (split; [done|]). by apply IH.
Qed.

Lemma fix_first_tiling {A} (a b : list A) (n i j ie je : Z) (codes : list opcode) :
  0 ≤ n → tiling a b i j ie je codes →
  ∃ gi gj, gap a b i j gi gj ∧ tiling a b gi gj ie je (fix_first n codes).
Proof.
  intros Hn Htil. destruct codes as [|[[[[tag i1] i2] j1] j2] codes].
  { exists i, j. split; [apply gap_refl|done]. }
  destruct tag; try (exists i, j; split; [apply gap_refl|done]).
  simpl in Htil. destruct Htil as (<- & <- & Hi & Hj & [Hlen Heq] & Hrest).
  exists (Z.max i1 (i2 - n)), (Z.max j1 (j2 - n)). split.
  - split; [lia|]. split; [lia|].
    eapply equal_at_inside; [exact Heq|lia..].
  - simpl. repeat (split; [lia|]). split; [|done]. split; [lia|].
    eapply equal_at_inside; [exact Heq|lia..].
Qed.

Lemma fix_last_snoc (n : Z) (codes : list opcode) (c : opcode) :
  fix_last n (codes ++ [c]) =
    codes ++ [let '(tag, i1, i2, j1, j2) := c in
              if bool_decide (tag = tag_equal)
              then (tag_equal, i1, Z.min i2 (i1 + n), j1, Z.min j2 (j1 + n))
              else c].
Proof.
  unfold fix_last. rewrite last_snoc. destruct c as [[[[tag i1] i2] j1] j2].
  destruct tag; simpl; try done.
  rewrite length_app, Nat.add_1_r. cbn [pred].
  rewrite insert_app_r_alt by reflexivity. by rewrite Nat.sub_diag.
Qed.

Lemma fix_last_tiling {A} (a b : list A) (n i j ie je : Z) (codes : list opcode) :
  0 ≤ n → tiling a b i j ie je codes →
  ∃ ie' je', tiling a b i j ie' je' (fix_last n codes) ∧ gap a b ie' je' ie je.
Proof.
  intros Hn Htil. destruct codes as [|c codes _] using rev_ind.
  { exists ie, je. split; [done|apply gap_refl]. }
  rewrite fix_last_snoc. apply tiling_app_inv in Htil as (im & jm & H1 & H2).
  destruct c as [[[[tag i1] i2] j1] j2]. simpl in H2.
  destruct H2 as (<- & <- & Hi & Hj & Htag & -> & ->).
  case_bool_decide as Heq; subst.
  - destruct Htag as [Hlen Heq].
    exists (Z.min ie (i1 + n)), (Z.min je (j1 + n)). split.
    + eapply tiling_app; [done|]. simpl. repeat (split; [lia|]).
      split; [|done]. split; [lia|].
      eapply equal_at_inside; [exact Heq|lia..].
    + split; [lia|]. split; [lia|].
      eapply equal_at_inside; [exact Heq|lia..].
  - exists ie, je. split; [|apply gap_refl].
    eapply tiling_app; [done|]. simpl. by destruct tag.
Qed.

Lemma group_fold_covers {A} (a b : list A) (n i0 j0 ie je : Z) (rest : list opcode) :
  0 ≤ n →
  ∀ groups group ci cj i j,
    covers a b i0 j0 ci cj groups →
    tiling a b ci cj i j group →
    tiling a b i j ie je rest →
    ∃ ci' cj',
      covers a b i0 j0 ci' cj' (foldl (group_step n) (groups, group) rest).1 ∧
      tiling a b ci' cj' ie je (foldl (group_step n) (groups, group) rest).2.
Proof.
  intros Hn. induction rest as [|[[[[tag i1] i2] j1] j2] rest IH];
    intros groups group ci cj i j Hcov Hgroup Hrest; simpl.
  { destruct Hrest as [-> ->]. by exists ci, cj. }
  simpl in Hrest. destruct Hrest as (<- & <- & Hi & Hj & Htag & Hrest).
  destruct (bool_decide (tag = tag_equal) && (n + n <? i2 - i1)) eqn:Hsplit.
  - apply andb_true_iff in Hsplit as [Heq%bool_decide_eq_true Hlong%Z.ltb_lt].
    subst tag. destruct Htag as [Hlen Heq].
    apply (IH _ _ (Z.max i1 (i2 - n)) (Z.max j1 (j2 - n)) i2 j2); [| |done].
    + apply (covers_snoc a b i0 j0 ci cj (Z.min i2 (i1 + n)) (Z.min j2 (j1 + n)));
        [done|by destruct group| |].
      * eapply tiling_app; [done|]. simpl. repeat (split; [lia|]).
        split; [|done]. split; [lia|].
        eapply equal_at_inside; [exact Heq|lia..].
      * split; [lia|]. split; [lia|].
        eapply equal_at_inside; [exact Heq|lia..].
    + simpl. repeat (split; [lia|]). split; [|done]. split; [lia|].
      eapply equal_at_inside; [exact Heq|lia..].
  - apply (IH _ _ ci cj i2 j2); [done| |done].
    eapply tiling_app; [done|]. simpl. by repeat (split; [done|]).
Qed.

(** For a context that is not negative, what [get_grouped_opcodes] leaves
    out of its groups is equal in the two lists. *)
Lemma grouped_opcodes_covers {A} (a b : list A) (n : Z) (codes : list opcode) :
  0 ≤ n →
  tiling a b 0 0 (Z.of_nat (length a)) (Z.of_nat (length b)) codes →
  covers a b 0 0 (Z.of_nat (length a)) (Z.of_nat (length b)) (grouped_opcodes n codes).
Proof.
  intros Hn Htil. destruct (decide (codes = [])) as [->|Hne].
  { rewrite grouped_opcodes_one_equal by auto. simpl in *.
    destruct Htil as [<- <-]. apply gap_refl. }
  unfold grouped_opcodes. rewrite bool_decide_eq_false_2 by done. cbv zeta.
  destruct (fix_first_tiling a b n _ _ _ _ codes Hn Htil) as (gi & gj & Hgap & Htil1).
  destruct (fix_last_tiling a b n _ _ _ _ _ Hn Htil1) as (ie & je & Htil2 & Hend).
  destruct (group_fold_covers a b n 0 0 ie je (fix_last n (fix_first n codes)) Hn
              [] [] gi gj gi gj) as (ci & cj & Hcov & Hgroup); [done|done|done|].
  destruct (foldl (group_step n) ([], []) (fix_last n (fix_first n codes)))
    as [groups group]. simpl in Hcov, Hgroup.
  destruct group as [|c [|c' group]].
  - destruct Hgroup as [-> ->]. by eapply covers_gap.
  - destruct (is_equal c) eqn:Hc.
    + eapply covers_gap; [done|]. eapply gap_trans; [|done].
      destruct c as [[[[tag i1] i2] j1] j2]. apply bool_decide_eq_true in Hc.
      simpl in Hc. subst tag. simpl in Hgroup.
      destruct Hgroup as (-> & -> & Hi & Hj & [Hlen Heq] & -> & ->). done.
    + by eapply covers_snoc.
  - by eapply covers_snoc.
Qed.

(** ** Slices *)

Lemma slice_inside {X} (l : list X) (i1 i2 : Z) :
  0 ≤ i1 → i1 ≤ i2 → i2 ≤ Z.of_nat (length l) →
  slice l i1 i2 = take (Z.to_nat (i2 - i1)) (drop (Z.to_nat i1) l).
Proof.
  intros H1 H2 H3. unfold slice, slice_bound.
  assert ((i1 <? 0) = false) as -> by lia. assert ((i2 <? 0) = false) as -> by lia.
  by rewrite !Z.min_l by lia.
Qed.

Lemma slice_app {X} (l : list X) (i1 i2 i3 : Z) :
  0 ≤ i1 → i1 ≤ i2 → i2 ≤ i3 → i3 ≤ Z.of_nat (length l) →
  slice l i1 i2 ++ slice l i2 i3 = slice l i1 i3.
Proof.
  intros H1 H2 H3 H4. rewrite !slice_inside by lia.
  replace (Z.to_nat (i3 - i1)) with (Z.to_nat (i2 - i1) + Z.to_nat (i3 - i2))%nat by lia.
  rewrite <-take_take_drop. do 2 f_equal. rewrite drop_drop. f_equal. lia.
Qed.

Lemma slice_to_end {X} (l : list X) (i : Z) :
  0 ≤ i → i ≤ Z.of_nat (length l) →
  slice l i (Z.of_nat (length l)) = drop (Z.to_nat i) l.
Proof.
  intros H1 H2. rewrite slice_inside by lia.
  apply take_ge. rewrite length_drop. lia.
Qed.

Lemma slice_from_start {X} (l : list X) : slice l 0 (Z.of_nat (length l)) = l.
Proof. rewrite slice_to_end by lia. done. Qed.

Lemma gap_slice {A} (a b : list A) (i j i' j' : Z) :
  gap a b i j i' j' → 0 ≤ i → 0 ≤ j →
  i' ≤ Z.of_nat (length a) → j' ≤ Z.of_nat (length b) →
  slice a i i' = slice b j j'.
Proof.
  intros (Hi & Hlen & Heq) Hi0 Hj0 Hia Hjb. rewrite !slice_inside by lia.
  replace (j' - j) with (i' - i) by lia.
  apply list_eq. intros t.
  destruct (decide (t < Z.to_nat (i' - i))%nat) as [Hlt|Hge].
  - rewrite !lookup_take_lt, !lookup_drop by done.
    destruct (Heq (Z.of_nat t)) as (x & Hx1 & Hx2); [lia|].
    replace (Z.to_nat i + t)%nat with (Z.to_nat (i + Z.of_nat t)) by lia.
    replace (Z.to_nat j + t)%nat with (Z.to_nat (j + Z.of_nat t)) by lia.
    by rewrite Hx1, Hx2.
  - by rewrite !lookup_take_ge by lia.
Qed.

(** Equal lists, from equal elements. *)
Lemma gap_whole {A} (a b : list A) :
  gap a b 0 0 (Z.of_nat (length a)) (Z.of_nat (length b)) → a = b.
Proof.
  intros Hgap. rewrite <-(slice_from_start a), <-(slice_from_start b).
  apply gap_slice; [done|lia..].
Qed.

(** ** The two sides of a group *)

Lemma tiling_sides {A} (a b : list A) (i j ie je : Z) (codes : list opcode) :
  tiling a b i j ie je codes → 0 ≤ i → 0 ≤ j →
  ie ≤ Z.of_nat (length a) → je ≤ Z.of_nat (length b) →
  a_side a codes = slice a i ie ∧ b_side a b codes = slice b j je.
Proof.
  revert i j. induction codes as [|[[[[tag i1] i2] j1] j2] codes IH];
    intros i j Htil Hi0 Hj0 Hia Hjb.
  - destruct Htil as [-> ->]. unfold a_side, b_side. simpl.
    rewrite !slice_inside by lia. by rewrite !Z.sub_diag.
  - simpl in Htil. destruct Htil as (<- & <- & Hi & Hj & Htag & Hrest).
    pose proof (tiling_le _ _ _ _ _ _ _ Hrest) as [Hi2 Hj2].
    destruct (IH _ _ Hrest) as [IHa IHb]; [lia..|].
    unfold a_side, b_side in *. rewrite !fmap_cons. cbn [concat].
    rewrite IHa, IHb.
    assert (slice a i1 i2 ++ slice a i2 ie = slice a i1 ie) as Ha
      by (apply slice_app; lia).
    assert (slice b j1 j2 ++ slice b j2 je = slice b j1 je) as Hb
      by (apply slice_app; lia).
    destruct tag.
    + done.
    + destruct Htag as [_ <-]. split; [done|]. done.
    + destruct Htag as [<- _]. split; [done|]. done.
    + destruct Htag as [Hlen Heq]. split; [done|]. rewrite <-Hb. f_equal.
      apply gap_slice; [|lia..]. split; [lia|]. split; [lia|]. done.
Qed.

Lemma covers_le {A} (a b : list A) (i j ie je : Z) groups :
  covers a b i j ie je groups → i ≤ ie ∧ j ≤ je.
Proof.
  revert i j. induction groups as [|g groups IH]; intros i j; simpl.
  - intros (? & ? & _). lia.
  - intros (gi & gi' & gj & gj' & _ & (? & ? & _) & Htil & Hrest).
    apply tiling_le in Htil. apply IH in Hrest. lia.
Qed.

(** Patching the first list with the groups gives the second. *)
Lemma covers_patch {A} (a b : list A) (i j : Z) groups :
  covers a b i j (Z.of_nat (length a)) (Z.of_nat (length b)) groups →
  0 ≤ i → 0 ≤ j →
  patch a b i groups = drop (Z.to_nat j) b.
Proof.
  revert i j. induction groups as [|g groups IH]; intros i j Hcov Hi0 Hj0.
  - simpl in *. pose proof Hcov as (? & ? & _).
    rewrite <-!slice_to_end by lia. apply gap_slice; [done|lia..].
  - simpl in Hcov. destruct Hcov as (gi & gi' & gj & gj' & Hr & Hgap & Htil & Hrest).
    pose proof Hgap as (? & ? & _).
    pose proof (tiling_le _ _ _ _ _ _ _ Htil) as [??].
    pose proof (covers_le _ _ _ _ _ _ _ Hrest) as [??].
    simpl. rewrite Hr.
    rewrite (gap_slice a b i j gi gj) by (done || lia).
    destruct (tiling_sides a b gi gj gi' gj' g Htil) as [_ ->]; [lia..|].
    rewrite (IH gi' gj') by (done || lia).
    rewrite <-(slice_to_end b gj'), <-(slice_to_end b j) by lia.
    rewrite !slice_app by lia. done.
Qed.

(** ** The lines of a hunk *)

Section hunk_lines.
Context {A : Type} `{Operation A}.

Lemma old_lines_context (fmt : A → string) (l : list A) :
  old_lines ((λ line, "    " +:+ fmt line) <$> l) = fmt <$> l ∧
  new_lines ((λ line, "    " +:+ fmt line) <$> l) = fmt <$> l.
Proof.
  unfold old_lines, new_lines. induction l as [|x l [IH1 IH2]]; [done|].
  rewrite !fmap_cons.
  rewrite !filter_cons_True by done. rewrite !fmap_cons, IH1, IH2. done.
Qed.

Lemma old_lines_minus (fmt : A → string) (l : list A) :
  old_lines ((λ line, "-   " +:+ fmt line) <$> l) = fmt <$> l ∧
  new_lines ((λ line, "-   " +:+ fmt line) <$> l) = [].
Proof.
  unfold old_lines, new_lines. induction l as [|x l [IH1 IH2]]; [done|].
  rewrite !fmap_cons.
  rewrite filter_cons_True by done. rewrite filter_cons_False by done.
  rewrite !fmap_cons, IH1, IH2. done.
Qed.

Lemma old_lines_plus (fmt : A → string) (l : list A) :
  old_lines ((λ line, "+   " +:+ fmt line) <$> l) = [] ∧
  new_lines ((λ line, "+   " +:+ fmt line) <$> l) = fmt <$> l.
Proof.
  unfold old_lines, new_lines. induction l as [|x l [IH1 IH2]]; [done|].
  rewrite !fmap_cons.
  rewrite filter_cons_False by done. rewrite filter_cons_True by done.
  rewrite !fmap_cons, IH1, IH2. done.
Qed.

Lemma old_lines_app (l1 l2 : list string) :
  old_lines (l1 ++ l2) = old_lines l1 ++ old_lines l2 ∧
  new_lines (l1 ++ l2) = new_lines l1 ++ new_lines l2.
Proof. unfold old_lines, new_lines. by rewrite !filter_app, !fmap_app. Qed.

(** The lines of a group without those of the other list, and without
    what is put in front of them, are the formatted operations of its two
    sides. *)
Lemma hunk_lines_sides (fmt : A → string) (a b : list A) (group : list opcode) :
  old_lines (hunk_lines fmt a b group) = fmt <$> a_side a group ∧
  new_lines (hunk_lines fmt a b group) = fmt <$> b_side a b group.
Proof.
  unfold hunk_lines, a_side, b_side.
  induction group as [|[[[[tag i1] i2] j1] j2] group [IH1 IH2]]; [done|].
  rewrite !fmap_cons. cbn [concat].
  destruct (old_lines_app (opcode_lines fmt a b (tag, i1, i2, j1, j2))
              (concat (opcode_lines fmt a b <$> group))) as [-> ->].
  rewrite IH1, IH2, !fmap_app.
  destruct (old_lines_context fmt (slice a i1 i2)) as [Hc1 Hc2].
  destruct (old_lines_minus fmt (slice a i1 i2)) as [Hm1 Hm2].
  destruct (old_lines_plus fmt (slice b j1 j2)) as [Hp1 Hp2].
  destruct tag; unfold opcode_lines; simpl.
  - destruct (old_lines_app ((λ line, "-   " +:+ fmt line) <$> slice a i1 i2)
                ((λ line, "+   " +:+ fmt line) <$> slice b j1 j2)) as [-> ->].
    rewrite Hm1, Hm2, Hp1, Hp2. by rewrite app_nil_r.
  - rewrite app_nil_r, Hm1, Hm2. done.
  - rewrite Hp1, Hp2. done.
  - rewrite Hc1, Hc2. done.
Qed.
End hunk_lines.

(** ** The diff as a list of hunks *)

Section diff_hunks.
Context {A : Type} `{Operation A}.

Lemma group_lines_hunk (fmt : A → string) (a b : list A) (fromfile tofile : string)
    (started : bool) (group : list opcode) :
  group ≠ [] →
  group_lines fmt a b fromfile tofile started group =
    mkGenerated ((if started then [] else ["--- " +:+ fromfile; "+++ " +:+ tofile])
                 ++ hunk fmt a b group) None.
Proof.
  intros Hne. unfold group_lines, hunk, hunk_header, hunk_range, hunk_lines.
  destruct (head group) as [first|] eqn:Hfirst; [|by destruct group].
  destruct (last group) as [lst|] eqn:Hlast; [done|].
  by apply last_None in Hlast.
Qed.

Lemma diff_fold_hunks (fmt : A → string) (a b : list A) (fromfile tofile : string)
    (groups : list (list opcode)) :
  Forall (λ group, group ≠ []) groups →
  ∀ started lines,
    (foldl (diff_step fmt a b fromfile tofile) (started, mkGenerated lines None)
           groups).2
    = mkGenerated
        (lines ++
         (if started then [] else
            match groups with
            | [] => []
            | _ => ["--- " +:+ fromfile; "+++ " +:+ tofile]
            end) ++
         concat (hunk fmt a b <$> groups)) None.
Proof.
  induction 1 as [|group groups Hgroup _ IH]; intros started lines.
  - simpl. destruct started; by rewrite !app_nil_r.
  - cbn [foldl]. unfold diff_step at 2. cbn [raised yielded].
    rewrite group_lines_hunk by done. cbn [raised yielded].
    rewrite IH. rewrite fmap_cons. cbn [concat]. f_equal.
    destruct started; cbn [app]; rewrite <-?app_assoc; done.
Qed.

(** With a formatter, the diff is empty or the two file headers followed
    by the hunks of the groups. *)
Lemma unified_diff_hunks (fmt : A → string) (a b : list A) (fromfile tofile : string)
    (n : Z) (format : string) (groups : list (list opcode)) :
  fmt_op format = Some fmt →
  get_grouped_opcodes (new_SequenceMatcher a b) n = Some groups →
  unified_diff a b fromfile tofile n format =
    mkGenerated
      (match groups with
       | [] => []
       | _ => ["--- " +:+ fromfile; "+++ " +:+ tofile]
       end ++ concat (hunk fmt a b <$> groups)) None.
Proof.
  intros Hfmt Hgroups. unfold unified_diff. rewrite Hfmt, Hgroups.
  destruct (get_grouped_opcodes_returns (new_SequenceMatcher a b) n)
    as (groups' & Hgroups' & Hne).
  rewrite Hgroups in Hgroups'. injection Hgroups' as <-.
  by rewrite diff_fold_hunks.
Qed.

Lemma hunk_nonempty (fmt : A → string) (a b : list A) (group : list opcode) :
  ∃ body, hunk fmt a b group = body ++ [""].
Proof.
  unfold hunk. exists ([hunk_header group] ++ hunk_lines fmt a b group).
  by rewrite <-app_assoc.
Qed.
End diff_hunks.

(** The groups of a diff with a context that is not negative. *)
Lemma get_grouped_opcodes_covers {A} `{Countable A} (a b : list A) (n : Z) :
  0 ≤ n →
  ∃ groups,
    get_grouped_opcodes (new_SequenceMatcher a b) n = Some groups ∧
    covers a b 0 0 (Z.of_nat (length a)) (Z.of_nat (length b)) groups.
Proof.
  intros Hn. destruct (get_opcodes_tiling a b) as (codes & Hcodes & Htil).
  unfold get_grouped_opcodes. rewrite Hcodes. simpl. eexists. split; [done|].
  by apply grouped_opcodes_covers.
Qed.

(** An opcode that is not [equal] is in some group, whatever the context. *)
Lemma grouped_opcodes_changes (n : Z) (codes : list opcode) :
  Exists (λ c, is_equal c = false) codes → grouped_opcodes n codes ≠ [].
Proof.
  intros Hex. unfold grouped_opcodes.
  rewrite bool_decide_eq_false_2 by (intros ->; by apply Exists_nil in Hex).
  cbv zeta.
  assert (Exists (λ c, is_equal c = false) (fix_first n codes)) as Hex1.
  { destruct codes as [|[[[[tag i1] i2] j1] j2] codes]; [done|].
    destruct tag; try done. simpl.
    apply Exists_cons in Hex as [Hc|Hex]; [done|]. by apply Exists_cons_tl. }
  assert (Exists (λ c, is_equal c = false) (fix_last n (fix_first n codes))) as Hex2.
  { revert Hex1. generalize (fix_first n codes). clear. intros codes Hex.
    destruct codes as [|c codes _] using rev_ind; [done|].
    rewrite fix_last_snoc. apply Exists_app in Hex as [Hex|Hex].
    - apply Exists_app. by left.
    - apply Exists_app. right. destruct c as [[[[tag i1] i2] j1] j2].
      apply Exists_cons in Hex as [Hc|Hex]; [|by apply Exists_nil in Hex].
      apply Exists_cons_hd. case_bool_decide as Htag; [|done].
      subst tag. done. }
  revert Hex2. generalize (fix_last n (fix_first n codes)). clear. intros codes Hex.
  assert (∀ groups group,
            groups ≠ [] ∨ Exists (λ c, is_equal c = false) group ∨
              Exists (λ c, is_equal c = false) codes →
            let st := foldl (group_step n) (groups, group) codes in
            st.1 ≠ [] ∨ Exists (λ c, is_equal c = false) st.2) as Hfold.
  { clear. induction codes as [|[[[[tag i1] i2] j1] j2] codes IH];
      intros groups group Hst; simpl.
    { destruct Hst as [?|[?|Hnil]]; auto. by apply Exists_nil in Hnil. }
    destruct (bool_decide (tag = tag_equal) && (n + n <? i2 - i1)) eqn:Hsplit.
    - apply IH. left. by destruct groups.
    - apply IH. destruct Hst as [?|[Hg|Hc]]; [by left|..].
      + right. left. apply Exists_app. by left.
      + apply Exists_cons in Hc as [Hc|Hc]; [|by do 2 right].
        right. left. apply Exists_app. right. by apply Exists_cons_hd. }
  specialize (Hfold [] [] (or_intror (or_intror Hex))). simpl in Hfold.
  destruct (foldl (group_step n) ([], []) codes) as [groups group]. simpl in Hfold.
  destruct Hfold as [Hgroups|Hgroup].
  - destruct group as [|c [|c' group]]; [done| |by destruct groups].
    destruct (is_equal c); [done|by destruct groups].
  - destruct group as [|c [|c' group]].
    + by apply Exists_nil in Hgroup.
    + apply Exists_cons in Hgroup as [->|Hnil]; [by destruct groups|].
      by apply Exists_nil in Hnil.
    + by destruct groups.
Qed.

(** Opcodes that are all [equal] lead through equal lists. *)
Lemma tiling_all_equal {A} (a b : list A) (i j ie je : Z) (codes : list opcode) :
  Forall (λ c, is_equal c = true) codes → tiling a b i j ie je codes →
  gap a b i j ie je.
Proof.
  intros Hall. revert i j.
  induction Hall as [|[[[[tag i1] i2] j1] j2] codes Hc _ IH]; intros i j; simpl.
  - intros [-> ->]. apply gap_refl.
  - apply bool_decide_eq_true in Hc. simpl in Hc. subst tag.
    intros (<- & <- & Hi & Hj & [Hlen Heq] & Hrest).
    eapply gap_trans; [|by apply IH]. done.
Qed.

(** An empty diff is the diff of equal lists, whatever the context. *)
Lemma get_grouped_opcodes_nil {A} `{Countable A} (a b : list A) (n : Z) :
  get_grouped_opcodes (new_SequenceMatcher a b) n = Some [] → a = b.
Proof.
  destruct (get_opcodes_tiling a b) as (codes & Hcodes & Htil).
  unfold get_grouped_opcodes. rewrite Hcodes. simpl. intros [= Hnil].
  apply gap_whole. eapply tiling_all_equal; [|done].
  apply Forall_forall. intros c Hc.
  destruct (is_equal c) eqn:Heq; [done|]. exfalso.
  apply (grouped_opcodes_changes n codes); [|done].
  apply Exists_exists. eauto.
Qed.

Lemma unified_diff_nil_equal {A} `{Operation A} (a b : list A)
    (fromfile tofile : string) (n : Z) (format : string) :
  is_Some (fmt_op format) →
  yielded (unified_diff a b fromfile tofile n format) = [] → a = b.
Proof.
  intros [fmt Hfmt].
  destruct (get_grouped_opcodes_returns (new_SequenceMatcher a b) n)
    as (groups & Hgroups & Hne).
  rewrite (unified_diff_hunks fmt a b fromfile tofile n format groups) by done.
  simpl. destruct groups as [|g groups]; [|done].
  intros _. by eapply get_grouped_opcodes_nil.
Qed.

Lemma unified_diff_empty_nonneg {A} `{Operation A} (a b : list A)
    (fromfile tofile : string) (n : Z) (format : string) :
  0 ≤ n → is_Some (fmt_op format) →
  yielded (unified_diff a b fromfile tofile n format) = [] ↔ a = b.
Proof.
  intros Hn Hfmt. split; [by apply unified_diff_nil_equal|].
  intros <-. rewrite unified_diff_same by done. by destruct Hfmt as [fmt ->].
Qed.

(** X11.  With one of the three formats, and whatever the number of
    context lines: if [unified_diff] yields nothing, its two lists of
    operations are equal; and when the number is not negative, it yields
    nothing exactly when they are equal. *)
Theorem unified_diff_empty_iff {A} `{Operation A} (a b : list A)
    (fromfile tofile : string) (n : Z) (format : string) :
  is_Some (fmt_op format) →
  (yielded (unified_diff a b fromfile tofile n format) = [] → a = b) ∧
  (0 ≤ n → (yielded (unified_diff a b fromfile tofile n format) = [] ↔ a = b)).
Proof.
  intros Hfmt. split; [by apply unified_diff_nil_equal|].
  intros Hn. by apply unified_diff_empty_nonneg.
Qed.

Lemma unified_diff_empty_iff_witness :
  yielded (unified_diff [1; 2; 3] [1; 2; 4] "a.bmodel" "b.bmodel" 0 "raw") ≠ [] ∧
  (yielded (unified_diff [1; 2; 3] [1; 2; 3] "a.bmodel" "b.bmodel" 0 "raw") = []
   ↔ [1; 2; 3] = [1; 2; 3]).
Proof.
  split.
  - intros Hnil.
    apply (proj1 (unified_diff_empty_iff [1; 2; 3] [1; 2; 4] "a.bmodel" "b.bmodel"
                    0 "raw" (mk_is_Some _ _ eq_refl))) in Hnil.
    discriminate.
  - apply (unified_diff_empty_iff [1; 2; 3] [1; 2; 3] "a.bmodel" "b.bmodel" 0 "raw").
    + by eexists.
    + lia.
Defined.

(** X12.  The hunks of a diff are enough to get the second list from the
    first.  For a number of context lines that is not negative, the groups
    behind the hunks lie inside the two lists, one after the other, and
    the first list, with what each group spans replaced by the group's
    second side and everything else kept, is the second list. *)
Theorem unified_diff_patch {A} `{Operation A} (a b : list A)
    (fromfile tofile : string) (n : Z) (format : string) (fmt : A → string) :
  0 ≤ n → fmt_op format = Some fmt →
  ∃ groups,
    get_grouped_opcodes (new_SequenceMatcher a b) n = Some groups ∧
    yielded (unified_diff a b fromfile tofile n format)
      = match groups with
        | [] => []
        | _ => ["--- " +:+ fromfile; "+++ " +:+ tofile]
        end ++ concat (hunk fmt a b <$> groups) ∧
    patch a b 0 groups = b.
Proof.
  intros Hn Hfmt.
  destruct (get_grouped_opcodes_covers a b n Hn) as (groups & Hgroups & Hcov).
  exists groups. split; [done|]. split.
  - by rewrite (unified_diff_hunks fmt a b fromfile tofile n format groups).
  - by rewrite (covers_patch a b 0 0) by (done || lia).
Qed.

Lemma unified_diff_patch_witness :
  ∃ groups,
    get_grouped_opcodes (new_SequenceMatcher doc_a doc_b) 3 = Some groups ∧
    yielded (unified_diff doc_a doc_b "a.bmodel" "b.bmodel" 3 "mlir")
      = match groups with
        | [] => []
        | _ => ["--- a.bmodel"; "+++ b.bmodel"]
        end ++ concat (hunk (op_str : Z → string) doc_a doc_b <$> groups) ∧
    patch doc_a doc_b 0 groups = doc_b.
Proof.
  apply (unified_diff_patch doc_a doc_b "a.bmodel" "b.bmodel" 3 "mlir" op_str).
  - lia.
  - reflexivity.
Defined.

Lemma covers_groups {A} (a b : list A) (i j : Z) groups :
  covers a b i j (Z.of_nat (length a)) (Z.of_nat (length b)) groups →
  0 ≤ i → 0 ≤ j →
  Forall (λ group,
            ∃ i1 i2 j1 j2,
              hunk_range group = Some (i1, i2, j1, j2) ∧
              0 ≤ i1 ∧ i1 ≤ i2 ∧ i2 ≤ Z.of_nat (length a) ∧
              0 ≤ j1 ∧ j1 ≤ j2 ∧ j2 ≤ Z.of_nat (length b) ∧
              a_side a group = slice a i1 i2 ∧
              b_side a b group = slice b j1 j2) groups.
Proof.
  revert i j. induction groups as [|g groups IH]; intros i j Hcov Hi0 Hj0;
    [constructor|].
  simpl in Hcov. destruct Hcov as (gi & gi' & gj & gj' & Hr & Hgap & Htil & Hrest).
  pose proof Hgap as (? & ? & _).
  pose proof (tiling_le _ _ _ _ _ _ _ Htil) as [??].
  pose proof (covers_le _ _ _ _ _ _ _ Hrest) as [??].
  constructor; [|apply (IH gi' gj'); [done|lia..]].
  exists gi, gi', gj, gj'. split; [done|].
  destruct (tiling_sides a b gi gj gi' gj' g Htil) as [-> ->]; [lia..|].
  repeat (split; [lia|]). done.
Qed.

(** X13.  Every hunk is true to both lists.  For a number of context
    lines that is not negative, the header of a hunk names a range
    [a[i1:i2]] of the first list and a range [b[j1:j2]] of the second, both
    inside their list; the lines of the hunk that do not start with [+],
    without the four characters in front, are the formatted operations of
    [a[i1:i2]], in order, and those that do not start with [-] are the
    formatted operations of [b[j1:j2]]. *)
Theorem unified_diff_hunks_faithful {A} `{Operation A} (a b : list A)
    (fromfile tofile : string) (n : Z) (format : string) (fmt : A → string) :
  0 ≤ n → fmt_op format = Some fmt →
  ∃ groups,
    yielded (unified_diff a b fromfile tofile n format)
      = match groups with
        | [] => []
        | _ => ["--- " +:+ fromfile; "+++ " +:+ tofile]
        end ++ concat (hunk fmt a b <$> groups) ∧
    Forall (λ group,
              ∃ i1 i2 j1 j2,
                hunk fmt a b group
                  = ["@@ -" +:+ format_range_unified i1 i2 +:+ " +"
                     +:+ format_range_unified j1 j2 +:+ " @@" +:+ LF]
                    ++ hunk_lines fmt a b group ++ [""] ∧
                0 ≤ i1 ∧ i1 ≤ i2 ∧ i2 ≤ Z.of_nat (length a) ∧
                0 ≤ j1 ∧ j1 ≤ j2 ∧ j2 ≤ Z.of_nat (length b) ∧
                old_lines (hunk_lines fmt a b group) = fmt <$> slice a i1 i2 ∧
                new_lines (hunk_lines fmt a b group) = fmt <$> slice b j1 j2)
           groups.
Proof.
  intros Hn Hfmt.
  destruct (get_grouped_opcodes_covers a b n Hn) as (groups & Hgroups & Hcov).
  exists groups. split.
  - by rewrite (unified_diff_hunks fmt a b fromfile tofile n format groups).
  - eapply Forall_impl; [apply (covers_groups a b 0 0); [done|lia..]|].
    intros g (i1 & i2 & j1 & j2 & Hr & ? & ? & ? & ? & ? & ? & Ha & Hb).
    exists i1, i2, j1, j2. split.
    { unfold hunk, hunk_header. by rewrite Hr. }
    repeat (split; [done|]).
    destruct (hunk_lines_sides fmt a b g) as [-> ->]. by rewrite Ha, Hb.
Qed.

Lemma unified_diff_hunks_faithful_witness :
  ∃ groups,
    yielded (unified_diff [1; 2; 3; 4; 5] [1; 2; 9; 4; 5] "a.bmodel" "b.bmodel" 1 "mlir")
      = match groups with
        | [] => []
        | _ => ["--- a.bmodel"; "+++ b.bmodel"]
        end ++ concat (hunk (op_str : Z → string) [1; 2; 3; 4; 5] [1; 2; 9; 4; 5]
                         <$> groups) ∧
    Forall (λ group,
              ∃ i1 i2 j1 j2,
                hunk (op_str : Z → string) [1; 2; 3; 4; 5] [1; 2; 9; 4; 5] group
                  = ["@@ -" +:+ format_range_unified i1 i2 +:+ " +"
                     +:+ format_range_unified j1 j2 +:+ " @@" +:+ LF]
                    ++ hunk_lines op_str [1; 2; 3; 4; 5] [1; 2; 9; 4; 5] group
                    ++ [""] ∧
                0 ≤ i1 ∧ i1 ≤ i2 ∧ i2 ≤ 5 ∧
                0 ≤ j1 ∧ j1 ≤ j2 ∧ j2 ≤ 5 ∧
                old_lines (hunk_lines op_str [1; 2; 3; 4; 5] [1; 2; 9; 4; 5] group)
                  = op_str <$> slice [1; 2; 3; 4; 5] i1 i2 ∧
                new_lines (hunk_lines op_str [1; 2; 3; 4; 5] [1; 2; 9; 4; 5] group)
                  = op_str <$> slice [1; 2; 9; 4; 5] j1 j2)
           groups.
Proof.
  apply (unified_diff_hunks_faithful [1; 2; 3; 4; 5] [1; 2; 9; 4; 5]
           "a.bmodel" "b.bmodel" 1 "mlir" op_str).
  - lia.
  - reflexivity.
Defined.

(** ** What the comparison prints and says *)

Lemma slice_all_but_last {X} (l : list X) (x : X) : slice (l ++ [x]) 0 (-1) = l.
Proof.
  unfold slice, slice_bound. cbn [Z.ltb Z.compare]. rewrite length_app. cbn [length].
  rewrite Z.min_l by lia.
  replace (Z.to_nat (Z.max 0 (Z.of_nat (length l + 1) + -1) - 0)) with (length l) by lia.
  change (Z.to_nat 0) with 0%nat. by rewrite drop_0, take_app_length.
Qed.

(** X14.  A diff that is not empty starts with the two file headers and
    ends with an empty string, and the slice [fmt_cmd[:-1]] of the
    comparison takes away that empty string only: the block printed for a
    pair of subgraphs holds every other line of the diff, each after a
    line feed, between the braces of [func.func @graph<index path>()]. *)
Theorem func_block_keeps_lines {A} `{Operation A} (a b : list A)
    (bmodels0 bmodels1 : string) (N : Z) (format : string) (idx : list Z) :
  is_Some (fmt_op format) →
  yielded (unified_diff a b bmodels0 bmodels1 N format) ≠ [] →
  ∃ body,
    yielded (unified_diff a b bmodels0 bmodels1 N format)
      = ["--- " +:+ bmodels0; "+++ " +:+ bmodels1] ++ body ++ [""] ∧
    func_block idx ((λ x, LF +:+ x) <$> yielded (unified_diff a b bmodels0 bmodels1 N format))
      = "func.func @" +:+ fun_name idx +:+ "() {"
        +:+ (join ((λ x, LF +:+ x) <$> ["--- " +:+ bmodels0; "+++ " +:+ bmodels1] ++ body)
             +:+ LF)
        +:+ "}".
Proof.
  intros [fmt Hfmt] Hne.
  destruct (get_grouped_opcodes_returns (new_SequenceMatcher a b) N)
    as (groups & Hgroups & _).
  rewrite (unified_diff_hunks fmt a b bmodels0 bmodels1 N format groups) in Hne |- * by done.
  cbn [yielded] in *.
  destruct groups as [|g groups _] using rev_ind; [done|].
  rewrite fmap_app, concat_app. cbn [fmap list_fmap concat]. rewrite app_nil_r.
  destruct (hunk_nonempty fmt a b g) as [body Hbody]. rewrite Hbody.
  exists (concat (hunk fmt a b <$> groups) ++ body).
  assert (match groups ++ [g] with
          | [] => []
          | _ => ["--- " +:+ bmodels0; "+++ " +:+ bmodels1]
          end = ["--- " +:+ bmodels0; "+++ " +:+ bmodels1]) as ->
    by (by destruct groups).
  split; [by rewrite <-!app_assoc|].
  unfold func_block.
  replace (["--- " +:+ bmodels0; "+++ " +:+ bmodels1]
           ++ concat (hunk fmt a b <$> groups) ++ body ++ [""])
    with ((["--- " +:+ bmodels0; "+++ " +:+ bmodels1]
           ++ concat (hunk fmt a b <$> groups) ++ body) ++ [""])
    by (by rewrite <-!app_assoc).
  rewrite (fmap_app _ _ [""]). cbn [fmap list_fmap].
  by rewrite slice_all_but_last.
Qed.

Lemma func_block_keeps_lines_witness :
  ∃ body,
    yielded (unified_diff [1; 2; 3; 4; 5] [1; 2; 9; 4; 5] "a.bmodel" "b.bmodel" 1 "mlir")
      = ["--- a.bmodel"; "+++ b.bmodel"] ++ body ++ [""] ∧
    func_block [0; 1]
      ((λ x, LF +:+ x) <$>
         yielded (unified_diff [1; 2; 3; 4; 5] [1; 2; 9; 4; 5] "a.bmodel" "b.bmodel"
                    1 "mlir"))
      = "func.func @" +:+ fun_name [0; 1] +:+ "() {"
        +:+ (join ((λ x, LF +:+ x) <$> ["--- a.bmodel"; "+++ b.bmodel"] ++ body)
             +:+ LF)
        +:+ "}".
Proof.
  apply (func_block_keeps_lines [1; 2; 3; 4; 5] [1; 2; 9; 4; 5]
           "a.bmodel" "b.bmodel" 1 "mlir" [0; 1]).
  - by eexists.
  - vm_compute. discriminate.
Defined.

(** X15.  With one of the three formats and a number of context lines
    that is not negative, the comparison of two containers exits with
    status 0 or 1, and with 0, after the message that the files are the
    same, exactly when every pair of subgraphs it compares has equal lists
    of operations. *)
Theorem main_compare_same_iff {A} `{Operation A} (bmodels0 bmodels1 : string)
    (N : Z) (format : string) (cmd_a cmd_b : list (list Z * list A)) :
  0 ≤ N → is_Some (fmt_op format) →
  (status (main_compare bmodels0 bmodels1 N format cmd_a cmd_b) = Ok 0 ∨
   status (main_compare bmodels0 bmodels1 N format cmd_a cmd_b) = Ok 1) ∧
  (main_compare bmodels0 bmodels1 N format cmd_a cmd_b
     = mkOutcome [same_message bmodels0 bmodels1] (Ok 0)
   ↔ Forall (λ pair, pair.1.2 = pair.2.2) (zip cmd_a cmd_b)) ∧
  (status (main_compare bmodels0 bmodels1 N format cmd_a cmd_b) = Ok 1
   ↔ Exists (λ pair, pair.1.2 ≠ pair.2.2) (zip cmd_a cmd_b)).
Proof.
  intros HN Hfmt. rewrite main_compare_valid by done.
  assert (diff_blocks bmodels0 bmodels1 N format (zip cmd_a cmd_b) = []
          ↔ Forall (λ pair, pair.1.2 = pair.2.2) (zip cmd_a cmd_b)) as Hiff.
  { rewrite diff_blocks_nil. apply Forall_iff. intros pair.
    by apply unified_diff_empty_nonneg. }
  case_bool_decide as Hblocks; cbn [status].
  - split; [by left|]. split.
    + split; [intros _; by apply Hiff|done].
    + split; [done|]. intros Hex. apply Hiff in Hblocks.
      apply Exists_exists in Hex as (pair & Hin & Hne).
      rewrite Forall_forall in Hblocks. by destruct Hne; apply Hblocks.
  - split; [by right|]. split.
    + split; [done|]. intros Hall. by apply Hiff in Hall.
    + split; [|done]. intros _. apply not_Forall_Exists; [solve_decision|].
      by rewrite <-Hiff.
Qed.

Lemma main_compare_same_iff_witness :
  (status (main_compare "a.bmodel" "b.bmodel" 3 "mlir" example_stream_a example_stream_b)
     = Ok 0 ∨
   status (main_compare "a.bmodel" "b.bmodel" 3 "mlir" example_stream_a example_stream_b)
     = Ok 1) ∧
  (main_compare "a.bmodel" "b.bmodel" 3 "mlir" example_stream_a example_stream_b
     = mkOutcome [same_message "a.bmodel" "b.bmodel"] (Ok 0)
   ↔ Forall (λ pair, pair.1.2 = pair.2.2) (zip example_stream_a example_stream_b)) ∧
  (status (main_compare "a.bmodel" "b.bmodel" 3 "mlir" example_stream_a example_stream_b)
     = Ok 1
   ↔ Exists (λ pair, pair.1.2 ≠ pair.2.2) (zip example_stream_a example_stream_b)).
Proof.
  apply (main_compare_same_iff "a.bmodel" "b.bmodel" 3 "mlir"
           example_stream_a example_stream_b).
  - lia.
  - by eexists.
Defined.

(** ** A diff against nothing *)

(** When one of the two lists is empty there is no matching block but the
    closing one. *)
Lemma get_matching_blocks_no_match {A} `{Countable A} (m : SequenceMatcher A) :
  sm_a m = [] ∨ sm_b m = [] →
  get_matching_blocks m
  = Some [(Z.of_nat (length (sm_a m)), Z.of_nat (length (sm_b m)), 0)].
Proof.
  intros Hempty. unfold get_matching_blocks.
  set (la := Z.of_nat (length (sm_a m))). set (lb := Z.of_nat (length (sm_b m))).
  assert (la = 0 ∨ lb = 0) as Hlen.
  { subst la lb. destruct Hempty as [-> | ->]; auto. }
  replace (2 * length (sm_a m) + 1)%nat with (S (2 * length (sm_a m))) by lia.
  cbn [matching_loop].
  destruct (find_longest_match_returns m 0 la 0 lb) as ([[i j] k] & -> & Hin).
  { simpl. lia. }
  simpl in Hin. assert (k = 0) as -> by lia. cbn [mbind option_bind].
  rewrite Z.eqb_refl. by destruct (length (sm_a m)).
Qed.

(** X16.  The diff against an empty list of operations, whatever the
    number of context lines: it is the two file headers and one hunk, which
    lists every operation of the other list as removed ([-]) when the
    second list is the empty one, and as added ([+]) when the first is. *)
Theorem unified_diff_against_empty {A} `{Operation A} (a : list A)
    (fromfile tofile : string) (n : Z) (format : string) (fmt : A → string) :
  fmt_op format = Some fmt → a ≠ [] →
  unified_diff a [] fromfile tofile n format =
    mkGenerated
      (["--- " +:+ fromfile; "+++ " +:+ tofile;
        "@@ -" +:+ format_range_unified 0 (Z.of_nat (length a)) +:+ " +0,0 @@" +:+ LF]
       ++ ((λ line, "-   " +:+ fmt line) <$> a) ++ [""]) None ∧
  unified_diff [] a fromfile tofile n format =
    mkGenerated
      (["--- " +:+ fromfile; "+++ " +:+ tofile;
        "@@ -0,0 +" +:+ format_range_unified 0 (Z.of_nat (length a)) +:+ " @@" +:+ LF]
       ++ ((λ line, "+   " +:+ fmt line) <$> a) ++ [""]) None.
Proof.
  intros Hfmt Hne.
  assert (0 < Z.of_nat (length a)) as Hlen by (destruct a; [done|simpl; lia]).
  split.
  - rewrite (unified_diff_hunks fmt a [] fromfile tofile n format
               [[(tag_delete, 0, Z.of_nat (length a), 0, 0)]]); [|done|].
    + unfold hunk, hunk_lines, hunk_header. simpl.
      rewrite slice_from_start, !app_nil_r.
      assert (format_range_unified 0 0 = "0,0") as -> by (vm_compute; reflexivity).
      reflexivity.
    + unfold get_grouped_opcodes, get_opcodes.
      rewrite get_matching_blocks_no_match
        by (right; apply new_SequenceMatcher_b).
      rewrite new_SequenceMatcher_a, new_SequenceMatcher_b. simpl.
      unfold opcodes_of. simpl.
      assert ((0 <? Z.of_nat (length a)) = true) as -> by lia. done.
  - rewrite (unified_diff_hunks fmt [] a fromfile tofile n format
               [[(tag_insert, 0, 0, 0, Z.of_nat (length a))]]); [|done|].
    + unfold hunk, hunk_lines, hunk_header. simpl.
      rewrite slice_from_start, !app_nil_r.
      assert (format_range_unified 0 0 = "0,0") as -> by (vm_compute; reflexivity).
      reflexivity.
    + unfold get_grouped_opcodes, get_opcodes.
      rewrite get_matching_blocks_no_match
        by (left; apply new_SequenceMatcher_a).
      rewrite new_SequenceMatcher_a, new_SequenceMatcher_b. simpl.
      unfold opcodes_of. simpl.
      assert ((0 <? Z.of_nat (length a)) = true) as -> by lia. done.
Qed.

Lemma unified_diff_against_empty_witness :
  unified_diff [7; 8] [] "a.bmodel" "b.bmodel" 3 "mlir" =
    mkGenerated ["--- a.bmodel"; "+++ b.bmodel"; "@@ -1,2 +0,0 @@" +:+ LF;
                 "-   7"; "-   8"; ""] None ∧
  unified_diff [] [7; 8] "a.bmodel" "b.bmodel" 3 "mlir" =
    mkGenerated ["--- a.bmodel"; "+++ b.bmodel"; "@@ -0,0 +1,2 @@" +:+ LF;
                 "+   7"; "+   8"; ""] None.
Proof.
  destruct (unified_diff_against_empty [7; 8] "a.bmodel" "b.bmodel" 3 "mlir" op_str)
    as [Hold Hnew]; [reflexivity|discriminate|].
  split.
  - rewrite Hold. vm_compute. reflexivity.
  - rewrite Hnew. vm_compute. reflexivity.
Defined.

(** ** The register listing: all or nothing *)

Section register_listing_fails.
Context `{DecoderMethods}.

Lemma reg_groups_raised (decoder : nat) (_id : Z) (gs : list cmd_group) :
  gen_raised (gen_for gs (reg_yield decoder _id)) = None →
  ∀ g, g ∈ gs → ∃ ops, decode_bmodel_cmd decoder g _id = Ok ops.
Proof.
  induction gs as [|g gs IH]; intros Hr g' Hg'; [by apply elem_of_nil in Hg'|].
  cbn [gen_for] in Hr. unfold reg_yield at 1 2 in Hr.
  destruct (decode_bmodel_cmd decoder g _id) as [ops|e] eqn:Hops; [|done].
  simpl in Hr. apply elem_of_cons in Hg' as [->|Hg']; [eauto|]. by apply IH.
Qed.

Lemma reg_subnets_raised (decoder : nat) (sns : list subnet) :
  gen_raised (gen_for sns (reg_subnet decoder)) = None →
  Forall (λ sn, Id sn ≠ []) sns ∧
  ∀ sn _id rest g, sn ∈ sns → Id sn = _id :: rest → g ∈ CmdGroup sn →
    ∃ ops, decode_bmodel_cmd decoder g _id = Ok ops.
Proof.
  induction sns as [|sn sns IH]; intros Hr.
  { split; [constructor|]. intros sn _id rest g Hsn. by apply elem_of_nil in Hsn. }
  cbn [gen_for] in Hr.
  destruct (gen_raised (reg_subnet decoder sn)) as [e|] eqn:Hsn.
  { by rewrite Hsn in Hr. }
  simpl in Hr. destruct (IH Hr) as [Hids Hok].
  unfold reg_subnet in Hsn. destruct (Id sn) as [|_id rest] eqn:HId; [done|].
  simpl in Hsn. split.
  - constructor; [by rewrite HId|done].
  - intros sn' id' rest' g [->|Hsn']%elem_of_cons HId' Hg.
    + rewrite HId in HId'. injection HId' as <- <-.
      by apply (reg_groups_raised decoder _id (CmdGroup sn)).
    + by apply (Hok sn' id' rest' g).
Qed.
End register_listing_fails.

(** X17.  The register listing is printed only when everything went
    well: [--format reg] gets to its dictionary exactly when the chip is
    supported, every SubNet has an id and the decoder accepts every
    CmdGroup of the container; in every other case an exception ends the
    run before anything is printed. *)
Theorem main_reg_returns_iff `{DecoderMethods} (b : bmodel) (w : World) :
  (∃ outs w', main_reg b w = (Ok outs, w')) ↔
  ∃ decoder w',
    open_decoder b w = (Ok decoder, w') ∧
    Forall (λ sn, Id sn ≠ []) (all_subnets b) ∧
    ∀ _id g, (_id, g) ∈ reg_jobs b →
             ∃ ops, decode_bmodel_cmd decoder g _id = Ok ops.
Proof.
  split.
  - intros (outs & w' & Hmain). unfold main_reg in Hmain.
    rewrite BModel2Reg_all_subnets in Hmain.
    destruct (open_decoder b w) as [[decoder|e] w1] eqn:Hopen; [|done].
    destruct (gen_raised (gen_for (all_subnets b) (reg_subnet decoder))) eqn:Hr;
      [done|].
    destruct (reg_subnets_raised decoder _ Hr) as [Hids Hok].
    exists decoder, w1. split; [done|]. split; [done|].
    intros _id g Hjob. unfold reg_jobs in Hjob.
    apply elem_of_concat in Hjob as (l & Hjob & Hl).
    apply list_elem_of_fmap in Hl as (sn & -> & Hsn).
    destruct (Id sn) as [|id' rest] eqn:HId; [by apply elem_of_nil in Hjob|].
    apply list_elem_of_fmap in Hjob as (g' & [= -> ->] & Hg).
    by apply (Hok sn id' rest g').
  - intros (decoder & w' & Hopen & Hids & Hok).
    destruct (BModel2Reg_ok b w w' decoder Hopen Hids Hok) as (module & Hrun & _).
    unfold main_reg. rewrite Hrun. simpl. eauto.
Qed.

(** A container with a CmdGroup the example decoder rejects: nothing is
    listed. *)
Example main_reg_rejected :
  (@main_reg example_decoder_methods
     (mkBModel [PyStr "BM1684"]
        [mkNet [mkParameter [mkSubNet [0] [mkCmdGroup [Byte.x01] [];
                                           mkCmdGroup [] [Byte.x0a]]]]])
     initial_world).1
  = Raise (KeyError "tiu").
Proof. reflexivity. Qed.

(** ** The number of context lines *)

Lemma chain_app {X} (R : X → X → Prop) (l1 l2 : list X) :
  chain R (l1 ++ l2) ↔
  chain R l1 ∧ chain R l2 ∧
  match last l1, head l2 with Some x, Some y => R x y | _, _ => True end.
Proof.
  induction l1 as [|x l1 IH]; simpl.
  - destruct l2; tauto.
  - rewrite IH. destruct l1 as [|y l1]; simpl.
    + destruct l2; simpl; tauto.
    + destruct (last (y :: l1)) eqn:Hl, (head l2); tauto.
Qed.

Lemma chain_snoc {X} (R : X → X → Prop) (l : list X) (y : X) :
  chain R (l ++ [y]) ↔
  chain R l ∧ match last l with Some x => R x y | None => True end.
Proof.
  rewrite chain_app. simpl. destruct (last l); tauto.
Qed.

(** Opcodes with the same tags take turns alike. *)
Lemma chain_alternate_tags (l l' : list opcode) :
  Forall2 (λ c d, is_equal c = is_equal d) l l' →
  chain alternate l → chain alternate l'.
Proof.
  induction 1 as [|c d l l' Hcd Hl IH]; [done|]. simpl.
  intros [Hhead Hrest]. split; [|by apply IH].
  destruct Hl as [|c' d' l l' Hcd' _]; [done|].
  unfold alternate in *. congruence.
Qed.

(** *** Blocks that are merged are no longer adjacent *)

Lemma collapse_apart (l : list Match) :
  Forall (λ x, 0 < x.2) l →
  Forall (λ x, 0 < x.2) (collapse l) ∧ chain (λ x y, ¬ adjacent x y) (collapse l).
Proof.
  intros Hpos.
  assert (∀ i1 j1 k1 na,
            0 ≤ k1 → (k1 = 0 → na = []) →
            Forall (λ x : Match, 0 < x.2) na →
            chain (λ x y, ¬ adjacent x y) na →
            match last na with
            | Some x => ¬ adjacent x (i1, j1, k1)
            | None => True
            end →
            let '(i1', j1', k1', na') :=
              foldl (λ '(i1, j1, k1, non_adjacent) '(i2, j2, k2),
                       if (i1 + k1 =? i2) && (j1 + k1 =? j2) then
                         (i1, j1, k1 + k2, non_adjacent)
                       else
                         (i2, j2, k2,
                          if k1 =? 0 then non_adjacent
                          else non_adjacent ++ [(i1, j1, k1)]))
                    (i1, j1, k1, na) l in
            0 ≤ k1' ∧
            Forall (λ x : Match, 0 < x.2) na' ∧
            chain (λ x y, ¬ adjacent x y) na' ∧
            match last na' with
            | Some x => ¬ adjacent x (i1', j1', k1')
            | None => True
            end) as Hfold.
  { clear -Hpos.
    induction l as [|[[i2 j2] k2] l IH]; intros i1 j1 k1 na Hk Hk0 Hna Hchain Hlast;
      simpl; [done|].
    apply Forall_cons in Hpos as [Hk2 Hpos]. simpl in Hk2.
    destruct ((i1 + k1 =? i2) && (j1 + k1 =? j2)) eqn:Hadj.
    - apply IH; [done|lia|intros; lia|done|done|].
      destruct (last na) as [[[i0 j0] k0]|]; [|done].
      unfold adjacent in *. simpl in *. done.
    - destruct (Z.eqb_spec k1 0) as [Hz|Hnz].
      + apply IH; [done|lia|intros; lia|done|done|]. by rewrite (Hk0 Hz).
      + apply IH; [done|lia|intros; lia|..].
        * apply Forall_app. split; [done|]. apply Forall_singleton. simpl. lia.
        * apply chain_snoc. done.
        * rewrite last_snoc. unfold adjacent. simpl.
          apply andb_false_iff in Hadj. intros [??]. destruct Hadj; lia. }
  specialize (Hfold 0 0 0 [] ltac:(lia) ltac:(done) ltac:(constructor) I I).
  match type of Hfold with
  | context [foldl ?f ?s l] =>
      change (collapse l)
        with (let '(i1, j1, k1, non_adjacent) := foldl f s l in
              if k1 =? 0 then non_adjacent else non_adjacent ++ [(i1, j1, k1)]);
      destruct (foldl f s l) as [[[i1 j1] k1] na]
  end.
  destruct Hfold as (Hk & Hna & Hchain & Hlast).
  destruct (Z.eqb_spec k1 0) as [Hz|Hnz]; [done|]. split.
  - apply Forall_app. split; [done|]. apply Forall_singleton. simpl. lia.
  - by apply chain_snoc.
Qed.

(** *** Context and changes take turns *)

Lemma opcodes_of_alternate (la lb : Z) (blocks : list Match) :
  Forall (λ x : Match, 0 < x.2 ∧ 0 ≤ x.1.1 ∧ 0 ≤ x.1.2) blocks →
  StronglySorted before blocks → chain (λ x y, ¬ adjacent x y) blocks →
  chain alternate (opcodes_of (blocks ++ [(la, lb, 0)])).
Proof.
  intros Hpos Hsorted Hchain.
  assert (∀ l i j answer,
            chain alternate answer →
            (answer = [] ∨ ∃ c, last answer = Some c ∧ is_equal c = true) →
            Forall (λ x : Match, 0 < x.2 ∧ i ≤ x.1.1 ∧ j ≤ x.1.2) l →
            (answer ≠ [] →
             match head l with Some x => i < x.1.1 ∨ j < x.1.2 | None => True end) →
            chain (λ x y, ¬ adjacent x y) l → StronglySorted before l →
            let '(i', j', answer') :=
              foldl (λ '(i, j, answer) '(ai, bj, size),
                       let answer :=
                         if (i <? ai) && (j <? bj)
                         then answer ++ [(tag_replace, i, ai, j, bj)]
                         else if i <? ai then answer ++ [(tag_delete, i, ai, j, bj)]
                         else if j <? bj then answer ++ [(tag_insert, i, ai, j, bj)]
                         else answer in
                       let i' := ai + size in
                       let j' := bj + size in
                       (i', j',
                        if size =? 0 then answer
                        else answer ++ [(tag_equal, ai, i', bj, j')]))
                    (i, j, answer) l in
            chain alternate answer' ∧
            (answer' = [] ∨ ∃ c, last answer' = Some c ∧ is_equal c = true)) as Hfold.
  { clear. induction l as [|[[ai bj] size] l IH];
      intros i j answer Hans Hlast Hl Hnext Hch Hs.
    { simpl. done. }
    apply Forall_cons in Hl as [(Hsize & Hi & Hj) Hl]. simpl in Hsize, Hi, Hj.
    apply StronglySorted_cons_iff in Hs as [Hxl Hs].
    simpl in Hch. destruct Hch as [Hadj Hch]. simpl in Hnext.
    set (answer1 := if (i <? ai) && (j <? bj)
                    then answer ++ [(tag_replace, i, ai, j, bj)]
                    else if i <? ai then answer ++ [(tag_delete, i, ai, j, bj)]
                    else if j <? bj then answer ++ [(tag_insert, i, ai, j, bj)]
                    else answer).
    assert (chain alternate answer1 ∧
            (answer1 = [] ∨ ∃ c, last answer1 = Some c ∧ is_equal c = false)) as [Hans1 Hlast1].
    { assert (∀ c, is_equal c = false →
                   chain alternate (answer ++ [c]) ∧
                   (answer ++ [c] = [] ∨
                    ∃ c', last (answer ++ [c]) = Some c' ∧ is_equal c' = false)) as Hadd.
      { intros c Hc. split.
        - apply chain_snoc. split; [done|].
          destruct Hlast as [->|(c' & -> & Hc')]; [done|].
          unfold alternate. congruence.
        - right. exists c. by rewrite last_snoc. }
      subst answer1.
      destruct (Z.ltb_spec i ai), (Z.ltb_spec j bj); simpl; try (by apply Hadd).
      split; [done|]. left.
      destruct answer as [|c0 answer]; [done|]. exfalso.
      destruct Hnext as [?|?]; [done|lia..]. }
    set (answer2 := if size =? 0 then answer1
                    else answer1 ++ [(tag_equal, ai, ai + size, bj, bj + size)]).
    assert (chain alternate answer2 ∧
            ∃ c, last answer2 = Some c ∧ is_equal c = true) as [Hans2 Hlast2].
    { subst answer2. destruct (Z.eqb_spec size 0) as [->|_]; [lia|]. split.
      - apply chain_snoc. split; [done|].
        destruct Hlast1 as [->|(c' & -> & Hc')]; [done|].
        unfold alternate. rewrite Hc'. done.
      - eexists. by rewrite last_snoc. }
    specialize (IH (ai + size) (bj + size) answer2 Hans2 (or_intror Hlast2)).
    match goal with
    | |- context [foldl ?f (i, j, answer) ((ai, bj, size) :: l)] =>
        change (foldl f (i, j, answer) ((ai, bj, size) :: l))
          with (foldl f (ai + size, bj + size, answer2) l)
    end.
    apply IH; [| |done|done].
    - rewrite Forall_forall in Hl, Hxl. apply Forall_forall. intros [[i3 j3] k3] H3.
      destruct (Hl _ H3) as (? & _). specialize (Hxl _ H3).
      unfold before, rect_before in Hxl. simpl in *. done.
    - intros _. destruct l as [|[[i3 j3] k3] l]; [done|]. simpl.
      apply Forall_cons in Hxl as [Hb _].
      unfold before, rect_before, adjacent in *. simpl in *. lia. }
  unfold opcodes_of. rewrite foldl_app.
  specialize (Hfold blocks 0 0 [] I (or_introl eq_refl)).
  match type of Hfold with
  | context [foldl ?f ?s blocks] =>
      match goal with
      | |- context [foldl ?g ?s' blocks] =>
          change (foldl g s' blocks) with (foldl f s blocks)
      end;
      destruct (foldl f s blocks) as [[i' j'] answer']
  end.
  destruct Hfold as [Hans Hlast]; [|done|done|done|].
  { eapply Forall_impl; [exact Hpos|]. intros [[i j] k]. simpl. lia. }
  simpl.
  assert (∀ c, is_equal c = false → chain alternate (answer' ++ [c])) as Hadd.
  { intros c Hc. apply chain_snoc. split; [done|].
    destruct Hlast as [->|(c' & Hl & Hc')]; [done|].
    unfold opcode in *. rewrite Hl. unfold alternate. congruence. }
  destruct (i' <? la), (j' <? lb); simpl; try (by apply Hadd). done.
Qed.

(** [get_matching_blocks]: after the merge no block is empty and no two
    neighbours are adjacent. *)
Lemma get_matching_blocks_apart {A} `{Countable A} (a b : list A) :
  ∃ blocks,
    get_matching_blocks (new_SequenceMatcher a b)
      = Some (blocks ++ [(Z.of_nat (length a), Z.of_nat (length b), 0)]) ∧
    Forall (sound_block a b) blocks ∧ StronglySorted before blocks ∧
    Forall (λ x : Match, 0 < x.2) blocks ∧
    chain (λ x y, ¬ adjacent x y) blocks.
Proof.
  set (m := new_SequenceMatcher a b).
  assert (sm_a m = a) as Ha by apply new_SequenceMatcher_a.
  assert (sm_b m = b) as Hb by apply new_SequenceMatcher_b.
  assert (∀ x js j, b2j m !! x = Some js → j ∈ js →
                    0 ≤ j ∧ sm_b m !! Z.to_nat j = Some x) as Hb2j.
  { intros x js j Hjs Hj. unfold m in Hjs. rewrite new_SequenceMatcher_b2j in Hjs.
    apply chain_b_lookup in Hjs as [-> _].
    apply elem_of_occurrences in Hj as [Hj0 Hj]. rewrite Z.sub_0_r in Hj.
    by rewrite Hb. }
  unfold get_matching_blocks.
  destruct (matching_loop_returns m (2 * length (sm_a m) + 1)
              [(0, Z.of_nat (length (sm_a m)), 0, Z.of_nat (length (sm_b m)))] [])
    as [blocks Hloop]; [repeat constructor; lia|simpl; lia|].
  rewrite Hloop. simpl.
  destruct (matching_loop_sound m Hb2j (2 * length (sm_a m) + 1)
              [(0, Z.of_nat (length (sm_a m)), 0, Z.of_nat (length (sm_b m)))]
              [] blocks) as [Hsound Hsorted]; [| |repeat constructor|done|].
  { repeat constructor; lia. }
  { constructor. }
  rewrite Ha, Hb in *.
  assert (Forall (λ x : Match, 0 < x.2) (sort blocks)) as Hpos.
  { apply Forall_forall. intros x Hx. apply (proj1 (elem_of_sort _ _)) in Hx.
    rewrite Forall_forall in Hsound. by apply Hsound. }
  exists (collapse (sort blocks)). split; [done|].
  destruct (collapse_sound a b (sort blocks)) as [Hs1 Hs2].
  - apply Forall_forall. intros x Hx. apply (proj1 (elem_of_sort _ _)) in Hx.
    rewrite Forall_forall in Hsound. by apply Hsound.
  - apply sort_chain; [|done].
    eapply Forall_impl; [exact Hsound|]. by intros x [_ ?].
  - destruct (collapse_apart (sort blocks) Hpos) as [Hp Hc]. done.
Qed.

(** [get_opcodes]: the opcodes lead from the start of both lists to their
    end, and [equal] opcodes and changes take turns. *)
Lemma get_opcodes_alternate {A} `{Countable A} (a b : list A) :
  ∃ codes, get_opcodes (new_SequenceMatcher a b) = Some codes ∧
           tiling a b 0 0 (Z.of_nat (length a)) (Z.of_nat (length b)) codes ∧
           chain alternate codes.
Proof.
  destruct (get_matching_blocks_apart a b)
    as (blocks & Hblocks & Hsound & Hsorted & Hpos & Hchain).
  unfold get_opcodes. rewrite Hblocks. simpl. eexists. split; [done|].
  split; [by apply opcodes_of_tiling|].
  apply opcodes_of_alternate; [|done|done].
  apply Forall_forall. intros [[i j] k] Hx.
  rewrite Forall_forall in Hpos, Hsound.
  specialize (Hpos _ Hx). destruct (Hsound _ Hx) as [Hin _].
  simpl in *. lia.
Qed.

(** *** The groups *)

Lemma same_tags_refl (codes : list opcode) :
  Forall2 (λ c d, is_equal c = is_equal d) codes codes.
Proof. induction codes; by constructor. Qed.

Lemma fix_first_tags (n : Z) (codes : list opcode) :
  Forall2 (λ c d, is_equal c = is_equal d) codes (fix_first n codes).
Proof.
  destruct codes as [|[[[[tag i1] i2] j1] j2] codes]; [constructor|].
  destruct tag; simpl; (constructor; [done|]); apply same_tags_refl.
Qed.

Lemma fix_last_tags (n : Z) (codes : list opcode) :
  Forall2 (λ c d, is_equal c = is_equal d) codes (fix_last n codes).
Proof.
  destruct codes as [|c codes _] using rev_ind; [constructor|].
  rewrite fix_last_snoc. apply Forall2_app.
  - apply same_tags_refl.
  - constructor; [|constructor]. destruct c as [[[[tag i1] i2] j1] j2].
    by destruct tag.
Qed.

Lemma fix_first_head (n : Z) (codes : list opcode) (c : opcode) :
  head (fix_first n codes) = Some c → is_equal c = true → span_of c ≤ n.
Proof.
  destruct codes as [|[[[[tag i1] i2] j1] j2] codes]; [done|].
  destruct tag; simpl; intros [= <-]; try done.
  intros _. unfold span_of. simpl. lia.
Qed.

Lemma fix_last_head (n : Z) (codes : list opcode) (c : opcode) :
  (∀ d, head codes = Some d → is_equal d = true → span_of d ≤ n) →
  head (fix_last n codes) = Some c → is_equal c = true → span_of c ≤ n.
Proof.
  intros Hhead. destruct codes as [|d codes _] using rev_ind; [done|].
  rewrite fix_last_snoc. destruct codes as [|d' codes].
  - simpl. destruct d as [[[[tag i1] i2] j1] j2]. case_bool_decide as Htag.
    + intros [= <-] _. unfold span_of. simpl. lia.
    + intros [= <-]. by apply Hhead.
  - simpl. intros [= <-]. by apply Hhead.
Qed.

Lemma fix_last_last (n : Z) (codes : list opcode) (c : opcode) :
  last (fix_last n codes) = Some c → is_equal c = true → span_of c ≤ n.
Proof.
  destruct codes as [|d codes _] using rev_ind; [done|].
  rewrite fix_last_snoc, last_snoc. destruct d as [[[[tag i1] i2] j1] j2].
  case_bool_decide as Htag.
  - intros [= <-] _. unfold span_of. simpl. lia.
  - intros [= <-] Heq. apply bool_decide_eq_true in Heq. done.
Qed.

Lemma group_fold_context (n : Z) (rest : list opcode) :
  0 ≤ n →
  ∀ groups group,
    Forall (λ g, chain alternate g ∧ (∃ c, c ∈ g ∧ is_equal c = false) ∧ bounded n g)
           groups →
    chain alternate (group ++ rest) →
    (group = [] → ∀ c, head rest = Some c → is_equal c = true → span_of c ≤ n) →
    (∀ c, last (group ++ rest) = Some c → is_equal c = true → span_of c ≤ n) →
    (∀ c, head group = Some c → is_equal c = true → span_of c ≤ n) →
    (∀ c, c ∈ group → is_equal c = true → span_of c ≤ n + n) →
    Forall (λ g, chain alternate g ∧ (∃ c, c ∈ g ∧ is_equal c = false) ∧ bounded n g)
           (foldl (group_step n) (groups, group) rest).1 ∧
    chain alternate (foldl (group_step n) (groups, group) rest).2 ∧
    bounded n (foldl (group_step n) (groups, group) rest).2.
Proof.
  intros Hn. induction rest as [|[[[[tag i1] i2] j1] j2] rest IH];
    intros groups group Hgroups Hchain Hfirst Hlast Hhead Hall.
  { simpl. rewrite app_nil_r in *. done. }
  simpl.
  destruct (bool_decide (tag = tag_equal) && (n + n <? i2 - i1)) eqn:Hsplit.
  - apply andb_true_iff in Hsplit as [Heq%bool_decide_eq_true Hlong%Z.ltb_lt].
    subst tag.
    apply chain_app in Hchain as (Hcg & Hcr & Hlink).
    assert (∃ d, last group = Some d) as [d Hd].
    { destruct group as [|d group _] using rev_ind.
      - specialize (Hfirst eq_refl _ eq_refl eq_refl). unfold span_of in Hfirst.
        simpl in Hfirst. lia.
      - exists d. by rewrite last_snoc. }
    rewrite Hd in Hlink. simpl in Hlink.
    apply IH.
    + apply Forall_app. split; [done|]. apply Forall_singleton. split; [|split].
      * apply chain_snoc. split; [done|]. by rewrite Hd.
      * exists d. split.
        -- apply elem_of_app. left. by apply last_Some_elem_of.
        -- unfold alternate in Hlink. by destruct (is_equal d).
      * split; [|split].
        -- intros c [Hc|Hc]%elem_of_app; [by apply Hall|].
           apply list_elem_of_singleton in Hc as ->. unfold span_of. simpl. lia.
        -- intros c. destruct group; [done|]. simpl. apply Hhead.
        -- intros c. rewrite last_snoc. intros [= <-] _. unfold span_of. simpl. lia.
    + simpl in *. destruct Hcr as [Hnext Hcr]. split; [|done].
      by destruct rest.
    + done.
    + intros c. simpl. destruct rest as [|c' rest].
      * intros [= <-] _. unfold span_of. simpl. lia.
      * intros Hc. apply Hlast. rewrite last_app. simpl in *. by rewrite Hc.
    + intros c [= <-] _. unfold span_of. simpl. lia.
    + intros c ->%list_elem_of_singleton _. unfold span_of. simpl. lia.
  - apply IH.
    + done.
    + by rewrite <-app_assoc.
    + by destruct group.
    + by rewrite <-app_assoc.
    + intros c. destruct group as [|c' group]; simpl.
      * intros [= <-]. by apply Hfirst.
      * apply Hhead.
    + intros c [Hc|Hc]%elem_of_app; [by apply Hall|].
      apply list_elem_of_singleton in Hc as ->. intros Heq.
      apply bool_decide_eq_true in Heq. simpl in Heq. subst tag.
      simpl in Hsplit. apply Z.ltb_ge in Hsplit. unfold span_of. simpl. lia.
Qed.

(** For a context that is not negative: in every group context and
    changes take turns, there is a change, and the context is bounded. *)
Lemma grouped_opcodes_context (n : Z) (codes : list opcode) :
  0 ≤ n → chain alternate codes →
  Forall (λ g, chain alternate g ∧ (∃ c, c ∈ g ∧ is_equal c = false) ∧ bounded n g)
         (grouped_opcodes n codes).
Proof.
  intros Hn Hchain. unfold grouped_opcodes.
  set (codes0 := if bool_decide (codes = []) then [(tag_equal, 0, 1, 0, 1)] else codes).
  assert (chain alternate codes0) as Hchain0.
  { subst codes0. by case_bool_decide. }
  cbv zeta.
  assert (chain alternate (fix_last n (fix_first n codes0))) as Hchain2.
  { eapply chain_alternate_tags; [apply fix_last_tags|].
    eapply chain_alternate_tags; [apply fix_first_tags|]. done. }
  destruct (group_fold_context n (fix_last n (fix_first n codes0)) Hn [] [])
    as (Hgroups & Hgroup & Hbounded).
  { constructor. }
  { done. }
  { intros _ c. apply fix_last_head. apply fix_first_head. }
  { intros c. apply fix_last_last. }
  { done. }
  { intros c Hc. by apply elem_of_nil in Hc. }
  destruct (foldl (group_step n) ([], []) (fix_last n (fix_first n codes0)))
    as [groups group]. simpl in Hgroups, Hgroup, Hbounded.
  destruct group as [|c [|c' group]]; [done| |].
  - destruct (is_equal c) eqn:Hc; [done|].
    apply Forall_app. split; [done|]. apply Forall_singleton.
    split; [done|]. split; [|done]. exists c. split; [by apply elem_of_cons; left|done].
  - apply Forall_app. split; [done|]. apply Forall_singleton.
    split; [done|]. split; [|done].
    destruct Hgroup as [Halt _]. unfold alternate in Halt.
    destruct (is_equal c) eqn:Hc.
    + exists c'. split; [by apply elem_of_cons; right; apply elem_of_cons; left|].
      by destruct (is_equal c').
    + exists c. split; [by apply elem_of_cons; left|done].
Qed.

(** *** The lines of an opcode *)

Lemma slice_length {X} (l : list X) (i1 i2 : Z) :
  0 ≤ i1 → i1 ≤ i2 → i2 ≤ Z.of_nat (length l) →
  Z.of_nat (length (slice l i1 i2)) = i2 - i1.
Proof.
  intros H1 H2 H3. rewrite slice_inside by lia.
  rewrite length_take, length_drop. lia.
Qed.

Lemma tiling_lines {A} `{Operation A} (fmt : A → string) (a b : list A)
    (i j ie je : Z) (codes : list opcode) :
  tiling a b i j ie je codes → 0 ≤ i → 0 ≤ j →
  ie ≤ Z.of_nat (length a) → je ≤ Z.of_nat (length b) →
  ∀ c, c ∈ codes →
       (is_equal c = false → opcode_lines fmt a b c ≠ []) ∧
       (is_equal c = true → Z.of_nat (length (opcode_lines fmt a b c)) = span_of c).
Proof.
  revert i j. induction codes as [|[[[[tag i1] i2] j1] j2] codes IH];
    intros i j Htil Hi0 Hj0 Hia Hjb c Hc; [by apply elem_of_nil in Hc|].
  simpl in Htil. destruct Htil as (-> & -> & Hi & Hj & Htag & Hrest).
  pose proof (tiling_le _ _ _ _ _ _ _ Hrest) as [??].
  apply elem_of_cons in Hc as [->|Hc]; [|by apply (IH i2 j2); try lia].
  split.
  - intros Hne Hnil. apply (f_equal length) in Hnil.
    pose proof (slice_length a i i2 ltac:(lia) ltac:(lia) ltac:(lia)) as Hla.
    pose proof (slice_length b j j2 ltac:(lia) ltac:(lia) ltac:(lia)) as Hlb.
    destruct tag; try done; simpl in Hnil;
      rewrite ?length_app, ?length_fmap in Hnil; simpl in Hnil; lia.
  - intros Heq. apply bool_decide_eq_true in Heq. simpl in Heq. subst tag.
    simpl. rewrite length_fmap. unfold span_of. simpl.
    apply slice_length; lia.
Qed.

Lemma covers_tilings {A} (a b : list A) (i j : Z) groups :
  covers a b i j (Z.of_nat (length a)) (Z.of_nat (length b)) groups →
  0 ≤ i → 0 ≤ j →
  Forall (λ group,
            ∃ gi gi' gj gj',
              0 ≤ gi ∧ gi' ≤ Z.of_nat (length a) ∧
              0 ≤ gj ∧ gj' ≤ Z.of_nat (length b) ∧
              tiling a b gi gj gi' gj' group) groups.
Proof.
  revert i j. induction groups as [|g groups IH]; intros i j Hcov Hi0 Hj0;
    [constructor|].
  simpl in Hcov. destruct Hcov as (gi & gi' & gj & gj' & Hr & Hgap & Htil & Hrest).
  pose proof Hgap as (? & ? & _).
  pose proof (tiling_le _ _ _ _ _ _ _ Htil) as [??].
  pose proof (covers_le _ _ _ _ _ _ _ Hrest) as [??].
  constructor; [|apply (IH gi' gj'); [done|lia..]].
  exists gi, gi', gj, gj'. repeat (split; [lia|]). done.
Qed.

(** X18.  What the number of context lines means.  For a number [n] that
    is not negative, in every hunk of the diff the runs of context lines
    and the changes take turns; the hunk has a change, and every change
    prints at least one line; a run of context has at most [2 n] lines,
    and at most [n] when the hunk starts or ends with it. *)
Theorem unified_diff_context {A} `{Operation A} (a b : list A)
    (fromfile tofile : string) (n : Z) (format : string) (fmt : A → string) :
  0 ≤ n → fmt_op format = Some fmt →
  ∃ groups,
    yielded (unified_diff a b fromfile tofile n format)
      = match groups with
        | [] => []
        | _ => ["--- " +:+ fromfile; "+++ " +:+ tofile]
        end ++ concat (hunk fmt a b <$> groups) ∧
    Forall (context_ok fmt a b n) groups.
Proof.
  intros Hn Hfmt.
  destruct (get_opcodes_alternate a b) as (codes & Hcodes & Htil & Halt).
  assert (get_grouped_opcodes (new_SequenceMatcher a b) n
          = Some (grouped_opcodes n codes)) as Hgroups.
  { unfold get_grouped_opcodes. by rewrite Hcodes. }
  exists (grouped_opcodes n codes). split.
  { by rewrite (unified_diff_hunks fmt a b fromfile tofile n format
                  (grouped_opcodes n codes)). }
  pose proof (grouped_opcodes_context n codes Hn Halt) as Hshape.
  pose proof (covers_tilings a b 0 0 _ (grouped_opcodes_covers a b n codes Hn Htil)
                ltac:(lia) ltac:(lia)) as Htils.
  rewrite Forall_forall in Hshape, Htils. apply Forall_forall. intros g Hg.
  destruct (Hshape g Hg) as (Hchain & Hchange & Hall & Hhead & Hlast).
  destruct (Htils g Hg) as (gi & gi' & gj & gj' & ? & ? & ? & ? & Hgt).
  pose proof (tiling_lines fmt a b gi gj gi' gj' g Hgt
                ltac:(done) ltac:(done) ltac:(done) ltac:(done)) as Hlines.
  split; [done|]. split; [done|]. split; [|split; [|split]].
  - intros c Hc. by apply Hlines.
  - intros c Hc Heq. destruct (Hlines c Hc) as [_ Hl]. rewrite (Hl Heq).
    by apply Hall.
  - intros c Hc Heq.
    destruct (Hlines c (head_Some_elem_of _ _ Hc)) as [_ Hl]. rewrite (Hl Heq).
    by apply Hhead.
  - intros c Hc Heq.
    destruct (Hlines c (last_Some_elem_of _ _ Hc)) as [_ Hl]. rewrite (Hl Heq).
    by apply Hlast.
Qed.

Lemma unified_diff_context_witness :
  ∃ groups,
    yielded (unified_diff [1; 2; 3; 4; 5] [1; 2; 9; 4; 5] "a.bmodel" "b.bmodel" 1 "mlir")
      = match groups with
        | [] => []
        | _ => ["--- a.bmodel"; "+++ b.bmodel"]
        end ++ concat (hunk (op_str : Z → string) [1; 2; 3; 4; 5] [1; 2; 9; 4; 5]
                         <$> groups) ∧
    Forall (context_ok (op_str : Z → string) [1; 2; 3; 4; 5] [1; 2; 9; 4; 5] 1) groups.
Proof.
  apply (unified_diff_context [1; 2; 3; 4; 5] [1; 2; 9; 4; 5] "a.bmodel" "b.bmodel"
           1 "mlir" op_str).
  - lia.
  - reflexivity.
Defined.

(** Five operations on each side and one of them replaced, with one line
    of context: one hunk, a line of context on both sides of the
    change. *)
Example unified_diff_context_example :
  yielded (unified_diff [1; 2; 3; 4; 5] [1; 2; 9; 4; 5] "a.bmodel" "b.bmodel" 1 "mlir")
  = ["--- a.bmodel"; "+++ b.bmodel";
     "@@ -2,3 +2,3 @@" +:+ LF; "    2"; "-   3"; "+   9"; "    4"; ""].
Proof. vm_compute. reflexivity. Qed.

(** ** The command line: what a run touches *)

Section main.
Context {A : Type} `{Disassembler A}.

Lemma BModel2MLIR_frame (bmodel_file : string) (w : World) :
  class_attrs (BModel2MLIR bmodel_file w).2 = class_attrs w ∧
  files (BModel2MLIR bmodel_file w).2 = files w.
Proof.
  unfold BModel2MLIR. destruct (BModelReader bmodel_file (files w)) as [b|e]; [|done].
  pose proof (open_decoder_frame b w) as Hframe.
  by destruct (open_decoder b w) as [[d|e] w'].
Qed.

Lemma main_reg_frame (b : bmodel) (w : World) :
  class_attrs (main_reg b w).2 = class_attrs w ∧
  files (main_reg b w).2 = files w.
Proof.
  unfold main_reg, BModel2Reg. pose proof (open_decoder_frame b w) as Hframe.
  destruct (open_decoder b w) as [[d|e] w']; [|done]. simpl in *.
  by destruct (gen_raised _).
Qed.
End main.

(** X19.  What a run of the tool touches.  Only [--format bin] with one
    BModel writes files, and it builds no context and no decoder and prints
    nothing; no run changes an attribute of a class.  [--format bits] with
    one BModel is a [NotImplementedError], and no or more than two BModels
    end with status 2, in both cases before any file is read and anything
    is built.  A run with one BModel calls [exit] with status 0 only: it
    ends that way, or by an exception that nobody catches, and then it has
    printed nothing. *)
Theorem main_touches {A} `{Disassembler A} `{FileSystem} (args : Args) (w : World) :
  ((∀ f, args_bmodels args = [f] → args_format args ≠ "bin") →
   files (main args w).2 = files w) ∧
  ((∃ f, args_bmodels args = [f]) → args_format args = "bin" →
   same_heap w (main args w).2 ∧ (main args w).1.1 = []) ∧
  class_attrs (main args w).2 = class_attrs w ∧
  ((∃ f, args_bmodels args = [f]) → args_format args = "bits" →
   main args w = (([], NotImplementedError "Not supports bits mode."), w)) ∧
  (length (args_bmodels args) ≠ 1%nat → length (args_bmodels args) ≠ 2%nat →
   main args w = (([], Exit 2), w)) ∧
  ((∃ f, args_bmodels args = [f]) →
   (main args w).1.2 = Exit 0 ∨
   (main args w).1.1 = [] ∧
   ((∃ e, (main args w).1.2 = Uncaught e) ∨
    (∃ msg, (main args w).1.2 = NotImplementedError msg))).
Proof.
  unfold main. destruct args as [bmodels format N]. simpl.
  destruct bmodels as [|f0 [|f1 [|f2 bmodels]]]; simpl.
  - repeat split; try done; by intros [f ?].
  - destruct (String.eqb_spec format "mlir") as [->|Hmlir].
    { pose proof (BModel2MLIR_frame f0 w) as [Hattrs Hfiles].
      destruct (BModel2MLIR f0 w) as [[m|e] w']; simpl in *;
        repeat split; try done; intros _; eauto. }
    destruct (String.eqb_spec format "reg") as [->|Hreg].
    { destruct (BModelReader f0 (files w)) as [b|e];
        [|repeat split; try done; intros _; eauto].
      pose proof (main_reg_frame b w) as [Hattrs Hfiles].
      destruct (main_reg b w) as [[outs|e] w']; simpl in *;
        repeat split; try done; intros _; eauto. }
    destruct (String.eqb_spec format "bin") as [->|Hbin].
    { destruct (BModelReader f0 (files w)) as [b|e].
      - pose proof (BModel2Bin_same_heap f0 b w) as Hheap.
        destruct (BModel2Bin f0 b w) as [[[]|e] w']; simpl in *.
        + split; [intros Hf; by destruct (Hf f0)|].
          split; [done|]. split; [apply Hheap|]. repeat split; try done.
          intros _. eauto.
        + split; [intros Hf; by destruct (Hf f0)|].
          split; [done|]. split; [apply Hheap|]. repeat split; try done.
          intros _. eauto.
      - split; [done|]. split; [intros _ _; simpl; by repeat split|].
        repeat split; try done. intros _. eauto. }
    repeat split; try done. intros _. eauto.
  - split.
    { intros _.
      pose proof (BModel2MLIR_frame f0 w) as [Hattrs Hfiles].
      destruct (BModel2MLIR f0 w) as [[a|e] w1]; simpl in *; [|done].
      pose proof (BModel2MLIR_frame f1 w1) as [Hattrs1 Hfiles1].
      destruct (BModel2MLIR f1 w1) as [[b|e] w2]; simpl in *; congruence. }
    split; [by intros [f ?]|]. split.
    { pose proof (BModel2MLIR_frame f0 w) as [Hattrs Hfiles].
      destruct (BModel2MLIR f0 w) as [[a|e] w1]; simpl in *; [|done].
      pose proof (BModel2MLIR_frame f1 w1) as [Hattrs1 Hfiles1].
      destruct (BModel2MLIR f1 w1) as [[b|e] w2]; simpl in *; congruence. }
    split; [by intros [f ?]|]. split; [done|]. by intros [f ?].
  - repeat split; try done; by intros [f ?].
Qed.

Lemma main_touches_witness :
  files (example_main (mkArgs ["a.bmodel"; "b.bmodel"] "mlir" 3) example_world_bmodels).2
    = files example_world_bmodels ∧
  (same_heap example_world_bmodels
     (example_main (mkArgs ["a.bmodel"] "bin" 3) example_world_bmodels).2 ∧
   (example_main (mkArgs ["a.bmodel"] "bin" 3) example_world_bmodels).1.1 = []) ∧
  example_main (mkArgs ["missing.bmodel"] "bits" 3) example_world_bmodels
    = (([], NotImplementedError "Not supports bits mode."), example_world_bmodels) ∧
  example_main (mkArgs ["a.bmodel"; "b.bmodel"; "c.bmodel"] "mlir" 3) example_world_bmodels
    = (([], Exit 2), example_world_bmodels) ∧
  ((example_main (mkArgs ["missing.bmodel"] "reg" 3) example_world_bmodels).1.2 = Exit 0 ∨
   (example_main (mkArgs ["missing.bmodel"] "reg" 3) example_world_bmodels).1.1 = [] ∧
   ((∃ e, (example_main (mkArgs ["missing.bmodel"] "reg" 3) example_world_bmodels).1.2
          = Uncaught e) ∨
    (∃ msg, (example_main (mkArgs ["missing.bmodel"] "reg" 3) example_world_bmodels).1.2
            = NotImplementedError msg))).
Proof.
  split; [|split; [|split; [|split]]].
  - apply (@main_touches Z _ _ _ _ example_disassembler example_fs
             (mkArgs ["a.bmodel"; "b.bmodel"] "mlir" 3) example_world_bmodels).
    intros f Hf. discriminate.
  - apply (@main_touches Z _ _ _ _ example_disassembler example_fs
             (mkArgs ["a.bmodel"] "bin" 3) example_world_bmodels).
    + by exists "a.bmodel".
    + reflexivity.
  - apply (@main_touches Z _ _ _ _ example_disassembler example_fs
             (mkArgs ["missing.bmodel"] "bits" 3) example_world_bmodels).
    + by exists "missing.bmodel".
    + reflexivity.
  - apply (@main_touches Z _ _ _ _ example_disassembler example_fs
             (mkArgs ["a.bmodel"; "b.bmodel"; "c.bmodel"] "mlir" 3)
             example_world_bmodels); simpl; lia.
  - apply (@main_touches Z _ _ _ _ example_disassembler example_fs
             (mkArgs ["missing.bmodel"] "reg" 3) example_world_bmodels).
    by exists "missing.bmodel".
Defined.

(** Two containers that differ in one operation: a block for their one
    subgraph, and status 1. *)
Example main_two_files :
  (example_main (mkArgs ["a.bmodel"; "b.bmodel"] "mlir" 3) example_world_bmodels).1
  = ([func_block [0]
        ((λ x, LF +:+ x) <$>
           ["--- a.bmodel"; "+++ b.bmodel"; "@@ -1,2 +1,2 @@" +:+ LF;
            "    1"; "-   2"; "+   3"; ""])],
     Exit 1).
Proof. vm_compute. reflexivity. Qed.

(** ** A container compared with itself *)

Lemma open_decoder_again (b : bmodel) (w w1 w' : World) (d : nat) :
  open_decoder b w = (Ok d, w1) → ∃ d' w2, open_decoder b w' = (Ok d', w2).
Proof.
  unfold open_decoder, Context_new.
  destruct (getitem0 (Chip b)) as [chip|e]; [|done].
  destruct (Context_init chip) as [s|e]; [|done]. simpl. intros _.
  destruct (decoder _ _) as [d' w2]. eauto.
Qed.

Section itself.
Context {A : Type} `{Disassembler A}.

Lemma BModel2MLIR_again (f : string) (w w1 : World) (m : MlirModule) :
  (∀ b d d' m, disassembler_BModel2MLIR b d = Ok m →
     ∃ m', disassembler_BModel2MLIR b d' = Ok m' ∧ module_cmd m' = module_cmd m) →
  BModel2MLIR f w = (Ok m, w1) →
  ∃ m' w2, BModel2MLIR f w1 = (Ok m', w2) ∧ module_cmd m' = module_cmd m.
Proof.
  intros Hindep Hload.
  pose proof (BModel2MLIR_frame f w) as [_ Hfiles]. rewrite Hload in Hfiles.
  simpl in Hfiles. unfold BModel2MLIR in *. rewrite Hfiles.
  destruct (BModelReader f (files w)) as [b|e]; [|done].
  destruct (open_decoder b w) as [[d|e] w0] eqn:Hopen; [|done].
  injection Hload as Hm <-.
  destruct (open_decoder_again b w w0 w0 d Hopen) as (d' & w2 & ->).
  destruct (Hindep b d d' m Hm) as (m' & -> & Hcmd). eauto.
Qed.

Lemma diff_blocks_negative (f : string) (N : Z) (format : string)
    (cmd : list (list Z * list A)) :
  N < 0 → is_Some (fmt_op format) →
  length (diff_blocks f f N format (zip cmd cmd)) = length cmd.
Proof.
  intros HN Hfmt. induction cmd as [|[idx ops] cmd IH]; [done|].
  cbn [zip zip_with diff_blocks omap list_omap fst snd]. unfold diff_blocks in IH.
  rewrite (unified_diff_same_negative ops f f N format HN Hfmt).
  cbn [yielded]. rewrite bool_decide_eq_true_2 by done. simpl. by rewrite IH.
Qed.
End itself.

(** X20.  A BModel compared with itself.  When the container can be
    disassembled, and what the disassembler returns does not depend on the
    decoder object it is given, the comparison of the container with itself
    loads it twice and never raises.  With a number of context lines that
    is not negative, or without any subgraph, it prints that the files are
    the same and exits with status 0; with a negative number it prints a
    block for every subgraph and exits with status 1. *)
Theorem main_compare_itself {A} `{Disassembler A} `{FileSystem}
    (f format : string) (N : Z)
    (w w1 : World) (m : MlirModule) :
  format = "mlir" ∨ format = "bits" →
  (∀ b d d' m, disassembler_BModel2MLIR b d = Ok m →
     ∃ m', disassembler_BModel2MLIR b d' = Ok m' ∧ module_cmd m' = module_cmd m) →
  BModel2MLIR f w = (Ok m, w1) →
  ∃ out w2,
    main (mkArgs [f; f] format N) w
      = ((out, Exit (if decide (0 ≤ N ∨ module_cmd m = []) then 0 else 1)), w2) ∧
    (0 ≤ N ∨ module_cmd m = [] → out = [same_message f f]) ∧
    (¬ (0 ≤ N ∨ module_cmd m = []) → length out = length (module_cmd m)).
Proof.
  intros Hformat Hindep Hload.
  destruct (BModel2MLIR_again f w w1 m Hindep Hload) as (m' & w2 & Hload' & Hcmd).
  assert (is_Some (fmt_op format)) as Hfmt.
  { destruct Hformat as [->| ->]; by eexists. }
  unfold main. cbn [args_bmodels args_format args_N]. rewrite Hload, Hload', Hcmd.
  destruct (decide (0 ≤ N ∨ module_cmd m = [])) as [Hsame|Hdiff].
  - exists [same_message f f], w2. split; [|done].
    destruct Hsame as [HN|Hnil].
    + by rewrite main_compare_identical.
    + rewrite Hnil. reflexivity.
  - assert (N < 0) as HN by lia.
    pose proof (diff_blocks_negative f N format (module_cmd m) HN Hfmt) as Hlen.
    rewrite main_compare_valid by done. case_bool_decide as Hblocks.
    + rewrite Hblocks in Hlen. destruct (module_cmd m); [|done]. destruct Hdiff. auto.
    + eexists _, w2. split; [reflexivity|]. split; [done|]. intros _. exact Hlen.
Qed.

Lemma main_compare_itself_witness :
  ∃ out w2,
    example_main (mkArgs ["a.bmodel"; "a.bmodel"] "mlir" 3) example_world_bmodels
      = ((out, Exit 0), w2) ∧
    out = [same_message "a.bmodel" "a.bmodel"].
Proof.
  destruct (@main_compare_itself Z _ _ _ _ example_disassembler example_fs
              "a.bmodel" "mlir" 3
              example_world_bmodels
              (@BModel2MLIR Z _ _ _ _ example_disassembler "a.bmodel"
                 example_world_bmodels).2
              [([0], [1; 2])])
    as (out & w2 & Hmain & Hsame & _).
  - by left.
  - intros b d d' m Hm. exists m. split; [exact Hm|done].
  - reflexivity.
  - exists out, w2. split; [exact Hmain|]. apply Hsame. left. lia.
Defined.

(** The same container with [--N -1]: a block for its subgraph, and
    status 1. *)
Example main_compare_itself_negative :
  (example_main (mkArgs ["a.bmodel"; "a.bmodel"] "mlir" (-1)) example_world_bmodels).1
  = ([func_block [0]
        ((λ x, LF +:+ x) <$>
           ["--- a.bmodel"; "+++ a.bmodel"; "@@ -4,-1 +4,-1 @@" +:+ LF; ""])],
     Exit 1).
Proof. vm_compute. reflexivity. Qed.
